(** * Synthaura.js: the generative BGM engine (SynthauraBGM, v2.0)

    A shallow embedding of the music scheduler of Synthaura.js and of the
    part of the Web Audio API it drives.

    - JavaScript numbers that hold times, gains and frequencies are exact
      rationals ([Q]); IEEE-754 rounding is abstracted away, except in
      [Double], which has [getFreq] in double precision.  [tick],
      [measure] and scale indices are integers ([Z]); [Math.floor] of an
      integer is the identity.  A number read from an array slot that does
      not exist is [undefined], and arithmetic on it gives [NaN].
    - The methods that build voices only call the Web Audio API, draw
      random numbers and create cleanup closures: they run in a state monad
      over [Audio] and read the engine ([this]) without assigning to it.
    - The transport methods ([start], [stop], [switchTrack], [_schedule])
      act on a [World]: the engine's fields, the audio state and the host
      environment (render clock, the timer worker and its two message
      queues, pending [setTimeout] callbacks).  [destroy] acts on a
      [Host]: a world with the pending destroy callbacks. *)

From Stdlib Require Import ZArith QArith Qround Qpower List String Bool Lia Lqa.
From Stdlib Require Import SpecFloat.
Import ListNotations.

Local Open Scope string_scope.
Local Open Scope list_scope.
Local Open Scope Z_scope.
Local Open Scope Q_scope.

(** ** Numbers *)

(** A JavaScript number that may be [NaN]. *)
Inductive num : Type :=
| Num (q : Q)
| NaN.

Bind Scope Q_scope with num.
Coercion Num : Q >-> num.

Definition nmul (a b : num) : num :=
  match a, b with
  | Num x, Num y => Num (x * y)
  | _, _ => NaN
  end.

Definition ndiv (a b : num) : num :=
  match a, b with
  | Num x, Num y => Num (x / y)
  | _, _ => NaN
  end.

(** [arr[i]]: [None] is [undefined]. *)
Definition js_get {A : Type} (arr : list A) (i : Z) : option A :=
  if (i <? 0)%Z then None else nth_error arr (Z.to_nat i).

(** A number read from an array, used in arithmetic. *)
Definition js_num (arr : list Q) (i : Z) : num :=
  match js_get arr i with
  | Some q => Num q
  | None => NaN
  end.

(** ** The Web Audio API as seen by the engine *)

(** The mix buses are built once by the constructor and the fields that
    hold them are never reassigned; voice nodes are numbered in creation
    order. *)
Inductive node : Type :=
| Destination
| Compressor
| Master
| Reverb
| ReverbGain
| SidechainBus
| Voice (id : nat).

Inductive param : Type :=
| Gain (n : node)
| Frequency (n : node)
| QFactor (n : node)
| DelayTime (n : node).

Inductive target : Type :=
| ToNode (n : node)
| ToParam (p : param).

Inductive nodeKind : Type :=
| Oscillator
| GainNode
| BiquadFilter
| BufferSource
| Delay.

(** One call made by the engine, in the order of the source. *)
Inductive Call : Type :=
| Create (k : nodeKind) (n : node)
| SetType (n : node) (ty : string)
| SetBuffer (n : node)
| SetValue (p : param) (v : num)
| SetValueAtTime (p : param) (v : num) (t : Q)
| LinearRampToValueAtTime (p : param) (v : num) (t : Q)
| ExponentialRampToValueAtTime (p : param) (v : num) (t : Q)
| SetTargetAtTime (p : param) (v : num) (t : Q) (timeConstant : Q)
| CancelScheduledValues (p : param) (t : Q)
| Connect (n : node) (to : target)
| Disconnect (n : node)
| Start (n : node) (t : Q)
| Stop (n : node) (t : Q)
| OnBeat (t : Q) (tag : string)
| SetOnended (n : node) (cleanup : nat)
| Resume.

(** The closure returned by [makeCleanup]: its captured [done] flag and
    the nodes it was given. *)
Record Closure : Type := mkClosure {
  done : bool;
  owned : list node
}.

Record Audio : Type := mkAudio {
  trace : list Call;          (* calls made so far, oldest first *)
  nextNode : nat;             (* number of voice nodes created *)
  closures : list Closure;    (* cleanup closures, by identity *)
  rng : nat -> Q;             (* the values Math.random() returns *)
  randPos : nat               (* how many have been drawn *)
}.

(** *** The state monad of the voice builder *)

Definition M (A : Type) : Type := Audio -> A * Audio.

Definition ret {A : Type} (a : A) : M A := fun s => (a, s).

Definition bind {A B : Type} (m : M A) (k : A -> M B) : M B :=
  fun s => let (a, s') := m s in k a s'.

Declare Scope audio_scope.
Delimit Scope audio_scope with audio.
Notation "x <- m ;; k" := (bind m (fun x => k))
  (at level 61, m at next level, right associativity) : audio_scope.
Notation "m ;; k" := (bind m (fun _ => k))
  (at level 61, right associativity) : audio_scope.
Local Open Scope audio_scope.

Definition when (b : bool) (m : M unit) : M unit :=
  if b then m else ret tt.

Definition exec {A : Type} (m : M A) (s : Audio) : Audio := snd (m s).

Definition emit (c : Call) : M unit :=
  fun s => (tt, mkAudio (trace s ++ [c]) (nextNode s) (closures s) (rng s) (randPos s)).

Definition create (k : nodeKind) : M node :=
  fun s =>
    let n := Voice (nextNode s) in
    (n, mkAudio (trace s ++ [Create k n]) (S (nextNode s)) (closures s) (rng s) (randPos s)).

Definition createOscillator : M node := create Oscillator.
Definition createGain : M node := create GainNode.
Definition createBiquadFilter : M node := create BiquadFilter.
Definition createBufferSource : M node := create BufferSource.
Definition createDelay : M node := create Delay.

(** [Math.random()] *)
Definition random : M Q :=
  fun s => (rng s (randPos s),
            mkAudio (trace s) (nextNode s) (closures s) (rng s) (S (randPos s))).

(** ** makeCleanup *)

(** [makeCleanup(...nodes)]: a fresh closure with [done = false]. *)
Definition makeCleanup (nodes : list node) : M nat :=
  fun s => (List.length (closures s),
            mkAudio (trace s) (nextNode s) (closures s ++ [mkClosure false nodes])
                    (rng s) (randPos s)).

Fixpoint set_nth {A : Type} (l : list A) (i : nat) (x : A) : list A :=
  match l, i with
  | [], _ => []
  | _ :: t, O => x :: t
  | h :: t, S j => h :: set_nth t j x
  end.

Definition set_done (c : nat) : M unit :=
  fun s =>
    match nth_error (closures s) c with
    | Some cl =>
        (tt, mkAudio (trace s) (nextNode s)
                     (set_nth (closures s) c (mkClosure true (owned cl)))
                     (rng s) (randPos s))
    | None => (tt, s)
    end.

(** [for (const node of nodes) { try { node.disconnect(); } catch (_) {} }] *)
Fixpoint disconnect_all (nodes : list node) : M unit :=
  match nodes with
  | [] => ret tt
  | n :: rest => emit (Disconnect n) ;; disconnect_all rest
  end.

(** Calling the closure [c]. *)
Definition call_cleanup (c : nat) : M unit :=
  fun s =>
    match nth_error (closures s) c with
    | Some cl =>
        if done cl then (tt, s)
        else (set_done c ;; disconnect_all (owned cl)) s
    | None => (tt, s)
    end.

(** The handler currently stored in [n.onended]. *)
Definition node_eqb (a b : node) : bool :=
  match a, b with
  | Destination, Destination | Compressor, Compressor | Master, Master
  | Reverb, Reverb | ReverbGain, ReverbGain | SidechainBus, SidechainBus => true
  | Voice i, Voice j => Nat.eqb i j
  | _, _ => false
  end.

Fixpoint onended (n : node) (tr : list Call) : option nat :=
  match tr with
  | [] => None
  | c :: rest =>
      match onended n rest with
      | Some h => Some h
      | None =>
          match c with
          | SetOnended m h => if node_eqb n m then Some h else None
          | _ => None
          end
      end
  end.

(** The backend fires the [ended] event of node [n]. *)
Definition fire_ended (n : node) : M unit :=
  fun s =>
    match onended n (trace s) with
    | Some c => call_cleanup c s
    | None => (tt, s)
    end.

(** ** Scales and getFreq *)

Definition mainTheme : list Q := [130.81; 146.83; 155.56; 174.61; 196.00; 207.65; 233.08].
Definition ambient : list Q := [233.08; 207.65; 174.61; 155.56].

(** [this.scales[scaleName]] *)
Definition scales (scaleName : string) : option (list Q) :=
  if String.eqb scaleName "mainTheme" then Some mainTheme
  else if String.eqb scaleName "ambient" then Some ambient
  else None.

(** [scale[((index % len) + len) % len] * Math.pow(2, Math.floor(index / len))];
    [%] is the truncated remainder. *)
Definition getFreq (scaleName : string) (index : Z) : num :=
  match scales scaleName with
  | None => Num 440
  | Some scale =>
      let len := Z.of_nat (List.length scale) in
      nmul (js_num scale (Z.rem (Z.rem index len + len) len))
           (Num (2 ^ (index / len)%Z))
  end.

(** ** Sections *)

Inductive Section_ : Type := INTRO | VERSE | CHORUS | BREAKDOWN | BUILD | OUTRO.

(** [end = None] is [Infinity]. *)
Record Range : Type := mkRange {
  range_start : Z;
  range_end : option Z
}.

Definition SECTIONS (s : Section_) : Range :=
  match s with
  | INTRO => mkRange 0 (Some 8%Z)
  | VERSE => mkRange 8 (Some 16%Z)
  | CHORUS => mkRange 16 (Some 32%Z)
  | BREAKDOWN => mkRange 32 (Some 40%Z)
  | BUILD => mkRange 40 (Some 48%Z)
  | OUTRO => mkRange 48 None
  end.

(** [bar >= SECTIONS.X.start] and [bar < SECTIONS.X.end] *)
Definition from_start (s : Section_) (bar : Z) : bool :=
  (range_start (SECTIONS s) <=? bar)%Z.

Definition before_end (s : Section_) (bar : Z) : bool :=
  match range_end (SECTIONS s) with
  | Some e => (bar <? e)%Z
  | None => true
  end.

Definition in_section (s : Section_) (bar : Z) : bool :=
  from_start s bar && before_end s bar.

(** ** The engine's fields *)

Record BGM : Type := mkBGM {
  bpm : Q;
  noteLength : Q;
  isPlaying : bool;
  nextNoteTime : Q;
  tick : Z;
  measure : Z;
  currentTrack : string
}.

(** ** Voice builders *)

(** [this.onBeat(time, tag)]: the observer's callback. *)
Definition onBeat (time : Q) (tag : string) : M unit := emit (OnBeat time tag).

Definition _playKick (time : Q) : M unit :=
  osc <- createOscillator ;;
  gain <- createGain ;;
  emit (SetValueAtTime (Frequency osc) 150 time) ;;
  emit (ExponentialRampToValueAtTime (Frequency osc) 0.01 (time + 0.5)) ;;
  emit (SetValueAtTime (Gain gain) 1.0 time) ;;
  emit (ExponentialRampToValueAtTime (Gain gain) 0.01 (time + 0.5)) ;;
  emit (Connect osc (ToNode gain)) ;;
  emit (Connect gain (ToNode Master)) ;;
  emit (Start osc time) ;;
  emit (Stop osc (time + 0.5)) ;;
  emit (CancelScheduledValues (Gain SidechainBus) time) ;;
  emit (SetValueAtTime (Gain SidechainBus) 0.3 time) ;;
  emit (ExponentialRampToValueAtTime (Gain SidechainBus) 1.0 (time + 0.15)) ;;
  onBeat time "kick" ;;
  cleanup <- makeCleanup [osc; gain] ;;
  emit (SetOnended osc cleanup).

Definition _playSnare (time : Q) : M unit :=
  src <- createBufferSource ;;
  filter <- createBiquadFilter ;;
  gain <- createGain ;;
  emit (SetBuffer src) ;;
  emit (SetType filter "bandpass") ;;
  emit (SetValue (Frequency filter) 1500) ;;
  emit (Connect src (ToNode filter)) ;;
  emit (Connect filter (ToNode gain)) ;;
  emit (Connect gain (ToNode SidechainBus)) ;;
  emit (SetValueAtTime (Gain gain) 0.7 time) ;;
  emit (ExponentialRampToValueAtTime (Gain gain) 0.01 (time + 0.2)) ;;
  emit (Start src time) ;;
  emit (Stop src (time + 0.2)) ;;
  onBeat time "snare" ;;
  cleanup <- makeCleanup [src; filter; gain] ;;
  emit (SetOnended src cleanup).

Definition _playHihat (time : Q) (open : bool) : M unit :=
  src <- createBufferSource ;;
  filter <- createBiquadFilter ;;
  gain <- createGain ;;
  emit (SetBuffer src) ;;
  emit (SetType filter "highpass") ;;
  emit (SetValue (Frequency filter) 8000) ;;
  let dur := if open then 0.3 else 0.05 in
  emit (Connect src (ToNode filter)) ;;
  emit (Connect filter (ToNode gain)) ;;
  emit (Connect gain (ToNode SidechainBus)) ;;
  emit (SetValueAtTime (Gain gain) (if open then 0.2 else 0.1) time) ;;
  emit (ExponentialRampToValueAtTime (Gain gain) 0.01 (time + dur)) ;;
  emit (Start src time) ;;
  emit (Stop src (time + dur)) ;;
  cleanup <- makeCleanup [src; filter; gain] ;;
  emit (SetOnended src cleanup).

Definition _playSuperSawBass (freq : num) (time dur : Q) (cutoff : Q) : M unit :=
  osc1 <- createOscillator ;;
  osc2 <- createOscillator ;;
  filter <- createBiquadFilter ;;
  gain <- createGain ;;
  emit (SetType osc1 "sawtooth") ;;
  emit (SetType osc2 "sawtooth") ;;
  emit (SetValue (Frequency osc1) freq) ;;
  emit (SetValue (Frequency osc2) (nmul freq 1.01)) ;;
  emit (SetType filter "lowpass") ;;
  emit (SetValue (QFactor filter) 3) ;;
  emit (SetValueAtTime (Frequency filter) cutoff time) ;;
  emit (ExponentialRampToValueAtTime (Frequency filter) 100 (time + 0.3)) ;;
  emit (SetValueAtTime (Gain gain) 0.3 time) ;;
  emit (LinearRampToValueAtTime (Gain gain) 0.3 (time + dur - 0.05)) ;;
  emit (LinearRampToValueAtTime (Gain gain) 0 (time + dur)) ;;
  emit (Connect osc1 (ToNode filter)) ;;
  emit (Connect osc2 (ToNode filter)) ;;
  emit (Connect filter (ToNode gain)) ;;
  emit (Connect gain (ToNode SidechainBus)) ;;
  emit (Start osc1 time) ;;
  emit (Start osc2 time) ;;
  emit (Stop osc1 (time + dur + 0.1)) ;;
  emit (Stop osc2 (time + dur + 0.1)) ;;
  onBeat time "bass" ;;
  cleanup <- makeCleanup [osc1; osc2; filter; gain] ;;
  emit (SetOnended osc1 cleanup) ;;
  emit (SetOnended osc2 cleanup).

Definition _playFMLead (freq : num) (time dur : Q) (vol : Q) : M unit :=
  carrier <- createOscillator ;;
  modulator <- createOscillator ;;
  modGain <- createGain ;;
  gain <- createGain ;;
  delay <- createDelay ;;
  dGain <- createGain ;;
  emit (SetValue (Frequency carrier) freq) ;;
  emit (SetValue (Frequency modulator) (nmul freq 2)) ;;
  emit (SetValue (Gain modGain) 500) ;;
  emit (SetValue (DelayTime delay) 0.25) ;;
  emit (SetValue (Gain dGain) 0.4) ;;
  emit (Connect modulator (ToNode modGain)) ;;
  emit (Connect modGain (ToParam (Frequency carrier))) ;;
  emit (Connect carrier (ToNode gain)) ;;
  emit (Connect gain (ToNode SidechainBus)) ;;
  emit (Connect gain (ToNode delay)) ;;
  emit (Connect delay (ToNode dGain)) ;;
  emit (Connect dGain (ToNode SidechainBus)) ;;
  emit (SetValueAtTime (Gain gain) 0 time) ;;
  emit (LinearRampToValueAtTime (Gain gain) vol (time + 0.05)) ;;
  emit (SetValueAtTime (Gain gain) vol (time + dur - 0.1)) ;;
  emit (LinearRampToValueAtTime (Gain gain) 0 (time + dur)) ;;
  emit (Start carrier time) ;;
  emit (Start modulator time) ;;
  emit (Stop carrier (time + dur + 0.5)) ;;
  emit (Stop modulator (time + dur + 0.5)) ;;
  onBeat time "lead" ;;
  cleanup <- makeCleanup [carrier; modulator; modGain; gain; delay; dGain] ;;
  emit (SetOnended carrier cleanup).

Definition _playSynth (freq : num) (time dur : Q) (type : string) : M unit :=
  osc <- createOscillator ;;
  gain <- createGain ;;
  emit (SetType osc type) ;;
  emit (SetValueAtTime (Frequency osc) freq time) ;;
  emit (SetValueAtTime (Gain gain) 0 time) ;;
  emit (LinearRampToValueAtTime (Gain gain) 0.1 (time + 0.1)) ;;
  emit (LinearRampToValueAtTime (Gain gain) 0 (time + dur)) ;;
  emit (Connect osc (ToNode gain)) ;;
  emit (Connect gain (ToNode Reverb)) ;;
  emit (Start osc time) ;;
  emit (Stop osc (time + dur + 0.1)) ;;
  cleanup <- makeCleanup [osc; gain] ;;
  emit (SetOnended osc cleanup).

(** ** Pattern generator *)

(** JavaScript's [%] on integers is the truncated remainder [Z.rem]. *)

Definition _playAmbientPattern (this : BGM) (time : Q) (tick bar : Z) : M unit :=
  let root := js_num ambient (Z.rem bar 4)%Z in
  when ((tick =? 0)%Z && (Z.rem bar 2 =? 0)%Z)
    (_playSynth (nmul root 2) time (noteLength this * 32) "triangle" ;;
     _playSynth (nmul root 1.5) time (noteLength this * 32) "sine") ;;
  when (Z.rem tick 4 =? 0)%Z
    (_playSynth (ndiv root 2) time (noteLength this * 3) "sine") ;;
  r <- random ;;
  if Qlt_le_dec 0.85 r then
    r' <- random ;;
    let freq := nmul (nmul root (js_num [1; 1.25; 1.5; 1.75] (Qfloor (r' * 4)))) 2 in
    _playSynth freq time 0.3 "sine"
  else ret tt.

Definition _playDrums (time : Q) (tick bar : Z) : M unit :=
  if (bar <? range_start (SECTIONS VERSE))%Z then ret tt
  else
    let isBreakdown := in_section BREAKDOWN bar in
    let isBuild := in_section BUILD bar in
    when (negb isBreakdown && (Z.rem tick 4 =? 0)%Z) (_playKick time) ;;
    (if isBuild then when (Z.rem tick 2 =? 0)%Z (_playSnare time)
     else if negb isBreakdown then when (Z.rem tick 8 =? 4)%Z (_playSnare time)
     else ret tt) ;;
    when (negb isBreakdown && (Z.rem tick 2 =? 0)%Z) (_playHihat time (Z.rem tick 8 =? 2)%Z).

Definition _playBass (this : BGM) (time : Q) (tick bar : Z) : M unit :=
  let rootIdx := js_get [0; 5; 3; 4]%Z (Z.rem bar 4)%Z in
  let cutoff := 300 in
  let cutoff := if in_section CHORUS bar then 800 else cutoff in
  let cutoff := if in_section BREAKDOWN bar then 100 else cutoff in
  let cutoff := if from_start OUTRO bar then 1500 else cutoff in
  when (negb (Z.rem tick 4 =? 0)%Z)
    (_playSuperSawBass
       (match rootIdx with Some i => getFreq "mainTheme" i | None => NaN end)
       time (noteLength this) cutoff).

Definition melody : list Z := [7; -1; 7; 8; 7; 4; 2; 0; -1; 2; 4; 2; 0; -1; -1; -1]%Z.

Definition _playLead (this : BGM) (time : Q) (tick bar : Z) : M unit :=
  if in_section CHORUS bar || from_start OUTRO bar then
    match js_get melody tick with
    | Some noteVal =>
        if (noteVal =? -1)%Z then ret tt
        else
          let freq := getFreq "mainTheme"
                        (noteVal + (if from_start OUTRO bar then 7 else 0))%Z in
          _playFMLead freq time (noteLength this * 2) 0.15
    | None => _playFMLead NaN time (noteLength this * 2) 0.15
    end
  else if in_section BREAKDOWN bar && (Z.rem tick 4 =? 0)%Z then
    r <- random ;;
    let freq :=
      match js_get [0; 2; 4; 7]%Z (Qfloor (r * 4)) with
      | Some d => getFreq "mainTheme" (d + 7)%Z
      | None => NaN
      end in
    r' <- random ;;
    _playFMLead freq (time + r' * 0.05) 0.5 0.1
  else ret tt.

Definition _playMainThemePattern (this : BGM) (time : Q) (tick bar : Z) : M unit :=
  _playDrums time tick bar ;;
  _playBass this time tick bar ;;
  _playLead this time tick bar.

(** ** AudioParam automation timelines

    The events scheduled on an AudioParam, ordered by time, as the Web
    Audio API keeps them: a new event goes after the events that are not
    later than it, and [cancelScheduledValues(t)] removes every event
    whose time is [t] or later.  ([param.value = v] is not an automation
    event.) *)

Inductive AutoEvent : Type :=
| EvSet (v : num) (t : Q)
| EvLinearRamp (v : num) (t : Q)
| EvExponentialRamp (v : num) (t : Q)
| EvTarget (v : num) (t : Q) (timeConstant : Q).

Definition ev_time (e : AutoEvent) : Q :=
  match e with
  | EvSet _ t | EvLinearRamp _ t | EvExponentialRamp _ t | EvTarget _ t _ => t
  end.

Definition is_ramp (e : AutoEvent) : bool :=
  match e with
  | EvLinearRamp _ _ | EvExponentialRamp _ _ => true
  | _ => false
  end.

Definition Qltb (x y : Q) : bool := negb (Qle_bool y x).

Definition cancel_from (t : Q) (tl : list AutoEvent) : list AutoEvent :=
  filter (fun e => Qltb (ev_time e) t) tl.

Fixpoint insert_event (e : AutoEvent) (tl : list AutoEvent) : list AutoEvent :=
  match tl with
  | [] => [e]
  | h :: rest =>
      if Qle_bool (ev_time h) (ev_time e) then h :: insert_event e rest
      else e :: h :: rest
  end.

Definition param_eqb (p q : param) : bool :=
  match p, q with
  | Gain a, Gain b | Frequency a, Frequency b
  | QFactor a, QFactor b | DelayTime a, DelayTime b => node_eqb a b
  | _, _ => false
  end.

(** The effect of one call on the timeline of [p]. *)
Definition automate (p : param) (tl : list AutoEvent) (c : Call) : list AutoEvent :=
  match c with
  | SetValueAtTime q v t => if param_eqb p q then insert_event (EvSet v t) tl else tl
  | LinearRampToValueAtTime q v t =>
      if param_eqb p q then insert_event (EvLinearRamp v t) tl else tl
  | ExponentialRampToValueAtTime q v t =>
      if param_eqb p q then insert_event (EvExponentialRamp v t) tl else tl
  | SetTargetAtTime q v t tc =>
      if param_eqb p q then insert_event (EvTarget v t tc) tl else tl
  | CancelScheduledValues q t => if param_eqb p q then cancel_from t tl else tl
  | _ => tl
  end.

(** The timeline of [p] after the calls of [tr], starting from [tl]. *)
Definition timeline_from (p : param) (tl : list AutoEvent) (tr : list Call) : list AutoEvent :=
  fold_left (automate p) tr tl.

Definition timeline (p : param) (tr : list Call) : list AutoEvent :=
  timeline_from p [] tr.

(** ** The host environment *)

Inductive WorkerMsg : Type := MsgStart | MsgStop.

(** The timer worker: its variable [id], its running [setInterval]
    timers and the next timer identifier. *)
Record Worker : Type := mkWorker {
  worker_id : option nat;
  intervals : list nat;
  nextInterval : nat
}.

Record Env : Type := mkEnv {
  currentTime : Q;            (* ctx.currentTime *)
  toWorker : list WorkerMsg;  (* posted to the worker, not yet handled by it *)
  worker : Worker;
  pulses : nat;               (* 'tick' messages posted by the worker, not yet handled *)
  timeouts : list string      (* track names of the pending switchTrack callbacks *)
}.

Record World : Type := mkWorld {
  this : BGM;
  audio : Audio;
  env : Env
}.

(** [this._worker.postMessage(m)] *)
Definition postMessage (m : WorkerMsg) (e : Env) : Env :=
  mkEnv (currentTime e) (toWorker e ++ [m]) (worker e) (pulses e) (timeouts e).

(** [setTimeout(() => ..., FADE * 1000)] in [switchTrack] *)
Definition setTimeout (trackName : string) (e : Env) : Env :=
  mkEnv (currentTime e) (toWorker e) (worker e) (pulses e) (timeouts e ++ [trackName]).

(** The worker's [onmessage]:
    ['start'] does [id = setInterval(() => postMessage('tick'), 25)],
    ['stop'] does [clearInterval(id); id = null]. *)
Definition worker_onmessage (m : WorkerMsg) (k : Worker) : Worker :=
  match m with
  | MsgStart =>
      mkWorker (Some (nextInterval k)) (intervals k ++ [nextInterval k])
               (S (nextInterval k))
  | MsgStop =>
      mkWorker None
               (match worker_id k with
                | Some i => filter (fun j => negb (Nat.eqb j i)) (intervals k)
                | None => intervals k
                end)
               (nextInterval k)
  end.

(** ** Transport *)

(** The engine after its constructor, on a render clock that shows [t0],
    with [rnd] the values [Math.random()] will return.  The calls that
    wire the mix buses are not part of the trace, which starts empty. *)
Definition constructor (rnd : nat -> Q) (t0 : Q) : World :=
  mkWorld (mkBGM 128 (60 / 128 / 4) false 0 0 0 "ambient")
          (mkAudio [] 0 [] rnd 0)
          (mkEnv t0 [] (mkWorker None [] 0) 0 []).

Definition targetVol (trackName : string) : Q :=
  if String.eqb trackName "mainTheme" then 0.2 else 0.15.

Definition start (w : World) : World :=
  let b := this w in
  if isPlaying b then w
  else
    let now := currentTime (env w) in
    mkWorld
      (mkBGM (bpm b) (noteLength b) true (now + 0.1) (tick b) (measure b) (currentTrack b))
      (exec (emit Resume ;;
             emit (CancelScheduledValues (Gain Master) now) ;;
             emit (SetValueAtTime (Gain Master) 0 now) ;;
             emit (SetTargetAtTime (Gain Master) (targetVol (currentTrack b)) now 0.3))
            (audio w))
      (postMessage MsgStart (env w)).

Definition stop (w : World) : World :=
  let b := this w in
  if negb (isPlaying b) then w
  else
    let now := currentTime (env w) in
    mkWorld
      (mkBGM (bpm b) (noteLength b) false (nextNoteTime b) (tick b) (measure b)
             (currentTrack b))
      (exec (emit (CancelScheduledValues (Gain Master) now) ;;
             emit (SetTargetAtTime (Gain Master) 0 now 0.1))
            (audio w))
      (postMessage MsgStop (env w)).

Definition FADE : Q := 0.15.

Definition switchTrack (trackName : string) (w : World) : World :=
  if String.eqb (currentTrack (this w)) trackName then w
  else
    let now := currentTime (env w) in
    mkWorld (this w)
      (exec (emit (CancelScheduledValues (Gain Master) now) ;;
             emit (SetTargetAtTime (Gain Master) 0 now (FADE / 3)))
            (audio w))
      (setTimeout trackName (env w)).

(** The callback [switchTrack] passes to [setTimeout]. *)
Definition switchTrack_callback (trackName : string) (w : World) : World :=
  let b := this w in
  let now := currentTime (env w) in
  let bpm' := if String.eqb trackName "mainTheme" then 135 else 90 in
  mkWorld
    (mkBGM bpm' (60 / bpm' / 4) (isPlaying b) (now + 0.05) 0 0 trackName)
    (exec (emit (CancelScheduledValues (Gain Master) now) ;;
           emit (SetTargetAtTime (Gain Master) (targetVol trackName) now 0.3))
          (audio w))
    (env w).

(** ** The lookahead scheduler *)

Definition lookahead : Q := 0.1.

(** One turn of the [while] loop of [_schedule]. *)
Definition schedule_body (ba : BGM * Audio) : BGM * Audio :=
  let (b, a) := ba in
  let bar := measure b in
  let a' :=
    if String.eqb (currentTrack b) "mainTheme"
    then exec (_playMainThemePattern b (nextNoteTime b) (tick b) bar) a
    else exec (_playAmbientPattern b (nextNoteTime b) (tick b) bar) a in
  let next := nextNoteTime b + noteLength b in
  let tick' := (tick b + 1)%Z in
  if (tick' >=? 16)%Z
  then (mkBGM (bpm b) (noteLength b) (isPlaying b) next 0 (measure b + 1) (currentTrack b), a')
  else (mkBGM (bpm b) (noteLength b) (isPlaying b) next tick' (measure b) (currentTrack b), a').

(** [while (this.nextNoteTime < this.ctx.currentTime + lookahead) { ... }];
    [None] when the loop has not ended after [fuel] turns. *)
Fixpoint schedule_loop (fuel : nat) (now : Q) (ba : BGM * Audio) : option (BGM * Audio) :=
  if Qltb (nextNoteTime (fst ba)) (now + lookahead) then
    match fuel with
    | O => None
    | S f => schedule_loop f now (schedule_body ba)
    end
  else Some ba.

(** Turns after which the loop of [_schedule] has ended when [noteLength]
    is positive. *)
Definition schedule_fuel (now : Q) (b : BGM) : nat :=
  Z.to_nat (Qceiling ((now + lookahead - nextNoteTime b) / noteLength b)).

Definition _schedule (w : World) : option World :=
  match schedule_loop (schedule_fuel (currentTime (env w)) (this w))
                      (currentTime (env w)) (this w, audio w) with
  | Some (b, a) => Some (mkWorld b a (env w))
  | None => None
  end.

(** ** Runs of the engine in its environment *)

Inductive Event : Type :=
| CallStart                          (* the application calls start() *)
| CallStop                           (* the application calls stop() *)
| CallSwitchTrack (trackName : string)
| TimeoutFires                       (* the oldest pending switchTrack callback runs *)
| WorkerReceives                     (* the worker handles its next message *)
| IntervalFires                      (* a running interval of the worker posts 'tick' *)
| PulseDelivered                     (* this._worker.onmessage: _schedule() *)
| ClockAdvances (d : Q)              (* ctx.currentTime grows by d *)
| Ended (n : node).                  (* the backend fires n's ended event *)

(** [None]: the event cannot happen in [w]. *)
Definition step (w : World) (e : Event) : option World :=
  let ev := env w in
  match e with
  | CallStart => Some (start w)
  | CallStop => Some (stop w)
  | CallSwitchTrack n => Some (switchTrack n w)
  | TimeoutFires =>
      match timeouts ev with
      | n :: rest =>
          Some (switchTrack_callback n
                  (mkWorld (this w) (audio w)
                     (mkEnv (currentTime ev) (toWorker ev) (worker ev) (pulses ev) rest)))
      | [] => None
      end
  | WorkerReceives =>
      match toWorker ev with
      | m :: rest =>
          Some (mkWorld (this w) (audio w)
                  (mkEnv (currentTime ev) rest (worker_onmessage m (worker ev))
                         (pulses ev) (timeouts ev)))
      | [] => None
      end
  | IntervalFires =>
      match intervals (worker ev) with
      | _ :: _ =>
          Some (mkWorld (this w) (audio w)
                  (mkEnv (currentTime ev) (toWorker ev) (worker ev) (S (pulses ev))
                         (timeouts ev)))
      | [] => None
      end
  | PulseDelivered =>
      match pulses ev with
      | S k =>
          _schedule (mkWorld (this w) (audio w)
                       (mkEnv (currentTime ev) (toWorker ev) (worker ev) k (timeouts ev)))
      | O => None
      end
  | ClockAdvances d =>
      if Qle_bool 0 d then
        Some (mkWorld (this w) (audio w)
                (mkEnv (currentTime ev + d) (toWorker ev) (worker ev) (pulses ev)
                       (timeouts ev)))
      else None
  | Ended n => Some (mkWorld (this w) (exec (fire_ended n) (audio w)) (env w))
  end.

Fixpoint run (w : World) (es : list Event) : option World :=
  match es with
  | [] => Some w
  | e :: rest =>
      match step w e with
      | Some w' => run w' rest
      | None => None
      end
  end.

(** The worlds the engine can be in. *)
Definition reachable (w : World) : Prop :=
  exists rnd t0 es, run (constructor rnd t0) es = Some w.

(** ** Observations *)

(** Two JavaScript numbers are equal numbers ([NaN] equals nothing). *)
Definition num_eq (a b : num) : Prop :=
  match a, b with
  | Num x, Num y => x == y
  | _, _ => False
  end.

(** The times of the beats with tag [tag] delivered to the observer. *)
Definition beats (tag : string) (tr : list Call) : list Q :=
  flat_map (fun c => match c with
                     | OnBeat t g => if String.eqb g tag then [t] else []
                     | _ => []
                     end) tr.

(** The start times of the sources, in the order the engine scheduled them. *)
Definition start_times (tr : list Call) : list Q :=
  flat_map (fun c => match c with Start _ t => [t] | _ => [] end) tr.

(** The nodes disconnected, in order. *)
Definition disconnects (tr : list Call) : list node :=
  flat_map (fun c => match c with Disconnect n => [n] | _ => [] end) tr.

(** The calls made on AudioParam [p]. *)
Definition calls_on (p : param) (tr : list Call) : list Call :=
  filter (fun c => match c with
                   | SetValue q _ | SetValueAtTime q _ _ | LinearRampToValueAtTime q _ _
                   | ExponentialRampToValueAtTime q _ _ | SetTargetAtTime q _ _ _
                   | CancelScheduledValues q _ => param_eqb p q
                   | _ => false
                   end) tr.

(** The worker once it has handled the messages still on their way to it. *)
Definition settled (e : Env) : Worker :=
  fold_left (fun k m => worker_onmessage m k) (toWorker e) (worker e).

(** Nothing is on its way: no message to the worker, no running interval,
    no pulse to the engine. *)
Definition quiescent (e : Env) : Prop :=
  toWorker e = [] /\ intervals (worker e) = [] /\ pulses e = O.

(** [k] calls of the cleanup closure [c], one after the other. *)
Fixpoint call_times (k : nat) (c : nat) : M unit :=
  match k with
  | O => ret tt
  | S k' => call_cleanup c ;; call_times k' c
  end.

(** The automation events of a timeline that are ramps ending at [t] or later. *)
Definition ramps_from (t : Q) (tl : list AutoEvent) : list AutoEvent :=
  filter (fun e => is_ramp e && Qle_bool t (ev_time e)) tl.

(** The world after the events [es], when they can all happen. *)
Definition after (w : World) (es : list Event) : World :=
  match run w es with
  | Some w' => w'
  | None => w
  end.

(** The song position and tempo of two engine states are the same. *)
Definition same_position (b b' : BGM) : Prop :=
  tick b' = tick b /\ measure b' = measure b /\ currentTrack b' = currentTrack b /\
  bpm b' = bpm b /\ noteLength b' = noteLength b.

(** What holds of the engine in every world it can be in: the note length
    is positive, the position is a sixteenth of a bar that exists, and the
    worker, once it has handled its messages, runs one interval while the
    engine is playing and none while it is stopped. *)
Definition Inv (w : World) : Prop :=
  0 < noteLength (this w) /\
  (0 <= tick (this w) < 16)%Z /\
  (0 <= measure (this w))%Z /\
  (if isPlaying (this w)
   then exists i, worker_id (settled (env w)) = Some i /\
                  intervals (settled (env w)) = [i]
   else worker_id (settled (env w)) = None /\
        intervals (settled (env w)) = []).

(** ** The first version of the engine (synthaura.js)

    Its [getFreq] indexes the scale with the truncated remainder itself:
    [scale[index % len] * Math.pow(2, Math.floor(index / len))].  Its
    [schedule] advances the position and its [playKick] ducks the
    sidechain bus as the later version does; the kick has no cleanup. *)
Module Legacy.

Definition mainTheme : list Q := [130.81; 146.83; 155.56; 174.61; 196.00; 207.65; 246.94].
Definition ambient : list Q := [146.83; 116.54; 174.61; 130.81].

Definition scales (scaleName : string) : option (list Q) :=
  if String.eqb scaleName "mainTheme" then Some mainTheme
  else if String.eqb scaleName "ambient" then Some ambient
  else None.

Definition getFreq (scaleName : string) (index : Z) : num :=
  match scales scaleName with
  | None => Num 440
  | Some scale =>
      let len := Z.of_nat (List.length scale) in
      nmul (js_num scale (Z.rem index len)%Z) (Num (2 ^ (index / len)%Z))
  end.

(** The end of a turn of the loop of [schedule]:
    [this.nextNoteTime += this.noteLength; this.tick++;
     if (this.tick >= 16) { this.tick = 0; this.measure++; }] *)
Definition advance (b : BGM) : BGM :=
  let next := nextNoteTime b + noteLength b in
  let tick' := (tick b + 1)%Z in
  if (tick' >=? 16)%Z
  then mkBGM (bpm b) (noteLength b) (isPlaying b) next 0 (measure b + 1) (currentTrack b)
  else mkBGM (bpm b) (noteLength b) (isPlaying b) next tick' (measure b) (currentTrack b).

Definition playKick (time : Q) : M unit :=
  osc <- createOscillator ;;
  gain <- createGain ;;
  emit (SetValueAtTime (Frequency osc) 150 time) ;;
  emit (ExponentialRampToValueAtTime (Frequency osc) 0.01 (time + 0.5)) ;;
  emit (SetValueAtTime (Gain gain) 1.0 time) ;;
  emit (ExponentialRampToValueAtTime (Gain gain) 0.01 (time + 0.5)) ;;
  emit (Connect osc (ToNode gain)) ;;
  emit (Connect gain (ToNode Master)) ;;
  emit (Start osc time) ;;
  emit (Stop osc (time + 0.5)) ;;
  emit (CancelScheduledValues (Gain SidechainBus) time) ;;
  emit (SetValueAtTime (Gain SidechainBus) 0.3 time) ;;
  emit (ExponentialRampToValueAtTime (Gain SidechainBus) 1.0 (time + 0.15)) ;;
  onBeat time "kick".

End Legacy.

(** ** getFreq in double precision

    The arithmetic of [getFreq] as JavaScript does it, on IEEE-754
    binary64 numbers (53 bits of precision, exponents up to 1024), every
    operation rounded to nearest, ties to even.

    - A decimal literal such as [130.81] is the double nearest to it: the
      correctly rounded quotient of its numerator and denominator, which
      are exact doubles.
    - The index is an integer; [Math.floor(index / len)] is its floor
      quotient (exact for the integers that are doubles, up to 2^53).
    - [Math.pow(2, k)] for an integer [k] is the power of two itself where
      it is a double (down to 2^-1074), [Infinity] above 2^1023 and [0]
      below 2^-1074. *)
Module Double.

Definition prec : Z := 53.
Definition emax : Z := 1024.

(** The double nearest to an integer, and to a decimal literal. *)
Definition of_Z (z : Z) : spec_float := binary_normalize prec emax z 0 false.

Definition of_Q (q : Q) : spec_float :=
  SFdiv prec emax (of_Z (Qnum q)) (of_Z (Zpos (Qden q))).

Definition mul : spec_float -> spec_float -> spec_float := SFmul prec emax.

(** [===] on numbers. *)
Definition eqb : spec_float -> spec_float -> bool := SFeqb.

(** [Math.pow(2, k)] *)
Definition pow2 (k : Z) : spec_float :=
  if (1023 <? k)%Z then S754_infinity false
  else if (k <? -1074)%Z then S754_zero false
  else SFldexp prec emax (of_Z 1) k.

Definition js_num (arr : list Q) (i : Z) : spec_float :=
  match js_get arr i with
  | Some q => of_Q q
  | None => S754_nan
  end.

Definition getFreq (scaleName : string) (index : Z) : spec_float :=
  match scales scaleName with
  | None => of_Z 440
  | Some scale =>
      let len := Z.of_nat (List.length scale) in
      mul (js_num scale (Z.rem (Z.rem index len + len) len)) (pow2 (index / len))
  end.

(** [getFreq] of the first version (synthaura.js). *)
Definition getFreq_legacy (scaleName : string) (index : Z) : spec_float :=
  match Legacy.scales scaleName with
  | None => of_Z 440
  | Some scale =>
      let len := Z.of_nat (List.length scale) in
      mul (js_num scale (Z.rem index len)) (pow2 (index / len))
  end.

End Double.

(** A scale entry is a normal double below 256 and not below
    [2 ^ (lo + 52)]. *)
Definition normal_entry (lo : Z) (q : Q) : Prop :=
  exists m e, Double.of_Q q = S754_finite false m e /\
              Zpos (digits2_pos m) = 53%Z /\ (lo <= e <= -45)%Z.

(** ** Further observations *)

(** Every beat delivered to the observer, with its tag. *)
Definition all_beats (tr : list Call) : list (Q * string) :=
  flat_map (fun c => match c with OnBeat t g => [(t, g)] | _ => [] end) tr.

(** The target values of the exponential ramps. *)
Definition exp_targets (tr : list Call) : list num :=
  flat_map (fun c => match c with
                     | ExponentialRampToValueAtTime _ v _ => [v]
                     | _ => []
                     end) tr.

Definition positive_num (v : num) : bool :=
  match v with
  | Num q => Qltb 0 q
  | NaN => false
  end.

(** The sources started and the sources stopped, in order. *)
Definition started (tr : list Call) : list node :=
  flat_map (fun c => match c with Start n _ => [n] | _ => [] end) tr.

Definition stopped (tr : list Call) : list node :=
  flat_map (fun c => match c with Stop n _ => [n] | _ => [] end) tr.

(** The voice nodes created so far. *)
Definition created (a : Audio) : list node := map Voice (seq 0 (nextNode a)).

(** Every voice node belongs to one cleanup closure. *)
Definition owns_all (a : Audio) : Prop := flat_map owned (closures a) = created a.

(** The nodes of the closures that have run. *)
Definition released (a : Audio) : list node :=
  flat_map owned (filter done (closures a)).

(** *** The timer worker *)

Definition worker_armed (k : Worker) : bool :=
  match worker_id k with
  | Some _ => true
  | None => false
  end.

(** The worker runs the interval its [id] names, and no other. *)
Definition worker_ok (k : Worker) : Prop :=
  match worker_id k with
  | Some i => intervals k = [i]
  | None => intervals k = []
  end.

(** The messages on their way to the worker start and stop it in turn. *)
Fixpoint alternating (armed : bool) (q : list WorkerMsg) : Prop :=
  match q with
  | [] => True
  | MsgStart :: rest => armed = false /\ alternating true rest
  | MsgStop :: rest => armed = true /\ alternating false rest
  end.

Definition armed_after (armed : bool) (q : list WorkerMsg) : bool :=
  fold_left (fun _ m => match m with MsgStart => true | MsgStop => false end) q armed.

Definition Worker_inv (w : World) : Prop :=
  worker_ok (worker (env w)) /\
  alternating (worker_armed (worker (env w))) (toWorker (env w)) /\
  armed_after (worker_armed (worker (env w))) (toWorker (env w)) = isPlaying (this w).

(** *** Tempo *)

Definition Tempo_inv (b : BGM) : Prop :=
  noteLength b = 60 / bpm b / 4 /\
  (bpm b = 128 /\ currentTrack b = "ambient" \/
   bpm b = 135 /\ currentTrack b = "mainTheme" \/
   bpm b = 90 /\ currentTrack b <> "mainTheme").

(** *** Properties of the audio state kept along a run

    A property that every voice builder, [Math.random()], every cleanup
    call and every call the transport makes on the master gain keeps. *)
Definition kept (P : Audio -> Prop) : Prop :=
  (forall t a, P a -> P (exec (_playKick t) a)) /\
  (forall t a, P a -> P (exec (_playSnare t) a)) /\
  (forall t o a, P a -> P (exec (_playHihat t o) a)) /\
  (forall f t d c a, 0 < d -> P a -> P (exec (_playSuperSawBass f t d c) a)) /\
  (forall f t d v a, 0 < d -> P a -> P (exec (_playFMLead f t d v) a)) /\
  (forall f t d ty a, 0 < d -> P a -> P (exec (_playSynth f t d ty) a)) /\
  (forall a, P a -> P (snd (random a))) /\
  (forall c a, P a -> P (exec (call_cleanup c) a)) /\
  (forall a, P a -> P (exec (emit Resume) a)) /\
  (forall t a, P a -> P (exec (emit (CancelScheduledValues (Gain Master) t)) a)) /\
  (forall v t a, P a -> P (exec (emit (SetValueAtTime (Gain Master) v t)) a)) /\
  (forall v t tc a, P a -> P (exec (emit (SetTargetAtTime (Gain Master) v t tc)) a)).

(** [a'] is [a] after one voice was built: some calls that disconnect
    nothing, [k] new nodes, and one new closure, not done, that owns
    exactly these nodes. *)
Definition builds (a a' : Audio) : Prop :=
  exists d k,
    a' = mkAudio (trace a ++ d) (k + nextNode a)
                 (closures a ++ [mkClosure false (map Voice (seq (nextNode a) k))])
                 (rng a) (randPos a) /\
    disconnects d = [].

(** *** destroy()

    [destroy()] calls [stop()] and defers, by 500 ms, a callback that
    terminates the worker and disconnects the five mix buses.  A host is
    the world of the engine with the destroy callbacks that are pending
    and the number of those that have run. *)
Record Host : Type := mkHost {
  world : World;
  pendingDestroys : nat;
  destroyed : nat
}.

Inductive HostEvent : Type :=
| Engine (e : Event)       (* an event of the engine and its environment *)
| CallDestroy              (* the application calls destroy() *)
| DestroyFires.            (* the oldest pending destroy callback runs *)

(** [this._worker.terminate()]: the worker stops at once; its intervals
    are gone, and the messages it has not handled and the pulses it has
    posted that were not delivered are dropped. *)
Definition terminate (e : Env) : Env :=
  mkEnv (currentTime e) [] (mkWorker None [] (nextInterval (worker e))) 0 (timeouts e).

(** The callback [destroy] passes to [setTimeout]. *)
Definition destroy_callback (w : World) : World :=
  mkWorld (this w)
    (exec (emit (Disconnect Compressor) ;;
           emit (Disconnect Master) ;;
           emit (Disconnect Reverb) ;;
           emit (Disconnect ReverbGain) ;;
           emit (Disconnect SidechainBus))
          (audio w))
    (terminate (env w)).

(** A terminated worker handles no message. *)
Definition host_step (h : Host) (e : HostEvent) : option Host :=
  match e with
  | Engine e =>
      match e, destroyed h with
      | WorkerReceives, S _ => None
      | _, _ =>
          match step (world h) e with
          | Some w => Some (mkHost w (pendingDestroys h) (destroyed h))
          | None => None
          end
      end
  | CallDestroy => Some (mkHost (stop (world h)) (S (pendingDestroys h)) (destroyed h))
  | DestroyFires =>
      match pendingDestroys h with
      | S k => Some (mkHost (destroy_callback (world h)) k (S (destroyed h)))
      | O => None
      end
  end.

Fixpoint host_run (h : Host) (es : list HostEvent) : option Host :=
  match es with
  | [] => Some h
  | e :: rest =>
      match host_step h e with
      | Some h' => host_run h' rest
      | None => None
      end
  end.

Definition host_reachable (h : Host) : Prop :=
  exists rnd t0 es, host_run (mkHost (constructor rnd t0) 0 0) es = Some h.

Definition is_voice (n : node) : bool :=
  match n with
  | Voice _ => true
  | _ => false
  end.

(** The voice nodes and the mix buses disconnected, in order. *)
Definition voice_disconnects (tr : list Call) : list node :=
  filter is_voice (disconnects tr).

Definition bus_disconnects (tr : list Call) : list node :=
  filter (fun n => negb (is_voice n)) (disconnects tr).

Definition mixBuses : list node := [Compressor; Master; Reverb; ReverbGain; SidechainBus].

(** Every node is owned by one closure; the voice nodes disconnected so
    far are nodes of closures that have run, each disconnected once; the
    mix buses were disconnected [k] times over. *)
Definition Owned_inv (k : nat) (a : Audio) : Prop :=
  owns_all a /\
  NoDup (voice_disconnects (trace a)) /\
  incl (voice_disconnects (trace a)) (released a) /\
  bus_disconnects (trace a) = List.concat (repeat mixBuses k).

(** The beat delivered when [c] holds. *)
Definition beat_if (c : bool) (time : Q) (tag : string) : list (Q * string) :=
  if c then [(time, tag)] else [].


(** The random source of [a'] stands where that of [a] stands. *)
Definition same_random (a a' : Audio) : Prop :=
  rng a' = rng a /\ randPos a' = randPos a.

(** Whether the melody has a note at a tick. *)
Definition melody_sounds (t : Z) : bool :=
  match js_get melody t with
  | Some d => negb (d =? -1)%Z
  | None => true
  end.

(** *** Scheduling in time order *)

(** [lo <= t1 <= t2 <= ... <= tn]: the times of [l] are in order and none
    is before [lo]. *)
Fixpoint ascending (lo : Q) (l : list Q) : Prop :=
  match l with
  | [] => True
  | t :: rest => lo <= t /\ ascending t rest
  end.

(** Between [a] and [a'] sources were started in time order, none before
    [lo] and none after [hi]. *)
Definition starts_within (lo hi : Q) (a a' : Audio) : Prop :=
  exists new,
    start_times (trace a') = start_times (trace a) ++ new /\
    ascending lo (new ++ [hi]).

(** The events that assign [nextNoteTime] from the render clock: start()
    from Stopped and the deferred callback of switchTrack(). *)
Definition reseeds (w : World) (e : Event) : bool :=
  match e with
  | CallStart => negb (isPlaying (this w))
  | TimeoutFires => true
  | _ => false
  end.

(** No event of the run [es] from [w] reseeds. *)
Fixpoint reseed_free (w : World) (es : list Event) : bool :=
  match es with
  | [] => true
  | e :: rest =>
      negb (reseeds w e) &&
      match step w e with
      | Some w1 => reseed_free w1 rest
      | None => true
      end
  end.

(** [Math.random()] returns numbers in [0, 1). *)
Definition random_in_range (a : Audio) : Prop :=
  forall n, 0 <= rng a n /\ rng a n < 1.

(** What holds of a host in every state it can be in. *)
Definition Host_inv (h : Host) : Prop :=
  Tempo_inv (this (world h)) /\ Owned_inv (destroyed h) (audio (world h)).


(** * Properties *)

Arguments beats : simpl never.
Arguments start_times : simpl never.
Arguments disconnects : simpl never.

(** ** Sections *)

Lemma outro_unbounded (b : Z) : in_section OUTRO b = from_start OUTRO b.
Proof. unfold in_section, before_end. simpl. apply andb_true_r. Qed.

(** The section of a bar, read off the table. *)
Lemma section_cases (b : Z) :
  (0 <= b)%Z ->
  { s : Section_ | in_section s b = true }.
Proof.
  intros Hb.
  destruct (Z_lt_dec b 8); [exists INTRO|].
  2: destruct (Z_lt_dec b 16); [exists VERSE|].
  3: destruct (Z_lt_dec b 32); [exists CHORUS|].
  4: destruct (Z_lt_dec b 40); [exists BREAKDOWN|].
  5: destruct (Z_lt_dec b 48); [exists BUILD|exists OUTRO].
  all: unfold in_section, from_start, before_end; simpl;
    apply andb_true_intro; split; try reflexivity;
    try (apply Z.leb_le; lia); try (apply Z.ltb_lt; lia).
Qed.

Lemma in_section_bounds (s : Section_) (b : Z) :
  in_section s b = true ->
  (range_start (SECTIONS s) <= b)%Z /\
  match range_end (SECTIONS s) with Some e => (b < e)%Z | None => True end.
Proof.
  unfold in_section, from_start, before_end. intros H.
  apply andb_prop in H. destruct H as [H1 H2].
  apply Z.leb_le in H1. split; [exact H1|].
  destruct (range_end (SECTIONS s)); [apply Z.ltb_lt; exact H2|exact I].
Qed.

(** C3: every bar index b >= 0 lies in exactly one of the six sections'
    half-open ranges: the ranges cover the non-negative integers without
    gap or overlap.  Membership is the function [in_section] of the bar. *)
Theorem C3_sections_partition (b : Z) :
  (0 <= b)%Z ->
  exists s, in_section s b = true /\
            forall s', in_section s' b = true -> s' = s.
Proof.
  intros Hb. destruct (section_cases b Hb) as [s Hs].
  exists s. split; [exact Hs|].
  intros s' Hs'.
  apply in_section_bounds in Hs. apply in_section_bounds in Hs'.
  destruct s, s'; simpl in Hs, Hs'; try reflexivity; lia.
Qed.

Lemma C3_sections_partition_witness :
  exists s, in_section s 20 = true /\ forall s', in_section s' 20 = true -> s' = s.
Proof. apply (C3_sections_partition 20). lia. Defined.

(** No section holds a negative bar. *)
Lemma no_section_below_zero (s : Section_) (b : Z) :
  (b < 0)%Z -> in_section s b = false.
Proof.
  intros Hb. destruct (in_section s b) eqn:E; [|reflexivity].
  apply in_section_bounds in E. destruct s; simpl in E; lia.
Qed.

(** ** The advance step *)

Lemma body_tick (ba : BGM * Audio) :
  tick (fst (schedule_body ba)) =
  (if (tick (fst ba) + 1 >=? 16)%Z then 0 else tick (fst ba) + 1)%Z.
Proof.
  destruct ba as [b a]. unfold schedule_body. cbn [fst].
  destruct (tick b + 1 >=? 16)%Z; reflexivity.
Qed.

Lemma body_measure (ba : BGM * Audio) :
  measure (fst (schedule_body ba)) =
  (if (tick (fst ba) + 1 >=? 16)%Z then measure (fst ba) + 1 else measure (fst ba))%Z.
Proof.
  destruct ba as [b a]. unfold schedule_body. cbn [fst].
  destruct (tick b + 1 >=? 16)%Z; reflexivity.
Qed.

Lemma body_nextNoteTime (ba : BGM * Audio) :
  nextNoteTime (fst (schedule_body ba)) = nextNoteTime (fst ba) + noteLength (fst ba).
Proof.
  destruct ba as [b a]. unfold schedule_body. cbn [fst].
  destruct (tick b + 1 >=? 16)%Z; reflexivity.
Qed.

Lemma body_frame (ba : BGM * Audio) :
  let b' := fst (schedule_body ba) in
  bpm b' = bpm (fst ba) /\ noteLength b' = noteLength (fst ba) /\
  isPlaying b' = isPlaying (fst ba) /\ currentTrack b' = currentTrack (fst ba).
Proof.
  destruct ba as [b a]. unfold schedule_body. cbn [fst].
  destruct (tick b + 1 >=? 16)%Z; simpl; auto.
Qed.

(** The first version's loop moves the position in the same way. *)
Lemma legacy_advance_same (ba : BGM * Audio) :
  fst (schedule_body ba) = Legacy.advance (fst ba).
Proof.
  destruct ba as [b a]. unfold schedule_body, Legacy.advance. cbn [fst].
  destruct (tick b + 1 >=? 16)%Z; reflexivity.
Qed.

(** After [k] turns from a tick in range, the position is the one [k]
    sixteenths further. *)
Lemma body_iter_position (k : nat) (ba : BGM * Audio) :
  (0 <= tick (fst ba) < 16)%Z ->
  tick (fst (Nat.iter k schedule_body ba)) = ((tick (fst ba) + Z.of_nat k) mod 16)%Z /\
  measure (fst (Nat.iter k schedule_body ba)) =
    (measure (fst ba) + (tick (fst ba) + Z.of_nat k) / 16)%Z.
Proof.
  intros Ht. induction k as [|k IH].
  - simpl. rewrite Z.add_0_r, Z.mod_small, Z.div_small by lia. lia.
  - rewrite Nat.iter_succ, body_tick, body_measure.
    destruct IH as [IHt IHm]. rewrite IHt, IHm.
    replace (tick (fst ba) + Z.of_nat (S k))%Z
      with (tick (fst ba) + Z.of_nat k + 1)%Z by lia.
    set (n := (tick (fst ba) + Z.of_nat k)%Z).
    assert (Hn : (0 <= n)%Z) by (unfold n; lia).
    destruct (Z.geb_spec (n mod 16 + 1) 16) as [Hge|Hlt].
    + split; Z.to_euclidean_division_equations; lia.
    + split; Z.to_euclidean_division_equations; lia.
Qed.

(** C2: from any tick t in 0..15 and any bar b, sixteen turns of the
    scheduler's advance step bring tick back to t and add exactly one to
    the bar (measure); tick stays in 0..15 after every turn. *)
Theorem C2_sixteen_steps (b : BGM) (a : Audio) :
  (0 <= tick b < 16)%Z ->
  tick (fst (Nat.iter 16 schedule_body (b, a))) = tick b /\
  measure (fst (Nat.iter 16 schedule_body (b, a))) = (measure b + 1)%Z /\
  forall k : nat, (0 <= tick (fst (Nat.iter k schedule_body (b, a))) < 16)%Z.
Proof.
  intros Ht. split; [|split].
  - destruct (body_iter_position 16 (b, a) Ht) as [H _]. rewrite H. simpl fst.
    change (Z.of_nat 16) with 16%Z. Z.to_euclidean_division_equations; lia.
  - destruct (body_iter_position 16 (b, a) Ht) as [_ H]. rewrite H. simpl fst.
    change (Z.of_nat 16) with 16%Z. Z.to_euclidean_division_equations; lia.
  - intros k. destruct (body_iter_position k (b, a) Ht) as [H _]. rewrite H.
    apply Z.mod_pos_bound. lia.
Qed.

Lemma C2_sixteen_steps_witness :
  let b := mkBGM 135 (60 / 135 / 4) true 0 5 47 "mainTheme" in
  let a := mkAudio [] 0 [] (fun _ => 0.5) 0 in
  tick (fst (Nat.iter 16 schedule_body (b, a))) = tick b /\
  measure (fst (Nat.iter 16 schedule_body (b, a))) = (measure b + 1)%Z /\
  forall k : nat, (0 <= tick (fst (Nat.iter k schedule_body (b, a))) < 16)%Z.
Proof.
  apply (C2_sixteen_steps (mkBGM 135 (60 / 135 / 4) true 0 5 47 "mainTheme")).
  simpl. lia.
Defined.

(** ** getFreq *)

(** [((index % len) + len) % len] is the floor-mod of [index]. *)
Lemma rem_floor_mod (i len : Z) :
  (0 < len)%Z -> Z.rem (Z.rem i len + len) len = (i mod len)%Z.
Proof.
  intros Hlen.
  pose proof (Z.quot_rem' i len) as Hq.
  assert (Hr : (- len < Z.rem i len < len)%Z).
  { pose proof (Z.rem_bound_abs i len). lia. }
  rewrite Z.rem_mod_nonneg by lia.
  rewrite Hq at 2.
  rewrite Z.add_comm.
  rewrite (Z.add_comm (len * _)%Z).
  rewrite Z.mul_comm, Z.mod_add by lia.
  rewrite <- (Z.mod_add (Z.rem i len) 1 len) by lia. f_equal. lia.
Qed.

Lemma js_num_in_range (arr : list Q) (k : Z) :
  (0 <= k < Z.of_nat (List.length arr))%Z ->
  js_num arr k = Num (nth (Z.to_nat k) arr 0).
Proof.
  intros Hk. unfold js_num, js_get.
  destruct (Z.ltb_spec k 0); [lia|].
  destruct (nth_error arr (Z.to_nat k)) as [q|] eqn:E.
  - rewrite (nth_error_nth arr (Z.to_nat k) 0 E). reflexivity.
  - apply nth_error_None in E. lia.
Qed.

Lemma scales_nonempty (scaleName : string) (scale : list Q) :
  scales scaleName = Some scale -> (0 < Z.of_nat (List.length scale))%Z.
Proof.
  unfold scales. intros H.
  destruct (String.eqb scaleName "mainTheme").
  - injection H as <-. reflexivity.
  - destruct (String.eqb scaleName "ambient"); [|discriminate].
    injection H as <-. reflexivity.
Qed.

(** On a scale of the engine, [getFreq] is the floor-mod scale degree
    shifted by the floor-div number of octaves. *)
Lemma getFreq_defined (scaleName : string) (scale : list Q) (i : Z) :
  scales scaleName = Some scale ->
  let len := Z.of_nat (List.length scale) in
  getFreq scaleName i = Num (nth (Z.to_nat (i mod len)) scale 0 * 2 ^ (i / len)%Z).
Proof.
  intros H len. pose proof (scales_nonempty _ _ H) as Hlen.
  unfold getFreq. rewrite H. fold len.
  rewrite rem_floor_mod by exact Hlen.
  rewrite js_num_in_range by (apply Z.mod_pos_bound; exact Hlen).
  reflexivity.
Qed.

(** One scale length further up is one octave up. *)
Lemma getFreq_plus_len (scaleName : string) (scale : list Q) (i : Z) :
  scales scaleName = Some scale ->
  num_eq (getFreq scaleName (i + Z.of_nat (List.length scale)))
         (nmul 2 (getFreq scaleName i)).
Proof.
  intros H.
  pose proof (scales_nonempty _ _ H) as Hlen.
  rewrite !(getFreq_defined _ _ _ H).
  set (len := Z.of_nat (List.length scale)) in *.
  replace (i + len)%Z with (i + 1 * len)%Z by lia.
  rewrite Z.mod_add, Z.div_add by lia.
  unfold nmul, num_eq.
  rewrite Qpower_plus by discriminate.
  change (2 ^ 1) with 2. ring.
Qed.

(** *** In double precision *)

Local Open Scope Z_scope.

Lemma fexp_normal (x : Z) : (-1021 <= x)%Z -> fexp Double.prec Double.emax x = (x - 53)%Z.
Proof. intros H. unfold fexp, emin, Double.prec, Double.emax. lia. Qed.

Lemma shr_fexp_id (m : positive) (e : Z) :
  Zpos (digits2_pos m) = 53 -> (-1074 <= e)%Z ->
  shr_fexp Double.prec Double.emax (Zpos m) e loc_Exact =
  ({| shr_m := Zpos m; shr_r := false; shr_s := false |}, e).
Proof.
  intros Hd He. unfold shr_fexp. cbn [Zdigits2]. rewrite Hd.
  rewrite fexp_normal by lia.
  replace (53 + e - 53 - e) with 0 by lia. reflexivity.
Qed.

Lemma round_exact (s : bool) (m : positive) (e : Z) :
  Zpos (digits2_pos m) = 53 -> (-1074 <= e)%Z ->
  binary_round_aux Double.prec Double.emax s (Zpos m) e loc_Exact =
  if (e <=? 971) then S754_finite s m e else S754_infinity s.
Proof.
  intros Hd He. unfold binary_round_aux.
  rewrite (shr_fexp_id m e Hd He). cbn [shr_m loc_of_shr_record round_nearest_even].
  rewrite (shr_fexp_id m e Hd He). cbn [shr_m]. reflexivity.
Qed.

Lemma digits2_shift (m : positive) :
  digits2_pos (4503599627370496 * m) = (digits2_pos m + 52)%positive.
Proof. cbn. lia. Qed.

Lemma round_shift (s : bool) (m : positive) (e : Z) :
  Zpos (digits2_pos m) = 53 -> (-1074 <= e + 52)%Z ->
  binary_round_aux Double.prec Double.emax s (Zpos (4503599627370496 * m)) e loc_Exact =
  if (e + 52 <=? 971) then S754_finite s m (e + 52) else S754_infinity s.
Proof.
  intros Hd He. unfold binary_round_aux.
  assert (E : shr_fexp Double.prec Double.emax (Zpos (4503599627370496 * m)) e loc_Exact =
              ({| shr_m := Zpos m; shr_r := false; shr_s := false |}, e + 52)).
  { unfold shr_fexp. cbn [Zdigits2]. rewrite digits2_shift.
    rewrite fexp_normal by lia.
    replace (Z.pos (digits2_pos m + 52) + e - 53 - e) with 52 by lia.
    cbn. reflexivity. }
  rewrite E. cbn [shr_m loc_of_shr_record round_nearest_even].
  rewrite (shr_fexp_id m (e + 52) Hd He). cbn [shr_m]. reflexivity.
Qed.

Lemma shl_align_same (m : positive) (e : Z) : shl_align m e e = (m, e).
Proof. unfold shl_align. rewrite Z.sub_diag. reflexivity. Qed.

(** A power of two in the normal range. *)
Lemma pow2_normal (k : Z) :
  (-1022 <= k <= 1023)%Z ->
  Double.pow2 k = S754_finite false 4503599627370496 (k - 52).
Proof.
  intros Hk. unfold Double.pow2.
  destruct (Z.ltb_spec 1023 k); [lia|]. destruct (Z.ltb_spec k (-1074)); [lia|].
  change (Double.of_Z 1) with (S754_finite false 4503599627370496 (-52)).
  unfold SFldexp, binary_round.
  change (digits2_pos 4503599627370496) with 53%positive.
  rewrite fexp_normal by lia.
  replace (53 + (-52 + k) - 53) with (-52 + k) by lia.
  rewrite shl_align_same, round_exact by (try reflexivity; lia).
  destruct (Z.leb_spec (-52 + k) 971); [|lia].
  f_equal. lia.
Qed.

(** Outside the range of the doubles [pow2] is what rounding the power
    gives: Infinity above, zero below (2^-1075 is a tie, rounded to the
    even neighbour 0). *)
Lemma pow2_rounds :
  let ks := [-2000; -1076; -1075; -1074; -1073; -1023; -1022; -1; 0; 1; 1023; 1024;
             1025; 2000] in
  map Double.pow2 ks = map (SFldexp Double.prec Double.emax (Double.of_Z 1)) ks.
Proof. vm_compute. reflexivity. Qed.

(** A product whose mantissa is [m] shifted left by [j] bits rounds to
    [m], exactly. *)
Ltac shifted j :=
  match goal with
  | Hd : Zpos (digits2_pos ?m) = 53, He : (-1074 <= ?lo)%Z
    |- binary_round_aux _ _ ?s (Zpos (?c * ?m)) ?e loc_Exact = _ =>
      unfold binary_round_aux;
      let E := fresh "E" in
      assert (E : shr_fexp Double.prec Double.emax (Zpos (c * m)) e loc_Exact =
                  ({| shr_m := Zpos m; shr_r := false; shr_s := false |}, e + j));
      [ unfold shr_fexp; cbn [Zdigits2];
        replace (Zpos (digits2_pos (c * m))) with (53 + j) by (cbn; lia);
        rewrite fexp_normal by lia;
        replace (53 + j + e - 53 - e) with j by lia;
        cbn; reflexivity
      | rewrite E; cbn [shr_m loc_of_shr_record round_nearest_even];
        rewrite (shr_fexp_id m (e + j) Hd) by lia; cbn [shr_m] ]
  end.

Lemma mul_pow2 (m : positive) (e k : Z) :
  Zpos (digits2_pos m) = 53 -> (-1029 <= k <= 1023)%Z -> (-1074 <= e + k)%Z ->
  Double.mul (S754_finite false m e) (Double.pow2 k) =
  if (e + k <=? 971) then S754_finite false m (e + k) else S754_infinity false.
Proof.
  intros Hd Hk He.
  destruct (Z_le_dec (-1022) k) as [Hn|Hn].
  - rewrite pow2_normal by lia. unfold Double.mul, SFmul. cbn [xorb].
    rewrite Pos.mul_comm. shifted 52.
    replace (e + (k - 52) + 52) with (e + k) by lia. reflexivity.
  - assert (Hc : k = -1029 \/ k = -1028 \/ k = -1027 \/ k = -1026 \/ k = -1025 \/
                 k = -1024 \/ k = -1023) by lia.
    destruct Hc as [->|[->|[->|[->|[->|[->| ->]]]]]];
      match goal with
      | |- context [Double.pow2 ?k] =>
          let v := eval vm_compute in (Double.pow2 k) in
          change (Double.pow2 k) with v
      end;
      unfold Double.mul, SFmul; cbn [xorb]; rewrite Pos.mul_comm.
    + shifted 45. replace (e + -1074 + 45) with (e + -1029) by lia. reflexivity.
    + shifted 46. replace (e + -1074 + 46) with (e + -1028) by lia. reflexivity.
    + shifted 47. replace (e + -1074 + 47) with (e + -1027) by lia. reflexivity.
    + shifted 48. replace (e + -1074 + 48) with (e + -1026) by lia. reflexivity.
    + shifted 49. replace (e + -1074 + 49) with (e + -1025) by lia. reflexivity.
    + shifted 50. replace (e + -1074 + 50) with (e + -1024) by lia. reflexivity.
    + shifted 51. replace (e + -1074 + 51) with (e + -1023) by lia. reflexivity.
Qed.

(** Twice a normal double. *)
Lemma two_mul (m : positive) (e : Z) :
  Zpos (digits2_pos m) = 53 -> (-1074 <= e + 1)%Z ->
  Double.mul (Double.of_Z 2) (S754_finite false m e) =
  if (e + 1 <=? 971) then S754_finite false m (e + 1) else S754_infinity false.
Proof.
  intros Hd He.
  change (Double.of_Z 2) with (S754_finite false 4503599627370496 (-51)).
  unfold Double.mul, SFmul. cbn [xorb].
  shifted 52. replace (-51 + e + 52) with (e + 1) by lia. reflexivity.
Qed.

Lemma eqb_finite_refl (m : positive) (e : Z) :
  Double.eqb (S754_finite false m e) (S754_finite false m e) = true.
Proof.
  unfold Double.eqb, SFeqb, SFcompare.
  rewrite Z.compare_refl, Pos.compare_cont_refl. reflexivity.
Qed.

(** One octave up is exactly twice the frequency as long as the frequency
    is a normal double. *)
Lemma octave_double (m : positive) (e k : Z) :
  Zpos (digits2_pos m) = 53 -> (-51 <= e <= 0)%Z ->
  (-1029 <= k)%Z -> (-1074 <= e + k)%Z ->
  Double.eqb (Double.mul (S754_finite false m e) (Double.pow2 (k + 1)))
             (Double.mul (Double.of_Z 2)
                (Double.mul (S754_finite false m e) (Double.pow2 k))) = true.
Proof.
  intros Hd He Hk Hek.
  destruct (Z_le_dec k 1022) as [Hs|Hs].
  - rewrite !mul_pow2 by (try assumption; lia).
    destruct (Z.leb_spec (e + k) 971).
    + rewrite two_mul by (try assumption; lia).
      replace (e + (k + 1)) with (e + k + 1) by lia.
      destruct (e + k + 1 <=? 971); [apply eqb_finite_refl|reflexivity].
    + destruct (Z.leb_spec (e + (k + 1)) 971); [lia|]. reflexivity.
  - assert (E1 : Double.pow2 (k + 1) = S754_infinity false).
    { unfold Double.pow2. destruct (Z.ltb_spec 1023 (k + 1)); [reflexivity|lia]. }
    assert (E2 : Double.mul (S754_finite false m e) (Double.pow2 k) = S754_infinity false).
    { destruct (Z_le_dec k 1023) as [Ht|Ht].
      - rewrite mul_pow2 by (try assumption; lia).
        destruct (Z.leb_spec (e + k) 971); [lia|reflexivity].
      - unfold Double.pow2. destruct (Z.ltb_spec 1023 k); [reflexivity|lia]. }
    rewrite E1, E2. reflexivity.
Qed.

Lemma scales_normal (scaleName : string) (scale : list Q) :
  scales scaleName = Some scale -> Forall (normal_entry (-45)) scale.
Proof.
  unfold scales. intros H.
  destruct (String.eqb scaleName "mainTheme");
    [|destruct (String.eqb scaleName "ambient"); [|discriminate]];
    injection H as <-;
    repeat (constructor; [eexists; eexists; split; [vm_compute; reflexivity|split; [reflexivity|lia]]|]);
    constructor.
Qed.

Lemma legacy_scales_normal (scaleName : string) (scale : list Q) :
  Legacy.scales scaleName = Some scale -> Forall (normal_entry (-46)) scale.
Proof.
  unfold Legacy.scales. intros H.
  destruct (String.eqb scaleName "mainTheme");
    [|destruct (String.eqb scaleName "ambient"); [|discriminate]];
    injection H as <-;
    repeat (constructor; [eexists; eexists; split; [vm_compute; reflexivity|split; [reflexivity|lia]]|]);
    constructor.
Qed.

Lemma legacy_scales_nonempty (scaleName : string) (scale : list Q) :
  Legacy.scales scaleName = Some scale -> (0 < Z.of_nat (List.length scale))%Z.
Proof.
  unfold Legacy.scales. intros H.
  destruct (String.eqb scaleName "mainTheme").
  - injection H as <-. reflexivity.
  - destruct (String.eqb scaleName "ambient"); [|discriminate].
    injection H as <-. reflexivity.
Qed.

Lemma double_js_num_in_range (lo : Z) (arr : list Q) (k : Z) :
  (0 <= k < Z.of_nat (List.length arr))%Z -> Forall (normal_entry lo) arr ->
  exists m e, Double.js_num arr k = S754_finite false m e /\
              Zpos (digits2_pos m) = 53 /\ (lo <= e <= -45)%Z.
Proof.
  intros Hk Hn. unfold Double.js_num, js_get.
  destruct (Z.ltb_spec k 0); [lia|].
  destruct (nth_error arr (Z.to_nat k)) as [q|] eqn:E.
  - rewrite Forall_forall in Hn. apply (Hn q). apply (nth_error_In _ _ E).
  - apply nth_error_None in E. lia.
Qed.

(** In double precision one scale length further up is exactly one octave
    up, from octave -1029 on. *)
Lemma double_getFreq_plus_len (scaleName : string) (scale : list Q) (i : Z) :
  scales scaleName = Some scale ->
  (-1029 <= i / Z.of_nat (List.length scale))%Z ->
  Double.eqb (Double.getFreq scaleName (i + Z.of_nat (List.length scale)))
             (Double.mul (Double.of_Z 2) (Double.getFreq scaleName i)) = true.
Proof.
  intros H Hk. pose proof (scales_nonempty _ _ H) as Hlen.
  unfold Double.getFreq. rewrite H.
  set (len := Z.of_nat (List.length scale)) in *. cbv zeta.
  rewrite !rem_floor_mod by exact Hlen.
  replace (i + len)%Z with (i + 1 * len)%Z by lia.
  rewrite Z.mod_add, Z.div_add by lia.
  destruct (double_js_num_in_range _ scale (i mod len)
              (Z.mod_pos_bound i len Hlen) (scales_normal _ _ H))
    as (m & e & -> & Hd & He).
  apply octave_double; [exact Hd|lia|exact Hk|lia].
Qed.

(** The first version indexes the scale with the truncated remainder:
    the same holds there for the indices that are not negative. *)
Lemma double_getFreq_legacy_plus_len (scaleName : string) (scale : list Q) (i : Z) :
  Legacy.scales scaleName = Some scale -> (0 <= i)%Z ->
  Double.eqb (Double.getFreq_legacy scaleName (i + Z.of_nat (List.length scale)))
             (Double.mul (Double.of_Z 2) (Double.getFreq_legacy scaleName i)) = true.
Proof.
  intros H Hi. pose proof (legacy_scales_nonempty _ _ H) as Hlen.
  unfold Double.getFreq_legacy. rewrite H.
  set (len := Z.of_nat (List.length scale)) in *. cbv zeta.
  rewrite !Z.rem_mod_nonneg by lia.
  replace (i + len)%Z with (i + 1 * len)%Z by lia.
  rewrite Z.mod_add, Z.div_add by lia.
  destruct (double_js_num_in_range _ scale (i mod len)
              (Z.mod_pos_bound i len Hlen) (legacy_scales_normal _ _ H))
    as (m & e & -> & Hd & He).
  assert (Hq : (0 <= i / len)%Z) by (apply Z.div_pos; lia).
  apply octave_double; [exact Hd|lia|lia|lia].
Qed.

(** C4 (as the code has it): in IEEE-754 double precision, on every scale
    of the engine and for every integer index i whose octave
    floor(i / length) is at least -1029 (the frequency is then a normal
    double or Infinity), negative indices included,
    getFreq(scale, i + length(scale)) === 2 * getFreq(scale, i); on
    mainTheme, getFreq('mainTheme', 7) === 261.62 and
    getFreq('mainTheme', -1) === 116.54.  In the first version of the
    engine the octave property holds for the indices i >= 0. *)
Theorem C4_getFreq_octave (scaleName : string) (scale : list Q) (i : Z) :
  scales scaleName = Some scale ->
  (-1029 <= i / Z.of_nat (List.length scale))%Z ->
  Double.eqb (Double.getFreq scaleName (i + Z.of_nat (List.length scale)))
             (Double.mul (Double.of_Z 2) (Double.getFreq scaleName i)) = true /\
  Double.eqb (Double.getFreq "mainTheme" 7) (Double.of_Q 261.62) = true /\
  Double.eqb (Double.getFreq "mainTheme" (-1)) (Double.of_Q 116.54) = true /\
  forall scale1 j,
    Legacy.scales scaleName = Some scale1 -> (0 <= j)%Z ->
    Double.eqb (Double.getFreq_legacy scaleName (j + Z.of_nat (List.length scale1)))
               (Double.mul (Double.of_Z 2) (Double.getFreq_legacy scaleName j)) = true.
Proof.
  intros H Hk. split; [|split; [|split]].
  - apply double_getFreq_plus_len; assumption.
  - vm_compute. reflexivity.
  - vm_compute. reflexivity.
  - intros scale1 j H1 Hj. apply double_getFreq_legacy_plus_len; assumption.
Qed.

Lemma C4_getFreq_octave_witness :
  Double.eqb (Double.getFreq "mainTheme" (-7203 + Z.of_nat (List.length mainTheme)))
             (Double.mul (Double.of_Z 2) (Double.getFreq "mainTheme" (-7203))) = true /\
  Double.eqb (Double.getFreq "mainTheme" 7) (Double.of_Q 261.62) = true /\
  Double.eqb (Double.getFreq "mainTheme" (-1)) (Double.of_Q 116.54) = true /\
  forall scale1 j,
    Legacy.scales "mainTheme" = Some scale1 -> (0 <= j)%Z ->
    Double.eqb (Double.getFreq_legacy "mainTheme" (j + Z.of_nat (List.length scale1)))
               (Double.mul (Double.of_Z 2) (Double.getFreq_legacy "mainTheme" j)) = true.
Proof.
  apply (C4_getFreq_octave "mainTheme" mainTheme (-7203)).
  - reflexivity.
  - vm_compute. discriminate.
Defined.

(** C4 as stated fails.  In v2.0, at index -7516 the frequency is a
    subnormal double: getFreq('mainTheme', -7516) is 156 * 2^-1074 (the
    rounding of 155.56 * 2^-1074) and getFreq('mainTheme', -7509) is
    311 * 2^-1074, not twice as much.  In the first version a negative
    index reads outside the scale: getFreq('mainTheme', -1) is NaN, which
    is equal to nothing. *)
Lemma C4_counterexample :
  (-7516 + Z.of_nat (List.length mainTheme) = -7509)%Z /\
  Double.getFreq "mainTheme" (-7516) = S754_finite false 156 (-1074) /\
  Double.getFreq "mainTheme" (-7509) = S754_finite false 311 (-1074) /\
  Double.eqb (Double.getFreq "mainTheme" (-7509))
             (Double.mul (Double.of_Z 2) (Double.getFreq "mainTheme" (-7516))) = false /\
  Double.getFreq_legacy "mainTheme" (-1) = S754_nan /\
  Double.eqb (Double.getFreq_legacy "mainTheme" (-1 + Z.of_nat (List.length Legacy.mainTheme)))
             (Double.mul (Double.of_Z 2) (Double.getFreq_legacy "mainTheme" (-1))) = false.
Proof. repeat split; vm_compute; reflexivity. Qed.

Local Open Scope Q_scope.


(** The first version of the engine has no floor-mod: a negative index
    reads outside the scale and the frequency is [NaN]. *)
Lemma legacy_getFreq_negative : Legacy.getFreq "mainTheme" (-1) = NaN.
Proof. reflexivity. Qed.

(** ** What the voice builders add to the trace *)

Lemma exec_seq (m1 m2 : M unit) (a : Audio) :
  exec (m1 ;; m2) a = exec m2 (exec m1 a).
Proof. unfold exec, bind. destruct (m1 a). reflexivity. Qed.

Lemma exec_when (c : bool) (m : M unit) (a : Audio) :
  exec (when c m) a = if c then exec m a else a.
Proof. destruct c; reflexivity. Qed.

Lemma beats_snoc (tag : string) (tr : list Call) (c : Call) :
  beats tag (tr ++ [c]) =
  beats tag tr ++ match c with
                  | OnBeat t g => if String.eqb g tag then [t] else []
                  | _ => []
                  end.
Proof. unfold beats. rewrite flat_map_app. simpl. rewrite app_nil_r. reflexivity. Qed.

Ltac voice_beats :=
  intros;
  unfold exec, _playKick, _playSnare, _playHihat, _playSuperSawBass, _playFMLead,
    _playSynth, onBeat;
  cbn; rewrite !beats_snoc; cbn; rewrite ?app_nil_r; reflexivity.

Lemma kick_beats (time : Q) (a : Audio) :
  beats "kick" (trace (exec (_playKick time) a)) = beats "kick" (trace a) ++ [time] /\
  beats "lead" (trace (exec (_playKick time) a)) = beats "lead" (trace a).
Proof. split; voice_beats. Qed.

Lemma snare_beats (time : Q) (a : Audio) :
  beats "kick" (trace (exec (_playSnare time) a)) = beats "kick" (trace a) /\
  beats "lead" (trace (exec (_playSnare time) a)) = beats "lead" (trace a).
Proof. split; voice_beats. Qed.

Lemma hihat_beats (time : Q) (open : bool) (a : Audio) :
  beats "kick" (trace (exec (_playHihat time open) a)) = beats "kick" (trace a) /\
  beats "lead" (trace (exec (_playHihat time open) a)) = beats "lead" (trace a).
Proof. split; voice_beats. Qed.

Lemma bass_beats (freq : num) (time dur cutoff : Q) (a : Audio) :
  beats "kick" (trace (exec (_playSuperSawBass freq time dur cutoff) a)) =
    beats "kick" (trace a) /\
  beats "lead" (trace (exec (_playSuperSawBass freq time dur cutoff) a)) =
    beats "lead" (trace a).
Proof. split; voice_beats. Qed.

Lemma lead_beats (freq : num) (time dur vol : Q) (a : Audio) :
  beats "kick" (trace (exec (_playFMLead freq time dur vol) a)) = beats "kick" (trace a) /\
  beats "lead" (trace (exec (_playFMLead freq time dur vol) a)) =
    beats "lead" (trace a) ++ [time].
Proof. split; voice_beats. Qed.

Lemma random_trace (a : Audio) : trace (snd (random a)) = trace a.
Proof. reflexivity. Qed.

(** ** Drums *)

Lemma drums_kick (time : Q) (t b : Z) (a : Audio) :
  beats "kick" (trace (exec (_playDrums time t b) a)) =
  beats "kick" (trace a) ++
  (if (8 <=? b)%Z && negb (in_section BREAKDOWN b) && (Z.rem t 4 =? 0)%Z
   then [time] else []).
Proof.
  unfold _playDrums. change (range_start (SECTIONS VERSE)) with 8%Z.
  rewrite Z.leb_antisym.
  destruct (b <? 8)%Z; simpl negb; cbn [andb].
  - unfold exec, ret. simpl. rewrite app_nil_r. reflexivity.
  - rewrite !exec_seq, !exec_when.
    assert (Hsn : forall x,
      beats "kick" (trace (exec
        (if in_section BUILD b then when (Z.rem t 2 =? 0)%Z (_playSnare time)
         else if negb (in_section BREAKDOWN b)
              then when (Z.rem t 8 =? 4)%Z (_playSnare time)
              else ret tt) x)) = beats "kick" (trace x)).
    { intros x.
      destruct (in_section BUILD b); [|destruct (negb (in_section BREAKDOWN b))];
        rewrite ?exec_when; try reflexivity;
        match goal with |- context [if ?c then _ else _] => destruct c end;
        try reflexivity; apply snare_beats. }
    assert (Hhh : forall x,
      beats "kick" (trace
        (if negb (in_section BREAKDOWN b) && (Z.rem t 2 =? 0)%Z
         then exec (_playHihat time (Z.rem t 8 =? 2)%Z) x else x)) =
      beats "kick" (trace x)).
    { intros x. destruct (negb (in_section BREAKDOWN b) && (Z.rem t 2 =? 0)%Z);
        [apply hihat_beats|reflexivity]. }
    rewrite Hhh, Hsn.
    destruct (negb (in_section BREAKDOWN b) && (Z.rem t 4 =? 0)%Z).
    + apply kick_beats.
    + rewrite app_nil_r. reflexivity.
Qed.

Lemma bass_no_kick (this : BGM) (time : Q) (t b : Z) (a : Audio) :
  beats "kick" (trace (exec (_playBass this time t b) a)) = beats "kick" (trace a).
Proof.
  unfold _playBass. rewrite exec_when.
  destruct (negb (Z.rem t 4 =? 0)%Z); [apply bass_beats|reflexivity].
Qed.

Lemma exec_bind {A : Type} (m : M A) (k : A -> M unit) (a : Audio) :
  exec (x <- m ;; k x) a = exec (k (fst (m a))) (snd (m a)).
Proof. unfold exec, bind. destruct (m a). reflexivity. Qed.

Lemma lead_no_kick (this : BGM) (time : Q) (t b : Z) (a : Audio) :
  beats "kick" (trace (exec (_playLead this time t b) a)) = beats "kick" (trace a).
Proof.
  unfold _playLead.
  destruct (in_section CHORUS b || from_start OUTRO b).
  - destruct (js_get melody t) as [d|]; [destruct (d =? -1)%Z|].
    + reflexivity.
    + apply lead_beats.
    + apply lead_beats.
  - destruct (in_section BREAKDOWN b && (Z.rem t 4 =? 0)%Z); [|reflexivity].
    rewrite exec_bind, exec_bind.
    rewrite (proj1 (lead_beats _ _ _ _ _)).
    rewrite !random_trace. reflexivity.
Qed.

(** C5 (as the code has it): on the main-theme track, for every bar
    b >= 0 and tick t in 0..15, a kick is emitted at (t, b) exactly when
    t mod 4 = 0 and b is neither before VERSE (in INTRO) nor inside
    BREAKDOWN; the kick's beat carries the scheduled time. *)
Theorem C5_kick_pattern (this : BGM) (time : Q) (t b : Z) (a : Audio) :
  (0 <= b)%Z -> (0 <= t < 16)%Z ->
  beats "kick" (trace (exec (_playMainThemePattern this time t b) a)) =
  beats "kick" (trace a) ++
  (if negb (in_section INTRO b) && negb (in_section BREAKDOWN b) && (t mod 4 =? 0)%Z
   then [time] else []).
Proof.
  intros Hb Ht. unfold _playMainThemePattern.
  rewrite !exec_seq, lead_no_kick, bass_no_kick, drums_kick.
  rewrite Z.rem_mod_nonneg by lia.
  replace (negb (in_section INTRO b)) with (8 <=? b)%Z; [reflexivity|].
  unfold in_section, from_start, before_end. simpl.
  destruct (Z.leb_spec 0 b); [|lia].
  rewrite Z.leb_antisym. reflexivity.
Qed.

Lemma C5_kick_pattern_witness :
  let this := mkBGM 135 (60 / 135 / 4) true 0 4 20 "mainTheme" in
  let a := mkAudio [] 0 [] (fun _ => 0.5) 0 in
  beats "kick" (trace (exec (_playMainThemePattern this 1.5 4 20) a)) =
  beats "kick" (trace a) ++
  (if negb (in_section INTRO 20) && negb (in_section BREAKDOWN 20) && (4 mod 4 =? 0)%Z
   then [1.5] else []).
Proof.
  apply (C5_kick_pattern (mkBGM 135 (60 / 135 / 4) true 0 4 20 "mainTheme") 1.5 4 20);
    lia.
Defined.

(** C5 as stated fails in INTRO: at tick 0 of bar 0, t mod 4 = 0 and the
    bar is not inside BREAKDOWN, yet [_playDrums] returns before the kick
    and the pattern makes no call at all. *)
Lemma C5_counterexample :
  (0 mod 4 = 0)%Z /\ in_section BREAKDOWN 0 = false /\
  trace (exec (_playMainThemePattern (mkBGM 135 (60 / 135 / 4) true 0.2 0 0 "mainTheme")
                 0.2 0 0)
              (mkAudio [] 0 [] (fun _ => 0.5) 0)) = [].
Proof. repeat split. Qed.

(** ** Lead *)

Lemma melody_in_range (t : Z) :
  (0 <= t < 16)%Z -> exists d, js_get melody t = Some d.
Proof.
  intros Ht. unfold js_get.
  destruct (Z.ltb_spec t 0); [lia|].
  destruct (nth_error melody (Z.to_nat t)) as [d|] eqn:E; [exists d; reflexivity|].
  apply nth_error_None in E. simpl in E. lia.
Qed.

Lemma melody_bounds (t d : Z) : js_get melody t = Some d -> (-1 <= d <= 8)%Z.
Proof.
  unfold js_get. destruct (t <? 0)%Z; [discriminate|]. intros H.
  apply nth_error_In in H. simpl in H.
  repeat (destruct H as [<-|H]; [lia|]). destruct H.
Qed.

Lemma num_eq_refl_getFreq (i : Z) :
  num_eq (getFreq "mainTheme" i) (getFreq "mainTheme" i).
Proof.
  rewrite (getFreq_defined "mainTheme" mainTheme i eq_refl).
  unfold num_eq. reflexivity.
Qed.

(** C6: on the main-theme track, in a bar of CHORUS or OUTRO and at a
    tick t in 0..15, [_playLead] emits a lead voice exactly when entry t
    of the 16-step melody is not the silence marker -1.  The voice is the
    FM lead at the scheduled time: a new oscillator (the carrier) whose
    frequency is set, once, to the scale frequency of that melody degree,
    doubled (one octave up) in OUTRO, where the code asks getFreq for the
    degree plus 7, which is exactly twice the frequency also in double
    precision; the carrier is connected through the
    voice's gain to the sidechain bus and started at the scheduled time,
    with its modulator.  At a silence marker nothing is built and the
    audio state is left as it was. *)
Theorem C6_lead_melody (this : BGM) (time : Q) (t b : Z) (a : Audio) :
  in_section CHORUS b = true \/ in_section OUTRO b = true ->
  (0 <= t < 16)%Z ->
  exists d,
    js_get melody t = Some d /\
    beats "lead" (trace (exec (_playLead this time t b) a)) =
      beats "lead" (trace a) ++ (if (d =? -1)%Z then [] else [time]) /\
    if (d =? -1)%Z then _playLead this time t b a = (tt, a)
    else exists f,
      _playLead this time t b a = _playFMLead f time (noteLength this * 2) 0.15 a /\
      num_eq f (if in_section OUTRO b
                then nmul 2 (getFreq "mainTheme" d)
                else getFreq "mainTheme" d) /\
      Double.eqb (Double.getFreq "mainTheme" (d + 7))
                 (Double.mul (Double.of_Z 2) (Double.getFreq "mainTheme" d)) = true /\
      let carrier := Voice (nextNode a) in
      let gain := Voice (3 + nextNode a) in
      exists new,
        trace (exec (_playLead this time t b) a) = trace a ++ new /\
        In (Create Oscillator carrier) new /\
        calls_on (Frequency carrier) new = [SetValue (Frequency carrier) f] /\
        In (Connect carrier (ToNode gain)) new /\
        In (Connect gain (ToNode SidechainBus)) new /\
        In (Start carrier time) new /\
        In (Stop carrier (time + noteLength this * 2 + 0.5)) new /\
        start_times new = [time; time].
Proof.
  intros Hsec Ht.
  destruct (melody_in_range t Ht) as [d Hd]. exists d.
  split; [exact Hd|].
  assert (Hc : in_section CHORUS b || from_start OUTRO b = true).
  { rewrite <- outro_unbounded. apply orb_true_iff. exact Hsec. }
  unfold _playLead. rewrite Hc, Hd.
  destruct (d =? -1)%Z.
  - split; [|reflexivity]. unfold exec, ret. simpl. rewrite app_nil_r. reflexivity.
  - split; [apply lead_beats|].
    exists (getFreq "mainTheme" (d + (if from_start OUTRO b then 7 else 0))%Z).
    split; [reflexivity|]. split.
    { rewrite outro_unbounded.
      destruct (from_start OUTRO b).
      + apply (getFreq_plus_len "mainTheme" mainTheme d eq_refl).
      + rewrite Z.add_0_r. apply num_eq_refl_getFreq. }
    split.
    { apply (double_getFreq_plus_len "mainTheme" mainTheme d eq_refl).
      pose proof (melody_bounds t d Hd) as Hb.
      change (Z.of_nat (List.length mainTheme)) with 7%Z.
      apply Z.div_le_lower_bound; lia. }
    generalize (getFreq "mainTheme" (d + (if from_start OUTRO b then 7 else 0))%Z).
    intros f. unfold exec, _playFMLead, onBeat. cbn.
    rewrite <- !app_assoc. cbn [app].
    eexists. split; [reflexivity|].
    assert (E1 : Nat.eqb (nextNode a) (S (nextNode a)) = false)
      by (apply Nat.eqb_neq; lia).
    unfold calls_on. cbn. rewrite Nat.eqb_refl, E1.
    repeat split; cbn; tauto.
Qed.

Lemma C6_lead_melody_witness :
  let this := mkBGM 135 (60 / 135 / 4) true 0 3 20 "mainTheme" in
  let a := mkAudio [] 0 [] (fun _ => 0.5) 0 in
  exists d,
    js_get melody 3 = Some d /\
    beats "lead" (trace (exec (_playLead this 1.5 3 20) a)) =
      beats "lead" (trace a) ++ (if (d =? -1)%Z then [] else [1.5]) /\
    if (d =? -1)%Z then _playLead this 1.5 3 20 a = (tt, a)
    else exists f,
      _playLead this 1.5 3 20 a = _playFMLead f 1.5 (noteLength this * 2) 0.15 a /\
      num_eq f (if in_section OUTRO 20
                then nmul 2 (getFreq "mainTheme" d)
                else getFreq "mainTheme" d) /\
      Double.eqb (Double.getFreq "mainTheme" (d + 7))
                 (Double.mul (Double.of_Z 2) (Double.getFreq "mainTheme" d)) = true /\
      let carrier := Voice (nextNode a) in
      let gain := Voice (3 + nextNode a) in
      exists new,
        trace (exec (_playLead this 1.5 3 20) a) = trace a ++ new /\
        In (Create Oscillator carrier) new /\
        calls_on (Frequency carrier) new = [SetValue (Frequency carrier) f] /\
        In (Connect carrier (ToNode gain)) new /\
        In (Connect gain (ToNode SidechainBus)) new /\
        In (Start carrier 1.5) new /\
        In (Stop carrier (1.5 + noteLength this * 2 + 0.5)) new /\
        start_times new = [1.5; 1.5].
Proof.
  apply (C6_lead_melody (mkBGM 135 (60 / 135 / 4) true 0 3 20 "mainTheme") 1.5 3 20).
  - left. reflexivity.
  - lia.
Defined.

(** Bar 20, inside CHORUS: the lead sounds on the ticks
    0, 2, 3, 4, 5, 6, 7, 9, 10, 11, 12 and is silent on 1, 8, 13, 14, 15. *)
Lemma lead_bar_20 :
  let this := mkBGM 135 (60 / 135 / 4) true 0 0 20 "mainTheme" in
  let a := mkAudio [] 0 [] (fun _ => 0.5) 0 in
  map (fun t => List.length (beats "lead" (trace (exec (_playLead this 1.5 t 20) a))))
      [0; 1; 2; 3; 4; 5; 6; 7; 8; 9; 10; 11; 12; 13; 14; 15]%Z
  = [1; 0; 1; 1; 1; 1; 1; 1; 0; 1; 1; 1; 1; 0; 0; 0]%nat.
Proof. vm_compute. reflexivity. Qed.

(** ** Sidechain ducking *)

Arguments timeline : simpl never.
Arguments cancel_from : simpl never.
Arguments insert_event : simpl never.
Arguments calls_on : simpl never.

Lemma timeline_snoc (p : param) (tr : list Call) (c : Call) :
  timeline p (tr ++ [c]) = automate p (timeline p tr) c.
Proof. unfold timeline, timeline_from. rewrite fold_left_app. reflexivity. Qed.

Lemma calls_on_snoc (p : param) (tr : list Call) (c : Call) :
  calls_on p (tr ++ [c]) = calls_on p tr ++ calls_on p [c].
Proof. unfold calls_on. apply filter_app. Qed.

Lemma Qltb_lt (x y : Q) : Qltb x y = true <-> x < y.
Proof.
  unfold Qltb. rewrite negb_true_iff. split.
  - intros H. apply Qnot_le_lt. intros Hle. apply Qle_bool_iff in Hle. congruence.
  - intros H. destruct (Qle_bool y x) eqn:E; [|reflexivity].
    apply Qle_bool_iff in E. exfalso. apply (Qlt_not_le _ _ H E).
Qed.

Lemma cancel_from_before (t : Q) (tl : list AutoEvent) :
  Forall (fun e => ev_time e < t) (cancel_from t tl).
Proof.
  unfold cancel_from. apply Forall_forall. intros e He.
  apply filter_In in He. apply Qltb_lt. exact (proj2 He).
Qed.

Lemma cancel_from_keeps (t : Q) (tl : list AutoEvent) :
  Forall (fun e => ev_time e < t) tl -> cancel_from t tl = tl.
Proof.
  unfold cancel_from. induction 1 as [|e tl He _ IH]; simpl; [reflexivity|].
  rewrite (proj2 (Qltb_lt _ _) He), IH. reflexivity.
Qed.

Lemma cancel_from_app (t : Q) (tl1 tl2 : list AutoEvent) :
  cancel_from t (tl1 ++ tl2) = cancel_from t tl1 ++ cancel_from t tl2.
Proof. unfold cancel_from. apply filter_app. Qed.

(** An event that is not earlier than any event of the timeline goes last. *)
Lemma insert_event_last (e : AutoEvent) (tl : list AutoEvent) :
  Forall (fun h => ev_time h <= ev_time e) tl -> insert_event e tl = tl ++ [e].
Proof.
  unfold insert_event. induction 1 as [|h tl Hh _ IH]; simpl; [reflexivity|].
  rewrite (proj2 (Qle_bool_iff _ _) Hh). f_equal. exact IH.
Qed.

Lemma Forall_before_weaken (t u : Q) (tl : list AutoEvent) :
  t <= u -> Forall (fun e => ev_time e < t) tl -> Forall (fun e => ev_time e <= u) tl.
Proof.
  intros Htu H. eapply Forall_impl; [|exact H].
  intros e He. simpl in He. apply Qlt_le_weak. eapply Qlt_le_trans; eassumption.
Qed.

Ltac sidechain_calls :=
  cbn; rewrite !calls_on_snoc;
  repeat match goal with
         | |- context [calls_on ?p [?c]] =>
             change (calls_on p [c]) with (@nil Call) ||
             change (calls_on p [c]) with [c]
         end;
  rewrite ?app_nil_r, <- ?app_assoc; reflexivity.

Ltac sidechain_timeline T a :=
  cbn; rewrite !timeline_snoc; cbn [automate param_eqb node_eqb];
  pose proof (cancel_from_before T (timeline (Gain SidechainBus) (trace a))) as Hb;
  rewrite (insert_event_last (EvSet 0.3 T));
  [|apply (Forall_before_weaken T); [apply Qle_refl|exact Hb]];
  rewrite insert_event_last;
  [rewrite <- app_assoc; reflexivity|];
  apply Forall_app; split;
  [apply (Forall_before_weaken T); [simpl; lra|exact Hb]
  |repeat constructor; simpl; lra].

(** The calls of one kick on the sidechain gain, and its timeline after. *)
Lemma kick_sidechain (T : Q) (a : Audio) :
  let sc := Gain SidechainBus in
  calls_on sc (trace (exec (_playKick T) a)) =
    calls_on sc (trace a) ++
    [CancelScheduledValues sc T; SetValueAtTime sc 0.3 T;
     ExponentialRampToValueAtTime sc 1.0 (T + 0.15)] /\
  timeline sc (trace (exec (_playKick T) a)) =
    cancel_from T (timeline sc (trace a)) ++
    [EvSet 0.3 T; EvExponentialRamp 1.0 (T + 0.15)].
Proof.
  intros sc. subst sc. unfold exec, _playKick, onBeat.
  split; [sidechain_calls|sidechain_timeline T a].
Qed.

(** The kick of the first version makes the same calls on the sidechain gain. *)
Lemma legacy_kick_sidechain (T : Q) (a : Audio) :
  let sc := Gain SidechainBus in
  calls_on sc (trace (exec (Legacy.playKick T) a)) =
    calls_on sc (trace a) ++
    [CancelScheduledValues sc T; SetValueAtTime sc 0.3 T;
     ExponentialRampToValueAtTime sc 1.0 (T + 0.15)] /\
  timeline sc (trace (exec (Legacy.playKick T) a)) =
    cancel_from T (timeline sc (trace a)) ++
    [EvSet 0.3 T; EvExponentialRamp 1.0 (T + 0.15)].
Proof.
  intros sc. subst sc. unfold exec, Legacy.playKick, onBeat.
  split; [sidechain_calls|sidechain_timeline T a].
Qed.

Lemma ramps_from_app (t : Q) (tl1 tl2 : list AutoEvent) :
  ramps_from t (tl1 ++ tl2) = ramps_from t tl1 ++ ramps_from t tl2.
Proof. unfold ramps_from. apply filter_app. Qed.

Lemma ramps_from_before (t : Q) (tl : list AutoEvent) :
  Forall (fun e => ev_time e < t) tl -> ramps_from t tl = [].
Proof.
  unfold ramps_from. induction 1 as [|e tl He _ IH]; simpl; [reflexivity|].
  rewrite IH. destruct (Qle_bool t (ev_time e)) eqn:E.
  - apply Qle_bool_iff in E. exfalso. apply (Qlt_not_le _ _ He E).
  - rewrite andb_false_r. reflexivity.
Qed.

(** C7: a kick scheduled at T makes exactly three calls on the sidechain
    bus gain, in this order: cancelScheduledValues(T),
    setValueAtTime(0.3, T), exponentialRampToValueAtTime(1.0, T + 0.15).
    After two kicks 100 ms apart (at T and T + 0.1) each has made its
    three calls, and on the gain's timeline the second cancel has removed
    the first kick's ramp: from T on, the only ramp left is the second
    kick's, ending at T + 0.1 + 0.15. *)
Theorem C7_kick_sidechain_duck (T : Q) (a : Audio) :
  let sc := Gain SidechainBus in
  let a1 := exec (_playKick T) a in
  let a2 := exec (_playKick (T + 0.1)) a1 in
  calls_on sc (trace a1) =
    calls_on sc (trace a) ++
    [CancelScheduledValues sc T; SetValueAtTime sc 0.3 T;
     ExponentialRampToValueAtTime sc 1.0 (T + 0.15)] /\
  calls_on sc (trace a2) =
    calls_on sc (trace a1) ++
    [CancelScheduledValues sc (T + 0.1); SetValueAtTime sc 0.3 (T + 0.1);
     ExponentialRampToValueAtTime sc 1.0 (T + 0.1 + 0.15)] /\
  timeline sc (trace a1) =
    cancel_from T (timeline sc (trace a)) ++
    [EvSet 0.3 T; EvExponentialRamp 1.0 (T + 0.15)] /\
  timeline sc (trace a2) =
    cancel_from T (timeline sc (trace a)) ++
    [EvSet 0.3 T; EvSet 0.3 (T + 0.1); EvExponentialRamp 1.0 (T + 0.1 + 0.15)] /\
  ramps_from T (timeline sc (trace a2)) = [EvExponentialRamp 1.0 (T + 0.1 + 0.15)].
Proof.
  intros sc a1 a2.
  destruct (kick_sidechain T a) as [Hc1 Ht1].
  destruct (kick_sidechain (T + 0.1) a1) as [Hc2 Ht2].
  fold sc in Hc1, Ht1, Hc2, Ht2. fold a1 in Hc1, Ht1. fold a2 in Hc2, Ht2.
  pose proof (cancel_from_before T (timeline sc (trace a))) as Hb.
  assert (Ht2' : timeline sc (trace a2) =
    cancel_from T (timeline sc (trace a)) ++
    [EvSet 0.3 T; EvSet 0.3 (T + 0.1); EvExponentialRamp 1.0 (T + 0.1 + 0.15)]).
  { rewrite Ht2, Ht1, cancel_from_app.
    rewrite cancel_from_keeps.
    2:{ eapply Forall_impl; [|exact Hb]. intros e He. simpl in He. lra. }
    unfold cancel_from at 2. simpl filter.
    assert (E1 : Qltb T (T + 0.1) = true) by (apply Qltb_lt; lra).
    assert (E2 : Qltb (T + 0.15) (T + 0.1) = false).
    { destruct (Qltb (T + 0.15) (T + 0.1)) eqn:E; [|reflexivity].
      apply Qltb_lt in E. lra. }
    rewrite E1, E2. rewrite <- app_assoc. reflexivity. }
  repeat split; try assumption.
  rewrite Ht2', ramps_from_app, (ramps_from_before T _ Hb).
  unfold ramps_from. simpl.
  assert (E : Qle_bool T (T + 0.1 + 0.15) = true) by (apply Qle_bool_iff; lra).
  rewrite E. reflexivity.
Qed.

(** ** Cleanup closures *)

Arguments onended : simpl never.

Lemma audio_eta (s : Audio) :
  mkAudio (trace s) (nextNode s) (closures s) (rng s) (randPos s) = s.
Proof. destruct s. reflexivity. Qed.

Lemma disconnect_all_spec (nodes : list node) (s : Audio) :
  disconnect_all nodes s =
  (tt, mkAudio (trace s ++ map Disconnect nodes) (nextNode s) (closures s)
               (rng s) (randPos s)).
Proof.
  revert s. induction nodes as [|n rest IH]; intros s.
  - simpl. rewrite app_nil_r, audio_eta. reflexivity.
  - simpl. unfold bind, emit. rewrite IH. simpl. rewrite <- app_assoc. reflexivity.
Qed.

(** The first call of a live closure marks it done and disconnects its nodes. *)
Lemma call_cleanup_live (c : nat) (s : Audio) (cl : Closure) :
  nth_error (closures s) c = Some cl -> done cl = false ->
  call_cleanup c s =
  (tt, mkAudio (trace s ++ map Disconnect (owned cl)) (nextNode s)
               (set_nth (closures s) c (mkClosure true (owned cl)))
               (rng s) (randPos s)).
Proof.
  intros Hc Hd. unfold call_cleanup. rewrite Hc, Hd.
  unfold bind, set_done. rewrite Hc. rewrite disconnect_all_spec. reflexivity.
Qed.

(** A call of a closure that is done, or of no closure, changes nothing. *)
Lemma call_cleanup_done (c : nat) (s : Audio) :
  match nth_error (closures s) c with
  | Some cl => done cl = true
  | None => True
  end ->
  call_cleanup c s = (tt, s).
Proof.
  unfold call_cleanup. destruct (nth_error (closures s) c) as [cl|]; [|reflexivity].
  intros ->. reflexivity.
Qed.

Lemma nth_error_set_nth {A : Type} (l : list A) (i : nat) (x y : A) :
  nth_error l i = Some y -> nth_error (set_nth l i x) i = Some x.
Proof.
  revert i. induction l as [|h t IH]; intros [|i] H; simpl in *; try discriminate.
  - reflexivity.
  - apply IH. exact H.
Qed.

Lemma call_cleanup_idem (c : nat) (a : Audio) :
  call_cleanup c (exec (call_cleanup c) a) = (tt, exec (call_cleanup c) a).
Proof.
  apply call_cleanup_done.
  destruct (nth_error (closures a) c) as [cl|] eqn:Hc.
  - destruct (done cl) eqn:Hd.
    + unfold exec. rewrite call_cleanup_done by (rewrite Hc; exact Hd).
      simpl. rewrite Hc. exact Hd.
    + unfold exec. rewrite (call_cleanup_live c a cl Hc Hd). simpl.
      rewrite (nth_error_set_nth _ _ _ _ Hc). reflexivity.
  - unfold exec. rewrite call_cleanup_done by (rewrite Hc; exact I).
    simpl. rewrite Hc. exact I.
Qed.

Lemma exec_cleanup_idem (c : nat) (a : Audio) :
  exec (call_cleanup c) (exec (call_cleanup c) a) = exec (call_cleanup c) a.
Proof. unfold exec at 1. rewrite call_cleanup_idem. reflexivity. Qed.

Lemma call_times_after (k : nat) (c : nat) (a : Audio) :
  exec (call_times k c) (exec (call_cleanup c) a) = exec (call_cleanup c) a.
Proof.
  induction k as [|k IH]; [reflexivity|].
  simpl call_times. rewrite exec_seq, exec_cleanup_idem. exact IH.
Qed.

Lemma call_times_once (k : nat) (c : nat) (a : Audio) :
  exec (call_times (S k) c) a = exec (call_cleanup c) a.
Proof. simpl call_times. rewrite exec_seq. apply call_times_after. Qed.

Lemma disconnects_app (tr1 tr2 : list Call) :
  disconnects (tr1 ++ tr2) = disconnects tr1 ++ disconnects tr2.
Proof. apply flat_map_app. Qed.

Lemma disconnects_snoc (tr : list Call) (c : Call) :
  disconnects (tr ++ [c]) =
  disconnects tr ++ match c with Disconnect n => [n] | _ => [] end.
Proof. rewrite disconnects_app. unfold disconnects at 2. simpl. rewrite app_nil_r. reflexivity. Qed.

Lemma disconnects_map (nodes : list node) : disconnects (map Disconnect nodes) = nodes.
Proof.
  unfold disconnects. induction nodes as [|n rest IH]; simpl; [reflexivity|].
  f_equal. exact IH.
Qed.

(** What one call of the closure disconnects. *)
Lemma call_cleanup_disconnects (c : nat) (a : Audio) :
  disconnects (trace (exec (call_cleanup c) a)) =
  disconnects (trace a) ++
  match nth_error (closures a) c with
  | Some cl => if done cl then [] else owned cl
  | None => []
  end.
Proof.
  destruct (nth_error (closures a) c) as [cl|] eqn:Hc.
  - destruct (done cl) eqn:Hd.
    + unfold exec. rewrite call_cleanup_done by (rewrite Hc; exact Hd).
      simpl. rewrite app_nil_r. reflexivity.
    + unfold exec. rewrite (call_cleanup_live c a cl Hc Hd). simpl.
      rewrite disconnects_app, disconnects_map. reflexivity.
  - unfold exec. rewrite call_cleanup_done by (rewrite Hc; exact I).
    simpl. rewrite app_nil_r. reflexivity.
Qed.

Lemma onended_snoc (n : node) (tr : list Call) (c : Call) :
  onended n (tr ++ [c]) =
  match c with
  | SetOnended m h => if node_eqb n m then Some h else onended n tr
  | _ => onended n tr
  end.
Proof.
  induction tr as [|x tr IH].
  - unfold onended. simpl. destruct c; try reflexivity.
    all: destruct (node_eqb n n0); reflexivity.
  - simpl app.
    change (onended n (x :: tr ++ [c])) with
      (match onended n (tr ++ [c]) with
       | Some h => Some h
       | None => match x with
                 | SetOnended m h => if node_eqb n m then Some h else None
                 | _ => None
                 end
       end).
    rewrite IH.
    destruct c; try reflexivity.
    all: destruct (node_eqb n n0); reflexivity.
Qed.

Lemma onended_disconnects (n : node) (tr : list Call) (nodes : list node) :
  onended n (tr ++ map Disconnect nodes) = onended n tr.
Proof.
  revert tr. induction nodes as [|x rest IH]; intros tr; simpl.
  - rewrite app_nil_r. reflexivity.
  - change (Disconnect x :: map Disconnect rest)
      with ([Disconnect x] ++ map Disconnect rest).
    rewrite app_assoc, IH, onended_snoc. reflexivity.
Qed.

(** Calling a cleanup closure leaves every [onended] handler in place. *)
Lemma call_cleanup_onended (n : node) (c : nat) (a : Audio) :
  onended n (trace (exec (call_cleanup c) a)) = onended n (trace a).
Proof.
  destruct (nth_error (closures a) c) as [cl|] eqn:Hc.
  - destruct (done cl) eqn:Hd.
    + unfold exec. rewrite call_cleanup_done by (rewrite Hc; exact Hd). reflexivity.
    + unfold exec. rewrite (call_cleanup_live c a cl Hc Hd). simpl.
      apply onended_disconnects.
  - unfold exec. rewrite call_cleanup_done by (rewrite Hc; exact I). reflexivity.
Qed.

Lemma fire_ended_handler (n : node) (c : nat) (a : Audio) :
  onended n (trace a) = Some c -> fire_ended n a = call_cleanup c a.
Proof. intros H. unfold fire_ended. rewrite H. reflexivity. Qed.

(** Two nodes whose [onended] is the same closure: when both end, the
    closure runs once. *)
Lemma shared_cleanup (n1 n2 : node) (c : nat) (a : Audio) :
  onended n1 (trace a) = Some c -> onended n2 (trace a) = Some c ->
  exec (fire_ended n1 ;; fire_ended n2) a = exec (call_cleanup c) a.
Proof.
  intros H1 H2. rewrite exec_seq.
  unfold exec at 2. rewrite (fire_ended_handler n1 c a H1).
  fold (exec (call_cleanup c) a).
  unfold exec at 1. rewrite (fire_ended_handler n2 c).
  - rewrite call_cleanup_idem. reflexivity.
  - rewrite call_cleanup_onended. exact H2.
Qed.

(** The super-saw bass: both oscillators get the one closure made for the
    voice, which is live and owns the voice's four nodes. *)
Lemma bass_cleanup (freq : num) (time dur cutoff : Q) (a : Audio) :
  let a1 := exec (_playSuperSawBass freq time dur cutoff) a in
  let n := nextNode a in
  let c := List.length (closures a) in
  onended (Voice n) (trace a1) = Some c /\
  onended (Voice (S n)) (trace a1) = Some c /\
  nth_error (closures a1) c =
    Some (mkClosure false [Voice n; Voice (S n); Voice (S (S n)); Voice (S (S (S n)))]) /\
  disconnects (trace a1) = disconnects (trace a).
Proof.
  intros a1 n c. subst a1. unfold exec, _playSuperSawBass, onBeat. cbn.
  fold n. fold c. repeat split.
  - rewrite !onended_snoc. cbn [node_eqb].
    replace (n =? S n)%nat with false by (symmetry; apply Nat.eqb_neq; lia).
    rewrite Nat.eqb_refl. reflexivity.
  - rewrite !onended_snoc. cbn [node_eqb]. rewrite Nat.eqb_refl. reflexivity.
  - rewrite nth_error_app2 by (unfold c; lia). unfold c.
    rewrite Nat.sub_diag. reflexivity.
  - rewrite !disconnects_snoc. rewrite !app_nil_r. reflexivity.
Qed.

(** C8: however often a voice's cleanup callback is called, its
    disconnects happen at most once: k + 1 calls leave the same state as
    the first call alone, which disconnects the closure's nodes if the
    closure was not done yet and nothing otherwise.  For the super-saw
    bass, whose two oscillators share one callback, the two ended events,
    in either order, disconnect each of the voice's four nodes once. *)
Theorem C8_cleanup_at_most_once (c k : nat) (a : Audio)
    (freq : num) (time dur cutoff : Q) :
  exec (call_times (S k) c) a = exec (call_cleanup c) a /\
  call_cleanup c (exec (call_cleanup c) a) = (tt, exec (call_cleanup c) a) /\
  disconnects (trace (exec (call_times (S k) c) a)) =
    disconnects (trace a) ++
    match nth_error (closures a) c with
    | Some cl => if done cl then [] else owned cl
    | None => []
    end /\
  let a1 := exec (_playSuperSawBass freq time dur cutoff) a in
  let osc1 := Voice (nextNode a) in
  let osc2 := Voice (S (nextNode a)) in
  let filter := Voice (S (S (nextNode a))) in
  let gain := Voice (S (S (S (nextNode a)))) in
  onended osc1 (trace a1) = onended osc2 (trace a1) /\
  disconnects (trace (exec (fire_ended osc1 ;; fire_ended osc2) a1)) =
    disconnects (trace a) ++ [osc1; osc2; filter; gain] /\
  disconnects (trace (exec (fire_ended osc2 ;; fire_ended osc1) a1)) =
    disconnects (trace a) ++ [osc1; osc2; filter; gain] /\
  disconnects (trace (exec (fire_ended osc1 ;; fire_ended osc2 ;;
                            fire_ended osc1 ;; fire_ended osc2) a1)) =
    disconnects (trace a) ++ [osc1; osc2; filter; gain].
Proof.
  split; [apply call_times_once|].
  split; [apply call_cleanup_idem|].
  split; [rewrite call_times_once; apply call_cleanup_disconnects|].
  intros a1 osc1 osc2 filter gain.
  destruct (bass_cleanup freq time dur cutoff a) as (H1 & H2 & Hc & Hd).
  fold a1 osc1 osc2 filter gain in H1, H2, Hc, Hd.
  set (cid := List.length (closures a)) in *.
  assert (Hrun : disconnects (trace (exec (call_cleanup cid) a1)) =
                 disconnects (trace a) ++ [osc1; osc2; filter; gain]).
  { rewrite call_cleanup_disconnects, Hc, Hd. reflexivity. }
  split; [rewrite H1, H2; reflexivity|].
  split; [rewrite (shared_cleanup osc1 osc2 cid a1 H1 H2); exact Hrun|].
  split; [rewrite (shared_cleanup osc2 osc1 cid a1 H2 H1); exact Hrun|].
  rewrite exec_seq, exec_seq.
  assert (E : exec (fire_ended osc1) a1 = exec (call_cleanup cid) a1).
  { unfold exec. rewrite (fire_ended_handler osc1 cid a1 H1). reflexivity. }
  assert (E2 : exec (fire_ended osc2) (exec (call_cleanup cid) a1) =
               exec (call_cleanup cid) a1).
  { unfold exec at 1. rewrite (fire_ended_handler osc2 cid).
    - rewrite call_cleanup_idem. reflexivity.
    - rewrite call_cleanup_onended. exact H2. }
  rewrite E, E2.
  rewrite shared_cleanup with (c := cid).
  - rewrite exec_cleanup_idem. exact Hrun.
  - rewrite call_cleanup_onended. exact H1.
  - rewrite call_cleanup_onended. exact H2.
Qed.

(** ** The scheduler loop *)

Lemma schedule_loop_eq (fuel : nat) (now : Q) (ba : BGM * Audio) :
  schedule_loop fuel now ba =
  if Qltb (nextNoteTime (fst ba)) (now + lookahead) then
    match fuel with
    | O => None
    | S f => schedule_loop f now (schedule_body ba)
    end
  else Some ba.
Proof. destruct fuel; reflexivity. Qed.

(** What every turn of the loop keeps, the loop keeps. *)
Lemma schedule_loop_keeps (P : BGM * Audio -> Prop) :
  (forall ba, P ba -> P (schedule_body ba)) ->
  forall fuel now ba ba',
    schedule_loop fuel now ba = Some ba' -> P ba -> P ba'.
Proof.
  intros Hbody fuel now. induction fuel as [|f IH]; intros ba ba' H HP;
    rewrite schedule_loop_eq in H;
    destruct (Qltb (nextNoteTime (fst ba)) (now + lookahead)).
  - discriminate.
  - injection H as <-. exact HP.
  - apply (IH _ _ H). apply Hbody. exact HP.
  - injection H as <-. exact HP.
Qed.

(** When the loop ends, the next note lies beyond the lookahead window. *)
Lemma schedule_loop_exit (fuel : nat) (now : Q) (ba ba' : BGM * Audio) :
  schedule_loop fuel now ba = Some ba' ->
  now + lookahead <= nextNoteTime (fst ba').
Proof.
  revert ba. induction fuel as [|f IH]; intros ba H;
    rewrite schedule_loop_eq in H;
    destruct (Qltb (nextNoteTime (fst ba)) (now + lookahead)) eqn:E;
    try discriminate; try (apply (IH _ H)).
  all: injection H as <-; apply Qnot_lt_le; intros Hlt;
    apply Qltb_lt in Hlt; congruence.
Qed.

(** With a positive note length the loop ends within [fuel] turns as soon
    as [fuel] note lengths reach the end of the lookahead window. *)
Lemma schedule_loop_total (fuel : nat) (now : Q) (ba : BGM * Audio) :
  0 < noteLength (fst ba) ->
  now + lookahead - nextNoteTime (fst ba)
    <= inject_Z (Z.of_nat fuel) * noteLength (fst ba) ->
  exists ba', schedule_loop fuel now ba = Some ba'.
Proof.
  revert ba. induction fuel as [|f IH]; intros ba Hnl Hd;
    rewrite schedule_loop_eq;
    destruct (Qltb (nextNoteTime (fst ba)) (now + lookahead)) eqn:E;
    try (eexists; reflexivity).
  - apply Qltb_lt in E. change (inject_Z (Z.of_nat 0)) with 0 in Hd. exfalso. lra.
  - apply IH.
    + destruct (body_frame ba) as (_ & -> & _). exact Hnl.
    + rewrite body_nextNoteTime. destruct (body_frame ba) as (_ & -> & _).
      rewrite Nat2Z.inj_succ in Hd. unfold Z.succ in Hd.
      rewrite inject_Z_plus in Hd. simpl inject_Z in Hd. 
      set (x := inject_Z (Z.of_nat f)) in *.
      set (nl := noteLength (fst ba)) in *.
      assert (Hx : (x + inject_Z 1) * nl == x * nl + nl) by (unfold inject_Z; ring).
      rewrite Hx in Hd. lra.
Qed.

Lemma schedule_fuel_enough (now : Q) (b : BGM) :
  0 < noteLength b ->
  now + lookahead - nextNoteTime b
    <= inject_Z (Z.of_nat (schedule_fuel now b)) * noteLength b.
Proof.
  intros Hnl. unfold schedule_fuel.
  set (d := now + lookahead - nextNoteTime b).
  set (c := Qceiling (d / noteLength b)).
  destruct (Z_le_dec 0 c) as [Hc|Hc].
  - rewrite Z2Nat.id by exact Hc.
    apply Qle_trans with (d / noteLength b * noteLength b).
    + assert (E : d / noteLength b * noteLength b == d).
      { field. intros H0. rewrite H0 in Hnl. apply (Qlt_irrefl _ Hnl). }
      rewrite E. apply Qle_refl.
    + apply Qmult_le_compat_r; [apply Qle_ceiling|apply Qlt_le_weak; exact Hnl].
  - replace (Z.to_nat c) with O by lia.
    change (inject_Z (Z.of_nat 0)) with 0.
    assert (Hneg : d / noteLength b <= inject_Z c) by apply Qle_ceiling.
    assert (Hc0 : inject_Z c <= 0).
    { change 0 with (inject_Z 0). rewrite <- Zle_Qle. lia. }
    assert (Hd : d / noteLength b <= 0) by (eapply Qle_trans; eassumption).
    apply Qle_trans with (d / noteLength b * noteLength b).
    + assert (E : d / noteLength b * noteLength b == d).
      { field. intros H0. rewrite H0 in Hnl. apply (Qlt_irrefl _ Hnl). }
      rewrite E. apply Qle_refl.
    + apply Qmult_le_compat_r; [exact Hd|apply Qlt_le_weak; exact Hnl].
Qed.

(** [_schedule] returns whenever the note length is positive. *)
Lemma _schedule_total (w : World) :
  0 < noteLength (this w) -> exists w', _schedule w = Some w'.
Proof.
  intros Hnl. unfold _schedule.
  destruct (schedule_loop_total (schedule_fuel (currentTime (env w)) (this w))
              (currentTime (env w)) (this w, audio w) Hnl
              (schedule_fuel_enough _ _ Hnl)) as [[b a] H].
  rewrite H. eexists. reflexivity.
Qed.

Lemma _schedule_env (w w' : World) : _schedule w = Some w' -> env w' = env w.
Proof.
  unfold _schedule.
  destruct (schedule_loop _ _ _) as [[b a]|]; [|discriminate].
  intros H. injection H as <-. reflexivity.
Qed.

Lemma _schedule_this (P : BGM -> Prop) (w w' : World) :
  (forall ba, P (fst ba) -> P (fst (schedule_body ba))) ->
  _schedule w = Some w' -> P (this w) -> P (this w').
Proof.
  intros Hbody. unfold _schedule.
  destruct (schedule_loop _ _ _) as [[b a]|] eqn:E; [|discriminate].
  intros H HP. injection H as <-. simpl.
  exact (schedule_loop_keeps (fun ba => P (fst ba)) Hbody _ _ _ _ E HP).
Qed.

(** ** Invariants of the engine *)

Lemma settled_postMessage (m : WorkerMsg) (e : Env) :
  settled (postMessage m e) = worker_onmessage m (settled e).
Proof. unfold settled, postMessage. simpl. rewrite fold_left_app. reflexivity. Qed.

Lemma settled_same (e e' : Env) :
  toWorker e' = toWorker e -> worker e' = worker e -> settled e' = settled e.
Proof. unfold settled. intros -> ->. reflexivity. Qed.

Lemma body_position (ba : BGM * Audio) :
  (0 <= tick (fst ba) < 16)%Z /\ (0 <= measure (fst ba))%Z ->
  (0 <= tick (fst (schedule_body ba)) < 16)%Z /\
  (0 <= measure (fst (schedule_body ba)))%Z.
Proof.
  intros [Ht Hm]. rewrite body_tick, body_measure.
  destruct (Z.geb_spec (tick (fst ba) + 1) 16); lia.
Qed.

Lemma Inv_constructor (rnd : nat -> Q) (t0 : Q) : Inv (constructor rnd t0).
Proof.
  unfold Inv, constructor. simpl. repeat split; try lia; reflexivity.
Qed.

Lemma Inv_step (w w' : World) (e : Event) :
  Inv w -> step w e = Some w' -> Inv w'.
Proof.
  intros (Hnl & Ht & Hm & Hw) H. destruct e; simpl in H.
  - (* start() *)
    injection H as <-. unfold start.
    destruct (isPlaying (this w)) eqn:Hp.
    + unfold Inv. rewrite Hp. auto.
    + unfold Inv. simpl. repeat split; try assumption; try lia.
      rewrite settled_postMessage. destruct Hw as [Hid Hiv]. simpl.
      rewrite Hiv. eexists. split; reflexivity.
  - (* stop() *)
    injection H as <-. unfold stop.
    destruct (isPlaying (this w)) eqn:Hp; simpl.
    + unfold Inv. simpl. repeat split; try assumption; try lia.
      * rewrite settled_postMessage. reflexivity.
      * rewrite settled_postMessage. destruct Hw as (i & Hid & Hiv). simpl.
        rewrite Hid, Hiv. simpl. rewrite Nat.eqb_refl. reflexivity.
    + unfold Inv. rewrite Hp. auto.
  - (* switchTrack(trackName) *)
    injection H as <-. unfold switchTrack.
    destruct (String.eqb (currentTrack (this w)) trackName).
    + unfold Inv. auto.
    + unfold Inv. simpl. repeat split; try assumption; try lia.
  - (* the deferred callback of switchTrack *)
    destruct (timeouts (env w)) as [|n rest]; [discriminate|].
    injection H as <-. unfold Inv, switchTrack_callback. simpl.
    repeat split; try lia.
    + destruct (String.eqb n "mainTheme"); reflexivity.
    + exact Hw.
  - (* the worker handles a message *)
    destruct (toWorker (env w)) as [|m rest] eqn:Hq; [discriminate|].
    injection H as <-. unfold Inv. simpl. repeat split; try assumption; try lia.
    unfold settled in Hw |- *. rewrite Hq in Hw. simpl in Hw |- *. exact Hw.
  - (* an interval of the worker fires *)
    destruct (intervals (worker (env w))); [discriminate|].
    injection H as <-. unfold Inv. simpl. repeat split; try assumption; try lia.
  - (* a pulse is delivered *)
    destruct (pulses (env w)) as [|k]; [discriminate|].
    pose proof (_schedule_env _ _ H) as He. simpl in He.
    assert (Hk : 0 < noteLength (this w') /\
                 ((0 <= tick (this w') < 16)%Z /\ (0 <= measure (this w'))%Z) /\
                 isPlaying (this w') = isPlaying (this w)).
    { refine (_schedule_this
                (fun b => 0 < noteLength b /\
                          ((0 <= tick b < 16)%Z /\ (0 <= measure b)%Z) /\
                          isPlaying b = isPlaying (this w))
                _ w' _ H _).
      - intros ba (H1 & H2 & H3). destruct (body_frame ba) as (_ & E1 & E2 & _).
        rewrite E1, E2. repeat split; try assumption; apply body_position; exact H2.
      - simpl. repeat split; try assumption; lia. }
    destruct Hk as (Hnl' & [Ht' Hm'] & Hp').
    unfold Inv. rewrite Hp', He. simpl. repeat split; try assumption; lia.
  - (* the render clock advances *)
    destruct (Qle_bool 0 d); [|discriminate].
    injection H as <-. unfold Inv. simpl. repeat split; try assumption; try lia.
  - (* a source ends *)
    injection H as <-. unfold Inv. simpl. repeat split; try assumption; try lia.
Qed.

Lemma Inv_run (es : list Event) (w w' : World) :
  Inv w -> run w es = Some w' -> Inv w'.
Proof.
  revert w. induction es as [|e es IH]; intros w HI H; simpl in H.
  - injection H as <-. exact HI.
  - destruct (step w e) as [w1|] eqn:E; [|discriminate].
    apply (IH w1); [apply (Inv_step w w1 e HI E)|exact H].
Qed.

Lemma reachable_Inv (w : World) : reachable w -> Inv w.
Proof.
  intros (rnd & t0 & es & H). apply (Inv_run es _ _ (Inv_constructor rnd t0) H).
Qed.

(** In every world the engine can be in, a delivered pulse is handled:
    the loop of [_schedule] ends. *)
Lemma pulse_is_handled (w : World) :
  reachable w -> pulses (env w) <> O -> exists w', step w PulseDelivered = Some w'.
Proof.
  intros Hr Hp. simpl. destruct (pulses (env w)) as [|k]; [congruence|].
  apply _schedule_total. simpl. apply (reachable_Inv w Hr).
Qed.

(** ** nextNoteTime along a run *)

Lemma body_next_grows (ba : BGM * Audio) :
  0 < noteLength (fst ba) ->
  nextNoteTime (fst ba) < nextNoteTime (fst (schedule_body ba)).
Proof. intros H. rewrite body_nextNoteTime. lra. Qed.

Lemma _schedule_next (w w' : World) :
  0 < noteLength (this w) -> _schedule w = Some w' ->
  nextNoteTime (this w) <= nextNoteTime (this w').
Proof.
  intros Hnl H.
  refine (proj1 (_schedule_this
            (fun b => nextNoteTime (this w) <= nextNoteTime b /\ 0 < noteLength b)
            w w' _ H _)).
  - intros ba [H1 H2]. destruct (body_frame ba) as (_ & E & _). rewrite E.
    split; [|exact H2].
    apply Qle_trans with (nextNoteTime (fst ba)); [exact H1|].
    apply Qlt_le_weak, body_next_grows. exact H2.
  - split; [apply Qle_refl|exact Hnl].
Qed.

(** C1 as stated fails.  The application calls start() and then
    switchTrack('mainTheme'), as the README shows, and later
    switchTrack('ambient'); the worker's pulses come every 25 ms (those
    that find nothing to schedule are left out) and each deferred
    callback runs 150 ms after its switchTrack().  When the first callback
    runs at 0.15 s, nextNoteTime drops from 0.334375 to 0.2.  When the
    second runs at 0.35 s, a bass voice already starts at 19/45 s; the
    next pulse then starts the ambient voices at 0.4 s. *)
Lemma C1_counterexample :
  let w0 := constructor (fun _ => 0.9) 0 in
  let first :=
    [CallStart; CallSwitchTrack "mainTheme"; WorkerReceives;
     ClockAdvances 0.025; IntervalFires; PulseDelivered;
     ClockAdvances 0.1; IntervalFires; PulseDelivered;
     ClockAdvances 0.025] in
  let second :=
    [TimeoutFires; IntervalFires; PulseDelivered;
     ClockAdvances 0.05; CallSwitchTrack "ambient";
     ClockAdvances 0.025; IntervalFires; PulseDelivered;
     ClockAdvances 0.1; IntervalFires; PulseDelivered;
     ClockAdvances 0.025; TimeoutFires; IntervalFires; PulseDelivered] in
  exists w1 w2 w3,
    run w0 first = Some w1 /\
    step w1 TimeoutFires = Some w2 /\
    nextNoteTime (this w2) < nextNoteTime (this w1) /\
    run w0 (first ++ second) = Some w3 /\
    map Qred (start_times (trace (audio w3))) =
      [0.1; 0.1; 0.1; 0.1; 139 # 640; 14 # 45; 14 # 45; 19 # 45; 19 # 45;
       2 # 5; 2 # 5; 2 # 5; 2 # 5] /\
    2 # 5 < 19 # 45.
Proof.
  intros w0 first second.
  eexists. eexists. eexists.
  split; [vm_compute; reflexivity|].
  split; [vm_compute; reflexivity|].
  split; [vm_compute; reflexivity|].
  split; [vm_compute; reflexivity|].
  split; [vm_compute; reflexivity|].
  reflexivity.
Qed.

(** ** The stopped engine *)

Lemma start_times_app (tr1 tr2 : list Call) :
  start_times (tr1 ++ tr2) = start_times tr1 ++ start_times tr2.
Proof. apply flat_map_app. Qed.

Lemma start_times_disconnects (nodes : list node) :
  start_times (map Disconnect nodes) = [].
Proof. unfold start_times. induction nodes as [|n rest IH]; simpl; auto. Qed.

(** A cleanup call creates no node and starts no source. *)
Lemma call_cleanup_quiet (c : nat) (a : Audio) :
  nextNode (exec (call_cleanup c) a) = nextNode a /\
  start_times (trace (exec (call_cleanup c) a)) = start_times (trace a).
Proof.
  destruct (nth_error (closures a) c) as [cl|] eqn:Hc.
  - destruct (done cl) eqn:Hd.
    + unfold exec. rewrite call_cleanup_done by (rewrite Hc; exact Hd). auto.
    + unfold exec. rewrite (call_cleanup_live c a cl Hc Hd). simpl.
      rewrite start_times_app, start_times_disconnects, app_nil_r. auto.
  - unfold exec. rewrite call_cleanup_done by (rewrite Hc; exact I). auto.
Qed.

Lemma fire_ended_quiet (n : node) (a : Audio) :
  nextNode (exec (fire_ended n) a) = nextNode a /\
  start_times (trace (exec (fire_ended n) a)) = start_times (trace a).
Proof.
  unfold exec, fire_ended. destruct (onended n (trace a)) as [c|]; [|auto].
  apply call_cleanup_quiet.
Qed.

(** While the engine is stopped and nothing is on its way, no event other
    than start() delivers a pulse or makes a voice. *)
Lemma quiet_step (w w' : World) (e : Event) :
  isPlaying (this w) = false -> quiescent (env w) ->
  e <> CallStart -> step w e = Some w' ->
  e <> IntervalFires /\ e <> PulseDelivered /\
  isPlaying (this w') = false /\ quiescent (env w') /\
  nextNode (audio w') = nextNode (audio w) /\
  start_times (trace (audio w')) = start_times (trace (audio w)).
Proof.
  intros Hp (Hq & Hi & Hn) He H. destruct e; simpl in H.
  - congruence.
  - injection H as <-. unfold stop. rewrite Hp. simpl.
    repeat split; try discriminate; assumption.
  - injection H as <-. unfold switchTrack.
    destruct (String.eqb (currentTrack (this w)) trackName); simpl.
    + repeat split; try discriminate; assumption.
    + repeat split; try discriminate; try assumption.
      rewrite !start_times_app. unfold start_times at 2 3. simpl.
      rewrite !app_nil_r. reflexivity.
  - destruct (timeouts (env w)); [discriminate|].
    injection H as <-. unfold switchTrack_callback. simpl.
    repeat split; try discriminate; try assumption.
    rewrite !start_times_app. unfold start_times at 2 3. simpl.
    rewrite !app_nil_r. reflexivity.
  - rewrite Hq in H. discriminate.
  - rewrite Hi in H. discriminate.
  - rewrite Hn in H. discriminate.
  - destruct (Qle_bool 0 d); [|discriminate].
    injection H as <-. simpl. repeat split; try discriminate; assumption.
  - injection H as <-. simpl.
    destruct (fire_ended_quiet n (audio w)) as [E1 E2].
    repeat split; try discriminate; assumption.
Qed.

Lemma quiet_run (es : list Event) (w w' : World) :
  isPlaying (this w) = false -> quiescent (env w) ->
  ~ In CallStart es -> run w es = Some w' ->
  ~ In IntervalFires es /\ ~ In PulseDelivered es /\
  isPlaying (this w') = false /\
  nextNode (audio w') = nextNode (audio w) /\
  start_times (trace (audio w')) = start_times (trace (audio w)).
Proof.
  revert w. induction es as [|e es IH]; intros w Hp Hq Hs H; simpl in H.
  - injection H as <-. repeat split; auto.
  - destruct (step w e) as [w1|] eqn:E; [|discriminate].
    assert (He : e <> CallStart) by (intros ->; apply Hs; left; reflexivity).
    destruct (quiet_step w w1 e Hp Hq He E) as (N1 & N2 & Hp1 & Hq1 & En & Es).
    destruct (IH w1 Hp1 Hq1 (fun Hin => Hs (or_intror Hin)) H)
      as (M1 & M2 & Hp' & En' & Es').
    repeat split.
    + intros [Hin|Hin]; [congruence|exact (M1 Hin)].
    + intros [Hin|Hin]; [congruence|exact (M2 Hin)].
    + exact Hp'.
    + rewrite En'. exact En.
    + rewrite Es'. exact Es.
Qed.

(** C9 (as the code has it): stop() posts 'stop' to the worker, which
    clears its interval.  Once the engine is stopped, the worker has
    handled that message and the pulses posted before have been delivered,
    the worker runs no interval, and as long as start() is not called no
    further pulse is posted or delivered: [_schedule] is not called, no
    node is created and no source is started. *)
Theorem C9_stopped_engine_is_quiet (w w' : World) (es : list Event) :
  reachable w -> isPlaying (this w) = false ->
  toWorker (env w) = [] -> pulses (env w) = O ->
  ~ In CallStart es -> run w es = Some w' ->
  intervals (worker (env w)) = [] /\
  ~ In IntervalFires es /\ ~ In PulseDelivered es /\
  isPlaying (this w') = false /\
  nextNode (audio w') = nextNode (audio w) /\
  start_times (trace (audio w')) = start_times (trace (audio w)).
Proof.
  intros Hr Hp Hq Hn Hs H.
  pose proof (reachable_Inv w Hr) as (_ & _ & _ & Hw).
  rewrite Hp in Hw. destruct Hw as [_ Hi].
  unfold settled in Hi. rewrite Hq in Hi. simpl in Hi.
  split; [exact Hi|].
  apply (quiet_run es w w' Hp); [repeat split; assumption|exact Hs|exact H].
Qed.

Lemma C9_stopped_engine_is_quiet_witness :
  let w := after (constructor (fun _ => 0.9) 0)
                 [CallStart; WorkerReceives; ClockAdvances 0.025; IntervalFires;
                  PulseDelivered; CallStop; WorkerReceives] in
  let es := [ClockAdvances 0.025; CallSwitchTrack "mainTheme"; ClockAdvances 0.15;
             TimeoutFires; Ended (Voice 0)] in
  let w' := after w es in
  intervals (worker (env w)) = [] /\
  ~ In IntervalFires es /\ ~ In PulseDelivered es /\
  isPlaying (this w') = false /\
  nextNode (audio w') = nextNode (audio w) /\
  start_times (trace (audio w')) = start_times (trace (audio w)).
Proof.
  intros w es w'. apply (C9_stopped_engine_is_quiet w w' es).
  - exists (fun _ => 0.9), 0,
      [CallStart; WorkerReceives; ClockAdvances 0.025; IntervalFires;
       PulseDelivered; CallStop; WorkerReceives].
    vm_compute. reflexivity.
  - vm_compute. reflexivity.
  - vm_compute. reflexivity.
  - vm_compute. reflexivity.
  - simpl. intros [H|[H|[H|[H|[H|H]]]]]; try discriminate; exact H.
  - vm_compute. reflexivity.
Defined.

(** C9 as stated fails: [_schedule] does not look at isPlaying.  The
    worker posts a pulse at 0.025 s; the application calls stop() before
    the engine handles it.  The engine is stopped and has built nothing;
    the pulse is then delivered and builds four voices (eight nodes)
    that start at 0.1 s. *)
Lemma C9_counterexample :
  let w0 := constructor (fun _ => 0.9) 0 in
  let es := [CallStart; WorkerReceives; ClockAdvances 0.025; IntervalFires; CallStop] in
  exists w w',
    run w0 es = Some w /\
    isPlaying (this w) = false /\
    nextNode (audio w) = 0%nat /\
    start_times (trace (audio w)) = [] /\
    step w PulseDelivered = Some w' /\
    isPlaying (this w') = false /\
    nextNode (audio w') = 8%nat /\
    start_times (trace (audio w')) = [0.1; 0.1; 0.1; 0.1].
Proof.
  intros w0 es. eexists. eexists.
  split; [vm_compute; reflexivity|].
  repeat split; vm_compute; reflexivity.
Qed.

(** ** stop() and start() *)

Lemma BGM_eta (b : BGM) :
  mkBGM (bpm b) (noteLength b) (isPlaying b) (nextNoteTime b) (tick b) (measure b)
        (currentTrack b) = b.
Proof. destruct b. reflexivity. Qed.

(** C10: stop() changes no field of the engine but isPlaying, and start()
    none but isPlaying and nextNoteTime; the only AudioParam either
    touches is the master gain, and neither creates a node, a cleanup
    closure or draws a random number.  (Besides, start() resumes the
    context, and each posts its message to the timer worker.)  So after
    stop() and then start() the engine is at the same tick of the same
    bar of the same track, with the same tempo and note length. *)
Theorem C10_stop_start_keeps_position (w : World) :
  let b := this w in
  let now := currentTime (env w) in
  this (stop w) =
    mkBGM (bpm b) (noteLength b) false (nextNoteTime b) (tick b) (measure b)
          (currentTrack b) /\
  audio (stop w) =
    mkAudio (trace (audio w) ++
             (if isPlaying b
              then [CancelScheduledValues (Gain Master) now;
                    SetTargetAtTime (Gain Master) 0 now 0.1]
              else []))
            (nextNode (audio w)) (closures (audio w)) (rng (audio w))
            (randPos (audio w)) /\
  env (stop w) = (if isPlaying b then postMessage MsgStop (env w) else env w) /\
  this (start w) =
    mkBGM (bpm b) (noteLength b) true
          (if isPlaying b then nextNoteTime b else now + 0.1)
          (tick b) (measure b) (currentTrack b) /\
  audio (start w) =
    mkAudio (trace (audio w) ++
             (if isPlaying b then []
              else [Resume;
                    CancelScheduledValues (Gain Master) now;
                    SetValueAtTime (Gain Master) 0 now;
                    SetTargetAtTime (Gain Master) (targetVol (currentTrack b)) now 0.3]))
            (nextNode (audio w)) (closures (audio w)) (rng (audio w))
            (randPos (audio w)) /\
  env (start w) = (if isPlaying b then env w else postMessage MsgStart (env w)) /\
  same_position b (this (stop w)) /\
  same_position b (this (start w)) /\
  same_position b (this (start (stop w))).
Proof.
  intros b now. unfold same_position, stop, start. subst b now.
  destruct (isPlaying (this w)) eqn:Hp; simpl; rewrite ?Hp; simpl;
    rewrite ?app_nil_r, ?audio_eta; repeat split;
    try (rewrite <- Hp; symmetry; apply BGM_eta);
    try (unfold exec, bind, emit; simpl; rewrite <- !app_assoc; reflexivity).
Qed.

(** In every world the engine can be in, the position is a sixteenth
    0..15 of a bar that is not negative. *)
Lemma position_in_range (w : World) :
  reachable w -> (0 <= tick (this w) < 16)%Z /\ (0 <= measure (this w))%Z.
Proof.
  intros Hr. destruct (reachable_Inv w Hr) as (_ & Ht & Hm & _). split; assumption.
Qed.


(** * Further properties of the engine *)

(** ** The scheduler's window *)

(** What a turn keeps while the loop's test holds, the loop keeps. *)
Lemma schedule_loop_inv (now : Q) (P : BGM * Audio -> Prop) :
  (forall ba, P ba -> nextNoteTime (fst ba) < now + lookahead -> P (schedule_body ba)) ->
  forall fuel ba ba',
    schedule_loop fuel now ba = Some ba' -> P ba -> P ba'.
Proof.
  intros Hbody fuel. induction fuel as [|f IH]; intros ba ba' H HP;
    rewrite schedule_loop_eq in H;
    destruct (Qltb (nextNoteTime (fst ba)) (now + lookahead)) eqn:E.
  - discriminate.
  - injection H as <-. exact HP.
  - apply (IH _ _ H). apply Hbody; [exact HP|apply Qltb_lt; exact E].
  - injection H as <-. exact HP.
Qed.

(** The loop is some number of turns of its body. *)
Lemma schedule_loop_iter (fuel : nat) (now : Q) (ba ba' : BGM * Audio) :
  schedule_loop fuel now ba = Some ba' ->
  exists k, ba' = Nat.iter k schedule_body ba.
Proof.
  revert ba. induction fuel as [|f IH]; intros ba H;
    rewrite schedule_loop_eq in H;
    destruct (Qltb (nextNoteTime (fst ba)) (now + lookahead)).
  - discriminate.
  - injection H as <-. exists O. reflexivity.
  - destruct (IH _ H) as [k Hk]. exists (S k). rewrite Nat.iter_succ_r. exact Hk.
  - injection H as <-. exists O. reflexivity.
Qed.

Lemma iter_noteLength (k : nat) (ba : BGM * Audio) :
  noteLength (fst (Nat.iter k schedule_body ba)) = noteLength (fst ba).
Proof.
  induction k as [|k IH]; [reflexivity|].
  rewrite Nat.iter_succ. destruct (body_frame (Nat.iter k schedule_body ba)) as (_ & E & _).
  rewrite E. exact IH.
Qed.

Lemma iter_nextNoteTime (k : nat) (ba : BGM * Audio) :
  nextNoteTime (fst (Nat.iter k schedule_body ba)) ==
  nextNoteTime (fst ba) + inject_Z (Z.of_nat k) * noteLength (fst ba).
Proof.
  induction k as [|k IH].
  - simpl. change (inject_Z 0) with 0. ring.
  - rewrite Nat.iter_succ, body_nextNoteTime, IH, iter_noteLength.
    rewrite Nat2Z.inj_succ. unfold Z.succ. rewrite inject_Z_plus.
    change (inject_Z 1) with 1. ring.
Qed.

(** X1: with a positive note length a pulse is always handled; afterwards
    the next note lies at or beyond the end of the lookahead window, and
    either nothing was due and the engine and the audio state are as
    before, or the last note scheduled began inside the window.  A second
    pulse at the same clock changes nothing. *)
Theorem schedule_fills_window (w : World) :
  0 < noteLength (this w) ->
  exists w',
    _schedule w = Some w' /\
    env w' = env w /\
    currentTime (env w) + lookahead <= nextNoteTime (this w') /\
    (this w' = this w /\ audio w' = audio w \/
     nextNoteTime (this w') < currentTime (env w) + lookahead + noteLength (this w)) /\
    _schedule w' = Some w'.
Proof.
  intros Hnl. destruct (_schedule_total w Hnl) as [w' H]. exists w'.
  pose proof (_schedule_env _ _ H) as He.
  assert (Hexit : currentTime (env w) + lookahead <= nextNoteTime (this w')).
  { unfold _schedule in H.
    destruct (schedule_loop _ _ _) as [[b a]|] eqn:E; [|discriminate].
    injection H as <-. apply (schedule_loop_exit _ _ _ _ E). }
  split; [exact H|]. split; [exact He|]. split; [exact Hexit|]. split.
  - unfold _schedule in H.
    destruct (schedule_loop _ _ _) as [[b a]|] eqn:E; [|discriminate].
    injection H as <-. simpl.
    assert (Hd : ((b, a) = (this w, audio w) \/
                  nextNoteTime (fst (b, a))
                    < currentTime (env w) + lookahead + noteLength (this w)) /\
                 noteLength (fst (b, a)) = noteLength (this w)).
    { refine (schedule_loop_inv (currentTime (env w))
                (fun ba => (ba = (this w, audio w) \/
                            nextNoteTime (fst ba)
                              < currentTime (env w) + lookahead + noteLength (this w)) /\
                           noteLength (fst ba) = noteLength (this w))
                _ _ _ _ E _).
      - intros ba [_ Hn] Hlt. destruct (body_frame ba) as (_ & En & _).
        split; [right|rewrite En; exact Hn].
        rewrite body_nextNoteTime, Hn. lra.
      - split; [left; reflexivity|reflexivity]. }
    destruct Hd as [[Hd|Hd] _]; [left|right; exact Hd].
    injection Hd as -> ->. split; reflexivity.
  - unfold _schedule. rewrite schedule_loop_eq. simpl fst.
    destruct (Qltb (nextNoteTime (this w')) (currentTime (env w') + lookahead)) eqn:E.
    + apply Qltb_lt in E. rewrite He in E. exfalso. lra.
    + destruct w'. reflexivity.
Qed.

Lemma schedule_fills_window_witness :
  let w := after (constructor (fun _ => 0.5) 0) [CallStart; ClockAdvances 0.3] in
  exists w',
    _schedule w = Some w' /\
    env w' = env w /\
    currentTime (env w) + lookahead <= nextNoteTime (this w') /\
    (this w' = this w /\ audio w' = audio w \/
     nextNoteTime (this w') < currentTime (env w) + lookahead + noteLength (this w)) /\
    _schedule w' = Some w'.
Proof.
  intros w. apply (schedule_fills_window w). vm_compute. reflexivity.
Defined.

(** X2: a pulse skips no sixteenth: it runs some number k of turns, moves
    nextNoteTime forward by k note lengths and the position forward by the
    same k sixteenths, however late the pulse is. *)
Theorem schedule_skips_nothing (w w' : World) :
  (0 <= tick (this w) < 16)%Z ->
  _schedule w = Some w' ->
  exists k : nat,
    nextNoteTime (this w') ==
      nextNoteTime (this w) + inject_Z (Z.of_nat k) * noteLength (this w) /\
    tick (this w') = ((tick (this w) + Z.of_nat k) mod 16)%Z /\
    measure (this w') = (measure (this w) + (tick (this w) + Z.of_nat k) / 16)%Z.
Proof.
  intros Ht H. unfold _schedule in H.
  destruct (schedule_loop _ _ _) as [[b a]|] eqn:E; [|discriminate].
  injection H as <-. simpl.
  destruct (schedule_loop_iter _ _ _ _ E) as [k Hk]. exists k.
  pose proof (iter_nextNoteTime k (this w, audio w)) as Hn.
  pose proof (body_iter_position k (this w, audio w) Ht) as [Hp Hm].
  rewrite <- Hk in Hn, Hp, Hm. simpl in Hn, Hp, Hm.
  split; [exact Hn|]. split; assumption.
Qed.

Lemma schedule_skips_nothing_witness :
  let w := after (constructor (fun _ => 0.5) 0) [CallStart; ClockAdvances 2] in
  let w' := match _schedule w with Some x => x | None => w end in
  exists k : nat,
    nextNoteTime (this w') ==
      nextNoteTime (this w) + inject_Z (Z.of_nat k) * noteLength (this w) /\
    tick (this w') = ((tick (this w) + Z.of_nat k) mod 16)%Z /\
    measure (this w') = (measure (this w) + (tick (this w) + Z.of_nat k) / 16)%Z.
Proof.
  intros w w'. apply (schedule_skips_nothing w w').
  - vm_compute. split; [discriminate|reflexivity].
  - vm_compute. reflexivity.
Defined.

(** ** Tempo and the timer worker *)

Lemma Tempo_step (w w' : World) (e : Event) :
  Tempo_inv (this w) -> step w e = Some w' -> Tempo_inv (this w').
Proof.
  intros HT H. destruct e; simpl in H.
  - injection H as <-. unfold start. destruct (isPlaying (this w)); exact HT.
  - injection H as <-. unfold stop. destruct (isPlaying (this w)); exact HT.
  - injection H as <-. unfold switchTrack.
    destruct (String.eqb (currentTrack (this w)) trackName); exact HT.
  - destruct (timeouts (env w)) as [|n rest]; [discriminate|].
    injection H as <-. unfold Tempo_inv, switchTrack_callback. simpl.
    split; [reflexivity|].
    destruct (String.eqb_spec n "mainTheme") as [->|Hn].
    + right. left. split; reflexivity.
    + right. right. split; [reflexivity|exact Hn].
  - destruct (toWorker (env w)); [discriminate|]. injection H as <-. exact HT.
  - destruct (intervals (worker (env w))); [discriminate|]. injection H as <-. exact HT.
  - destruct (pulses (env w)); [discriminate|].
    assert (HE : noteLength (this w') = noteLength (this w) /\
                 bpm (this w') = bpm (this w) /\
                 currentTrack (this w') = currentTrack (this w)).
    { refine (_schedule_this
                (fun b => noteLength b = noteLength (this w) /\ bpm b = bpm (this w) /\
                          currentTrack b = currentTrack (this w))
                (mkWorld (this w) (audio w) _) w' _ H _).
      - intros ba (H1 & H2 & H3). destruct (body_frame ba) as (F1 & F2 & _ & F4).
        rewrite F1, F2, F4. auto.
      - simpl. auto. }
    destruct HE as (E1 & E2 & E3).
    unfold Tempo_inv. rewrite E1, E2, E3. exact HT.
  - destruct (Qle_bool 0 d); [|discriminate]. injection H as <-. exact HT.
  - injection H as <-. exact HT.
Qed.

(** X3: in every world the engine can be in, noteLength is 60 / bpm / 4,
    and the tempo is 128 on the initial ambient track, 135 on mainTheme
    and 90 on any other track switched to. *)
Theorem tempo_is_consistent (w : World) :
  reachable w -> Tempo_inv (this w).
Proof.
  intros (rnd & t0 & es & H).
  assert (H0 : Tempo_inv (this (constructor rnd t0))).
  { unfold Tempo_inv. simpl. split; [reflexivity|]. left. split; reflexivity. }
  revert H H0. generalize (constructor rnd t0). clear rnd t0.
  induction es as [|e es IH]; intros w0 H H0; simpl in H.
  - injection H as <-. exact H0.
  - destruct (step w0 e) as [w1|] eqn:E; [|discriminate].
    apply (IH w1 H). apply (Tempo_step w0 w1 e H0 E).
Qed.

Lemma tempo_is_consistent_witness :
  Tempo_inv (this (after (constructor (fun _ => 0.5) 0)
                         [CallSwitchTrack "boss"; ClockAdvances 0.15; TimeoutFires])).
Proof.
  apply tempo_is_consistent.
  exists (fun _ => 0.5), 0, [CallSwitchTrack "boss"; ClockAdvances 0.15; TimeoutFires].
  vm_compute. reflexivity.
Defined.

Lemma alternating_snoc (armed : bool) (q : list WorkerMsg) (m : WorkerMsg) :
  alternating armed q ->
  armed_after armed q = match m with MsgStart => false | MsgStop => true end ->
  alternating armed (q ++ [m]).
Proof.
  revert armed. induction q as [|x q IH]; intros armed Ha He; simpl in *.
  - unfold armed_after in He. simpl in He. destruct m; auto.
  - destruct x; destruct Ha as [-> Ha]; (split; [reflexivity|]);
      apply IH; assumption.
Qed.

Lemma armed_after_snoc (armed : bool) (q : list WorkerMsg) (m : WorkerMsg) :
  armed_after armed (q ++ [m]) = match m with MsgStart => true | MsgStop => false end.
Proof. unfold armed_after. rewrite fold_left_app. reflexivity. Qed.

Lemma Worker_step (w w' : World) (e : Event) :
  Worker_inv w -> step w e = Some w' -> Worker_inv w'.
Proof.
  intros (Hk & Ha & Hp) H. destruct e; simpl in H.
  - injection H as <-. unfold start. destruct (isPlaying (this w)) eqn:Ep.
    + unfold Worker_inv. rewrite Ep. auto.
    + unfold Worker_inv. simpl. repeat split; [exact Hk| |apply armed_after_snoc].
      apply alternating_snoc; assumption.
  - injection H as <-. unfold stop. destruct (isPlaying (this w)) eqn:Ep; simpl.
    + unfold Worker_inv. simpl. repeat split; [exact Hk| |apply armed_after_snoc].
      apply alternating_snoc; assumption.
    + unfold Worker_inv. rewrite Ep. auto.
  - injection H as <-. unfold switchTrack.
    destruct (String.eqb (currentTrack (this w)) trackName); unfold Worker_inv; auto.
  - destruct (timeouts (env w)); [discriminate|]. injection H as <-.
    unfold Worker_inv. simpl. auto.
  - destruct (toWorker (env w)) as [|m rest] eqn:Eq; [discriminate|].
    injection H as <-. unfold Worker_inv. simpl.
    unfold worker_ok, worker_armed in *. simpl in Ha, Hp.
    destruct m; destruct Ha as [Harm Ha]; simpl.
    + destruct (worker_id (worker (env w))); [discriminate|].
      rewrite Hk. repeat split; assumption.
    + destruct (worker_id (worker (env w))) as [i|]; [|discriminate].
      rewrite Hk. simpl. rewrite Nat.eqb_refl. repeat split; assumption.
  - destruct (intervals (worker (env w))); [discriminate|]. injection H as <-.
    unfold Worker_inv. simpl. auto.
  - destruct (pulses (env w)); [discriminate|].
    pose proof (_schedule_env _ _ H) as He. simpl in He.
    assert (Ep : isPlaying (this w') = isPlaying (this w)).
    { refine (_schedule_this (fun b => isPlaying b = isPlaying (this w))
                (mkWorld (this w) (audio w) _) w' _ H _).
      - intros ba Hb. destruct (body_frame ba) as (_ & _ & F & _). rewrite F. exact Hb.
      - reflexivity. }
    unfold Worker_inv. rewrite He, Ep. simpl. auto.
  - destruct (Qle_bool 0 d); [|discriminate]. injection H as <-.
    unfold Worker_inv. simpl. auto.
  - injection H as <-. unfold Worker_inv. simpl. auto.
Qed.

Lemma Worker_reachable (w : World) : reachable w -> Worker_inv w.
Proof.
  intros (rnd & t0 & es & H).
  assert (H0 : Worker_inv (constructor rnd t0)).
  { unfold Worker_inv, worker_ok. simpl. auto. }
  revert H H0. generalize (constructor rnd t0). clear rnd t0.
  induction es as [|e es IH]; intros w0 H H0; simpl in H.
  - injection H as <-. exact H0.
  - destruct (step w0 e) as [w1|] eqn:E; [|discriminate].
    apply (IH w1 H). apply (Worker_step w0 w1 e H0 E).
Qed.

(** X4: the worker never runs two intervals at once, whatever the calls
    of start() and stop() and however late it handles their messages: its
    running intervals are exactly the one its [id] names, or none. *)
Theorem worker_runs_one_interval (w : World) :
  reachable w ->
  (List.length (intervals (worker (env w))) <= 1)%nat /\
  intervals (worker (env w)) =
    match worker_id (worker (env w)) with
    | Some i => [i]
    | None => []
    end.
Proof.
  intros Hr. destruct (Worker_reachable w Hr) as (Hk & _).
  unfold worker_ok in Hk. split.
  - destruct (worker_id (worker (env w))); rewrite Hk; simpl; lia.
  - destruct (worker_id (worker (env w))); exact Hk.
Qed.

Lemma worker_runs_one_interval_witness :
  let w := after (constructor (fun _ => 0.5) 0)
                 [CallStart; CallStop; CallStart; WorkerReceives; WorkerReceives;
                  WorkerReceives] in
  (List.length (intervals (worker (env w))) <= 1)%nat /\
  intervals (worker (env w)) =
    match worker_id (worker (env w)) with
    | Some i => [i]
    | None => []
    end.
Proof.
  intros w. apply (worker_runs_one_interval w).
  exists (fun _ => 0.5), 0,
    [CallStart; CallStop; CallStart; WorkerReceives; WorkerReceives; WorkerReceives].
  vm_compute. reflexivity.
Defined.

(** ** switchTrack(), start() and stop() composed *)

(** X5: switchTrack() compares with the current track, not with a switch
    that is pending.  Asking for [n] and then, before the deferred
    callback has run, for the track still current makes one callback
    only, and the engine ends on [n] at tick 0 of bar 0; asking for [n]
    twice makes two callbacks.  The switch leaves isPlaying as it was. *)
Theorem switch_back_is_lost (w : World) (n : string) :
  currentTrack (this w) <> n -> timeouts (env w) = [] ->
  timeouts (env (switchTrack n (switchTrack n w))) = [n; n] /\
  exists w',
    run w [CallSwitchTrack n; CallSwitchTrack (currentTrack (this w)); TimeoutFires]
      = Some w' /\
    currentTrack (this w') = n /\ tick (this w') = 0%Z /\ measure (this w') = 0%Z /\
    isPlaying (this w') = isPlaying (this w) /\ timeouts (env w') = [].
Proof.
  intros Hn Ht.
  assert (E : String.eqb (currentTrack (this w)) n = false)
    by (apply String.eqb_neq; exact Hn).
  assert (E1 : switchTrack n w =
               mkWorld (this w)
                 (exec (emit (CancelScheduledValues (Gain Master) (currentTime (env w))) ;;
                        emit (SetTargetAtTime (Gain Master) 0 (currentTime (env w))
                                (FADE / 3)))
                       (audio w))
                 (setTimeout n (env w))).
  { unfold switchTrack. rewrite E. reflexivity. }
  split.
  - rewrite E1. unfold switchTrack. cbn [this]. rewrite E. cbn [env setTimeout timeouts].
    rewrite Ht. reflexivity.
  - cbn [run step]. rewrite E1.
    assert (E2 : forall a e, switchTrack (currentTrack (this w)) (mkWorld (this w) a e)
                             = mkWorld (this w) a e).
    { intros a e. unfold switchTrack. cbn [this]. rewrite String.eqb_refl. reflexivity. }
    rewrite E2. cbn [env setTimeout timeouts]. rewrite Ht. cbn [app].
    eexists. split; [reflexivity|]. cbn. repeat split.
Qed.

Lemma switch_back_is_lost_witness :
  let w := after (constructor (fun _ => 0.5) 0) [CallStart] in
  timeouts (env (switchTrack "mainTheme" (switchTrack "mainTheme" w)))
    = ["mainTheme"; "mainTheme"] /\
  exists w',
    run w [CallSwitchTrack "mainTheme"; CallSwitchTrack (currentTrack (this w));
           TimeoutFires] = Some w' /\
    currentTrack (this w') = "mainTheme" /\ tick (this w') = 0%Z /\
    measure (this w') = 0%Z /\
    isPlaying (this w') = isPlaying (this w) /\ timeouts (env w') = [].
Proof.
  intros w. apply (switch_back_is_lost w "mainTheme").
  - vm_compute. discriminate.
  - vm_compute. reflexivity.
Defined.

(** ** What a run keeps of the audio state *)

Section Kept.

Variable P : Audio -> Prop.
Hypothesis K : kept P.

Lemma kept_kick : forall t a, P a -> P (exec (_playKick t) a).
Proof. exact (proj1 K). Qed.

Lemma kept_snare : forall t a, P a -> P (exec (_playSnare t) a).
Proof. exact (proj1 (proj2 K)). Qed.

Lemma kept_hihat : forall t o a, P a -> P (exec (_playHihat t o) a).
Proof. exact (proj1 (proj2 (proj2 K))). Qed.

Lemma kept_bass :
  forall f t d c a, 0 < d -> P a -> P (exec (_playSuperSawBass f t d c) a).
Proof. exact (proj1 (proj2 (proj2 (proj2 K)))). Qed.

Lemma kept_lead : forall f t d v a, 0 < d -> P a -> P (exec (_playFMLead f t d v) a).
Proof. exact (proj1 (proj2 (proj2 (proj2 (proj2 K))))). Qed.

Lemma kept_synth : forall f t d ty a, 0 < d -> P a -> P (exec (_playSynth f t d ty) a).
Proof. exact (proj1 (proj2 (proj2 (proj2 (proj2 (proj2 K)))))). Qed.

Lemma kept_random : forall a, P a -> P (snd (random a)).
Proof. exact (proj1 (proj2 (proj2 (proj2 (proj2 (proj2 (proj2 K))))))). Qed.

Lemma kept_cleanup : forall c a, P a -> P (exec (call_cleanup c) a).
Proof. exact (proj1 (proj2 (proj2 (proj2 (proj2 (proj2 (proj2 (proj2 K)))))))). Qed.

Lemma kept_resume : forall a, P a -> P (exec (emit Resume) a).
Proof. exact (proj1 (proj2 (proj2 (proj2 (proj2 (proj2 (proj2 (proj2 (proj2 K))))))))). Qed.

Lemma kept_cancel :
  forall t a, P a -> P (exec (emit (CancelScheduledValues (Gain Master) t)) a).
Proof. exact (proj1 (proj2 (proj2 (proj2 (proj2 (proj2 (proj2 (proj2 (proj2 (proj2 K)))))))))). Qed.

Lemma kept_set :
  forall v t a, P a -> P (exec (emit (SetValueAtTime (Gain Master) v t)) a).
Proof. exact (proj1 (proj2 (proj2 (proj2 (proj2 (proj2 (proj2 (proj2 (proj2 (proj2 (proj2 K))))))))))). Qed.

Lemma kept_target :
  forall v t tc a, P a -> P (exec (emit (SetTargetAtTime (Gain Master) v t tc)) a).
Proof. exact (proj2 (proj2 (proj2 (proj2 (proj2 (proj2 (proj2 (proj2 (proj2 (proj2 (proj2 K))))))))))). Qed.

End Kept.

Lemma kept_when (P : Audio -> Prop) (c : bool) (m : M unit) (a : Audio) :
  (P a -> P (exec m a)) -> P a -> P (exec (when c m) a).
Proof. intros H HP. rewrite exec_when. destruct c; auto. Qed.

Lemma kept_ambient (P : Audio -> Prop) (this : BGM) (time : Q) (t b : Z) (a : Audio) :
  kept P -> 0 < noteLength this ->
  P a -> P (exec (_playAmbientPattern this time t b) a).
Proof.
  intros K Hnl HP. unfold _playAmbientPattern.
  assert (H32 : 0 < noteLength this * 32) by lra.
  assert (H3 : 0 < noteLength this * 3) by lra.
  rewrite !exec_seq.
  set (a1 := exec (when _ _) a).
  assert (P1 : P a1).
  { apply kept_when; [|exact HP]. intros Q0. rewrite exec_seq.
    apply (kept_synth P K); [exact H32|]. apply (kept_synth P K); assumption. }
  set (a2 := exec (when _ _) a1).
  assert (P2 : P a2).
  { apply kept_when; [|exact P1]. apply (kept_synth P K). exact H3. }
  rewrite exec_bind.
  pose proof (kept_random P K a2 P2) as P3.
  destruct (Qlt_le_dec 0.85 (fst (random a2))); [|exact P3].
  rewrite exec_bind. apply (kept_synth P K); [reflexivity|].
  apply (kept_random P K). exact P3.
Qed.

Lemma kept_drums (P : Audio -> Prop) (time : Q) (t b : Z) (a : Audio) :
  kept P -> P a -> P (exec (_playDrums time t b) a).
Proof.
  intros K HP. unfold _playDrums.
  destruct (b <? range_start (SECTIONS VERSE))%Z; [exact HP|].
  rewrite !exec_seq.
  apply kept_when; [apply (kept_hihat P K)|].
  assert (P1 : P (exec (when (negb (in_section BREAKDOWN b) && (Z.rem t 4 =? 0)%Z)
                          (_playKick time)) a)).
  { apply kept_when; [apply (kept_kick P K)|exact HP]. }
  destruct (in_section BUILD b); [|destruct (negb (in_section BREAKDOWN b))].
  - apply kept_when; [apply (kept_snare P K)|exact P1].
  - apply kept_when; [apply (kept_snare P K)|exact P1].
  - exact P1.
Qed.

Lemma kept_bass_part (P : Audio -> Prop) (this : BGM) (time : Q) (t b : Z) (a : Audio) :
  kept P -> 0 < noteLength this -> P a -> P (exec (_playBass this time t b) a).
Proof.
  intros K Hnl HP. unfold _playBass.
  apply kept_when; [|exact HP]. apply (kept_bass P K). exact Hnl.
Qed.

Lemma kept_lead_part (P : Audio -> Prop) (this : BGM) (time : Q) (t b : Z) (a : Audio) :
  kept P -> 0 < noteLength this -> P a -> P (exec (_playLead this time t b) a).
Proof.
  intros K Hnl HP. unfold _playLead.
  assert (H2 : 0 < noteLength this * 2) by lra.
  destruct (in_section CHORUS b || from_start OUTRO b).
  - destruct (js_get melody t) as [d|]; [destruct (d =? -1)%Z|].
    + exact HP.
    + apply (kept_lead P K); assumption.
    + apply (kept_lead P K); assumption.
  - destruct (in_section BREAKDOWN b && (Z.rem t 4 =? 0)%Z); [|exact HP].
    rewrite exec_bind, exec_bind. apply (kept_lead P K); [reflexivity|].
    apply (kept_random P K). apply (kept_random P K). exact HP.
Qed.

Lemma kept_body (P : Audio -> Prop) (ba : BGM * Audio) :
  kept P -> 0 < noteLength (fst ba) -> P (snd ba) -> P (snd (schedule_body ba)).
Proof.
  intros K Hnl HP. destruct ba as [b a]. simpl in Hnl, HP. unfold schedule_body.
  assert (HP' : P (if String.eqb (currentTrack b) "mainTheme"
                   then exec (_playMainThemePattern b (nextNoteTime b) (tick b) (measure b)) a
                   else exec (_playAmbientPattern b (nextNoteTime b) (tick b) (measure b)) a)).
  { destruct (String.eqb (currentTrack b) "mainTheme").
    - unfold _playMainThemePattern. rewrite !exec_seq.
      apply kept_lead_part; [exact K|exact Hnl|].
      apply kept_bass_part; [exact K|exact Hnl|].
      apply kept_drums; assumption.
    - apply kept_ambient; assumption. }
  destruct (tick b + 1 >=? 16)%Z; exact HP'.
Qed.

Lemma kept_schedule (P : Audio -> Prop) (w w' : World) :
  kept P -> 0 < noteLength (this w) ->
  _schedule w = Some w' -> P (audio w) -> P (audio w').
Proof.
  intros K Hnl H HP. unfold _schedule in H.
  destruct (schedule_loop _ _ _) as [[b a]|] eqn:E; [|discriminate].
  injection H as <-. simpl.
  refine (proj1 (schedule_loop_keeps
                   (fun ba => P (snd ba) /\ 0 < noteLength (fst ba)) _ _ _ _ _ E _)).
  - intros ba [H1 H2]. split; [apply kept_body; assumption|].
    destruct (body_frame ba) as (_ & F & _). rewrite F. exact H2.
  - split; assumption.
Qed.

Lemma kept_step (P : Audio -> Prop) (w w' : World) (e : Event) :
  kept P -> 0 < noteLength (this w) ->
  step w e = Some w' -> P (audio w) -> P (audio w').
Proof.
  intros K Hnl H HP. destruct e; simpl in H.
  - injection H as <-. unfold start. destruct (isPlaying (this w)); [exact HP|].
    simpl. rewrite !exec_seq.
    apply (kept_target P K), (kept_set P K), (kept_cancel P K), (kept_resume P K).
    exact HP.
  - injection H as <-. unfold stop. destruct (isPlaying (this w)); [|exact HP].
    simpl. rewrite !exec_seq. apply (kept_target P K), (kept_cancel P K). exact HP.
  - injection H as <-. unfold switchTrack.
    destruct (String.eqb (currentTrack (this w)) trackName); [exact HP|].
    simpl. rewrite !exec_seq. apply (kept_target P K), (kept_cancel P K). exact HP.
  - destruct (timeouts (env w)); [discriminate|]. injection H as <-.
    unfold switchTrack_callback. simpl. rewrite !exec_seq.
    apply (kept_target P K), (kept_cancel P K). exact HP.
  - destruct (toWorker (env w)); [discriminate|]. injection H as <-. exact HP.
  - destruct (intervals (worker (env w))); [discriminate|]. injection H as <-. exact HP.
  - destruct (pulses (env w)); [discriminate|].
    exact (kept_schedule P (mkWorld (this w) (audio w) _) w' K Hnl H HP).
  - destruct (Qle_bool 0 d); [|discriminate]. injection H as <-. exact HP.
  - injection H as <-. simpl. unfold exec, fire_ended.
    destruct (onended n (trace (audio w))) as [c|]; [|exact HP].
    apply (kept_cleanup P K). exact HP.
Qed.

(** What the builders and the transport keep holds in every world the
    engine can be in, if it holds of the empty audio state. *)
Lemma kept_reachable (P : Audio -> Prop) (w : World) :
  kept P -> (forall rnd, P (mkAudio [] 0 [] rnd 0)) ->
  reachable w -> P (audio w).
Proof.
  intros K H0 (rnd & t0 & es & H).
  pose proof (Inv_constructor rnd t0) as HI.
  assert (HP : P (audio (constructor rnd t0))) by apply H0.
  revert H HI HP. generalize (constructor rnd t0). clear rnd t0.
  induction es as [|e es IH]; intros w0 H HI HP; simpl in H.
  - injection H as <-. exact HP.
  - destruct (step w0 e) as [w1|] eqn:E; [|discriminate].
    apply (IH w1 H).
    + apply (Inv_step w0 w1 e HI E).
    + apply (kept_step P w0 w1 e K (proj1 HI) E HP).
Qed.

Arguments started : simpl never.
Arguments stopped : simpl never.
Arguments exp_targets : simpl never.
Arguments all_beats : simpl never.

Lemma started_snoc (tr : list Call) (c : Call) :
  started (tr ++ [c]) = started tr ++ match c with Start n _ => [n] | _ => [] end.
Proof. unfold started. rewrite flat_map_app. simpl. rewrite app_nil_r. reflexivity. Qed.

Lemma stopped_snoc (tr : list Call) (c : Call) :
  stopped (tr ++ [c]) = stopped tr ++ match c with Stop n _ => [n] | _ => [] end.
Proof. unfold stopped. rewrite flat_map_app. simpl. rewrite app_nil_r. reflexivity. Qed.

Lemma exp_targets_snoc (tr : list Call) (c : Call) :
  exp_targets (tr ++ [c]) =
  exp_targets tr ++ match c with
                    | ExponentialRampToValueAtTime _ v _ => [v]
                    | _ => []
                    end.
Proof. unfold exp_targets. rewrite flat_map_app. simpl. rewrite app_nil_r. reflexivity. Qed.

Lemma all_beats_snoc (tr : list Call) (c : Call) :
  all_beats (tr ++ [c]) =
  all_beats tr ++ match c with OnBeat t g => [(t, g)] | _ => [] end.
Proof. unfold all_beats. rewrite flat_map_app. simpl. rewrite app_nil_r. reflexivity. Qed.

(** A cleanup call adds disconnects to the trace and nothing else. *)
Lemma call_cleanup_trace (c : nat) (a : Audio) :
  exists nodes, trace (exec (call_cleanup c) a) = trace a ++ map Disconnect nodes.
Proof.
  destruct (nth_error (closures a) c) as [cl|] eqn:Hc.
  - destruct (done cl) eqn:Hd.
    + exists []. unfold exec. rewrite call_cleanup_done by (rewrite Hc; exact Hd).
      simpl. rewrite app_nil_r. reflexivity.
    + exists (owned cl). unfold exec. rewrite (call_cleanup_live c a cl Hc Hd). reflexivity.
  - exists []. unfold exec. rewrite call_cleanup_done by (rewrite Hc; exact I).
    simpl. rewrite app_nil_r. reflexivity.
Qed.

Lemma observe_disconnects {A : Type} (f : Call -> list A) (tr : list Call)
    (nodes : list node) :
  (forall n, f (Disconnect n) = []) ->
  flat_map f (tr ++ map Disconnect nodes) = flat_map f tr.
Proof.
  intros Hf. rewrite flat_map_app.
  assert (E : flat_map f (map Disconnect nodes) = []).
  { induction nodes as [|n rest IH]; simpl; [reflexivity|]. rewrite Hf, IH. reflexivity. }
  rewrite E. apply app_nil_r.
Qed.

Ltac split_kept :=
  unfold kept; repeat match goal with |- _ /\ _ => split end.

Ltac run_builder :=
  unfold exec, _playKick, _playSnare, _playHihat, _playSuperSawBass, _playFMLead,
    _playSynth, onBeat, random; cbn.

(** *** Every source started is stopped *)

Lemma kept_started_stopped : kept (fun a => started (trace a) = stopped (trace a)).
Proof.
  split_kept; intros; try exact H; try exact H0;
    try (run_builder; rewrite !started_snoc, !stopped_snoc, ?app_nil_r;
         match goal with H : started _ = stopped _ |- _ => rewrite H end;
         rewrite <- ?app_assoc; reflexivity).
  destruct (call_cleanup_trace c a) as [nodes E]. rewrite E.
  unfold started, stopped. rewrite !observe_disconnects by reflexivity. exact H.
Qed.

(** X6: in every world the engine can be in, the sources it has started
    are exactly the sources it has scheduled to stop, in the same order:
    no voice is left playing without an end. *)
Theorem every_source_is_stopped (w : World) :
  reachable w -> started (trace (audio w)) = stopped (trace (audio w)).
Proof.
  intros Hr.
  apply (kept_reachable (fun a => started (trace a) = stopped (trace a)) w
           kept_started_stopped); [reflexivity|exact Hr].
Qed.

Lemma every_source_is_stopped_witness :
  let w := after (constructor (fun _ => 0.9) 0)
                 [CallStart; WorkerReceives; ClockAdvances 0.5; IntervalFires;
                  PulseDelivered] in
  started (trace (audio w)) = stopped (trace (audio w)).
Proof.
  intros w. apply (every_source_is_stopped w).
  exists (fun _ => 0.9), 0,
    [CallStart; WorkerReceives; ClockAdvances 0.5; IntervalFires; PulseDelivered].
  vm_compute. reflexivity.
Defined.

(** *** Exponential ramps *)

Lemma kept_exp_targets :
  kept (fun a => forallb positive_num (exp_targets (trace a)) = true).
Proof.
  split_kept; intros; try exact H; try exact H0;
    try (run_builder; rewrite !exp_targets_snoc, ?app_nil_r, ?forallb_app;
         match goal with H : forallb _ _ = true |- _ => rewrite H end;
         reflexivity).
  destruct (call_cleanup_trace c a) as [nodes E]. rewrite E.
  unfold exp_targets. rewrite observe_disconnects by reflexivity. exact H.
Qed.

(** X7: the engine never ramps exponentially to zero (which the Web Audio
    API refuses): in every world it can be in, the target of every
    exponential ramp it has scheduled is a positive number. *)
Theorem exponential_ramps_are_positive (w : World) :
  reachable w -> forallb positive_num (exp_targets (trace (audio w))) = true.
Proof.
  intros Hr.
  apply (kept_reachable
           (fun a => forallb positive_num (exp_targets (trace a)) = true) w
           kept_exp_targets); [reflexivity|exact Hr].
Qed.

Lemma exponential_ramps_are_positive_witness :
  let w := after (constructor (fun _ => 0.9) 0)
                 [CallSwitchTrack "mainTheme"; TimeoutFires; CallStart; WorkerReceives;
                  ClockAdvances 1; IntervalFires; PulseDelivered] in
  forallb positive_num (exp_targets (trace (audio w))) = true.
Proof.
  intros w. apply (exponential_ramps_are_positive w).
  exists (fun _ => 0.9), 0,
    [CallSwitchTrack "mainTheme"; TimeoutFires; CallStart; WorkerReceives;
     ClockAdvances 1; IntervalFires; PulseDelivered].
  vm_compute. reflexivity.
Defined.

(** *** The sidechain gain *)

Lemma calls_on_disconnects (p : param) (tr : list Call) (nodes : list node) :
  calls_on p (tr ++ map Disconnect nodes) = calls_on p tr.
Proof.
  unfold calls_on. rewrite filter_app.
  induction nodes as [|n rest IH]; [apply app_nil_r|]. exact IH.
Qed.

Lemma kept_sidechain :
  kept (fun a => List.length (calls_on (Gain SidechainBus) (trace a)) =
                 (3 * List.length (beats "kick" (trace a)))%nat).
Proof.
  split_kept; intros; try exact H; try exact H0;
    try (run_builder; rewrite !calls_on_snoc, !beats_snoc;
         repeat match goal with
                | |- context [calls_on ?p [?c]] =>
                    change (calls_on p [c]) with (@nil Call) ||
                    change (calls_on p [c]) with [c]
                end;
         cbn; rewrite ?app_nil_r, ?length_app; cbn;
         match goal with H : List.length _ = _ |- _ => rewrite ?H end; lia).
  destruct (call_cleanup_trace c a) as [nodes E]. rewrite E.
  rewrite calls_on_disconnects. unfold beats.
  rewrite observe_disconnects by reflexivity. exact H.
Qed.

(** X8: only kicks touch the sidechain bus gain: in every world the
    engine can be in, the calls made on that gain are three for each kick
    delivered to the observer. *)
Theorem sidechain_calls_are_kicks (w : World) :
  reachable w ->
  List.length (calls_on (Gain SidechainBus) (trace (audio w))) =
  (3 * List.length (beats "kick" (trace (audio w))))%nat.
Proof.
  intros Hr.
  apply (kept_reachable
           (fun a => List.length (calls_on (Gain SidechainBus) (trace a)) =
                     (3 * List.length (beats "kick" (trace a)))%nat) w
           kept_sidechain); [reflexivity|exact Hr].
Qed.

Lemma sidechain_calls_are_kicks_witness :
  let w := after (constructor (fun _ => 0.9) 0)
                 [CallSwitchTrack "mainTheme"; TimeoutFires; CallStart; WorkerReceives;
                  ClockAdvances 15; IntervalFires; PulseDelivered] in
  (measure (this w) = 8%Z /\ List.length (beats "kick" (trace (audio w))) = 2%nat) /\
  List.length (calls_on (Gain SidechainBus) (trace (audio w))) =
  (3 * List.length (beats "kick" (trace (audio w))))%nat.
Proof.
  intros w. split; [vm_compute; split; reflexivity|].
  apply (sidechain_calls_are_kicks w).
  exists (fun _ => 0.9), 0,
    [CallSwitchTrack "mainTheme"; TimeoutFires; CallStart; WorkerReceives;
     ClockAdvances 15; IntervalFires; PulseDelivered].
  vm_compute. reflexivity.
Defined.

(** ** Ownership of the voice nodes *)

Ltac built_by k :=
  intros; unfold builds; run_builder; eexists; exists k;
  split; [rewrite <- !app_assoc; cbn [app]; reflexivity|reflexivity].

Lemma kick_builds (t : Q) (a : Audio) : builds a (exec (_playKick t) a).
Proof. built_by 2%nat. Qed.

Lemma snare_builds (t : Q) (a : Audio) : builds a (exec (_playSnare t) a).
Proof. built_by 3%nat. Qed.

Lemma hihat_builds (t : Q) (o : bool) (a : Audio) : builds a (exec (_playHihat t o) a).
Proof. built_by 3%nat. Qed.

Lemma bass_builds (f : num) (t d c : Q) (a : Audio) :
  builds a (exec (_playSuperSawBass f t d c) a).
Proof. built_by 4%nat. Qed.

Lemma lead_builds (f : num) (t d v : Q) (a : Audio) :
  builds a (exec (_playFMLead f t d v) a).
Proof. built_by 6%nat. Qed.

Lemma synth_builds (f : num) (t d : Q) (ty : string) (a : Audio) :
  builds a (exec (_playSynth f t d ty) a).
Proof. built_by 2%nat. Qed.

Lemma released_app (l1 l2 : list Closure) :
  flat_map owned (filter done (l1 ++ l2)) =
  flat_map owned (filter done l1) ++ flat_map owned (filter done l2).
Proof. rewrite filter_app, flat_map_app. reflexivity. Qed.

Lemma voice_disconnects_app (tr1 tr2 : list Call) :
  voice_disconnects (tr1 ++ tr2) = voice_disconnects tr1 ++ voice_disconnects tr2.
Proof. unfold voice_disconnects. rewrite disconnects_app. apply filter_app. Qed.

Lemma bus_disconnects_app (tr1 tr2 : list Call) :
  bus_disconnects (tr1 ++ tr2) = bus_disconnects tr1 ++ bus_disconnects tr2.
Proof. unfold bus_disconnects. rewrite disconnects_app. apply filter_app. Qed.

(** Calls that disconnect nothing leave the ownership as it is. *)
Lemma trace_keeps_owned (k : nat) (a : Audio) (d : list Call) (n : nat) :
  disconnects d = [] -> Owned_inv k a ->
  NoDup (voice_disconnects (trace a ++ d)) /\
  incl (voice_disconnects (trace a ++ d)) (released a) /\
  bus_disconnects (trace a ++ d) = List.concat (repeat mixBuses k).
Proof.
  intros Hd (_ & Hn & Hi & Hb).
  rewrite voice_disconnects_app, bus_disconnects_app.
  unfold voice_disconnects at 2 4, bus_disconnects at 2. rewrite Hd. simpl.
  rewrite !app_nil_r. auto.
Qed.

Lemma builds_keeps_owned (k : nat) (a a' : Audio) :
  builds a a' -> Owned_inv k a -> Owned_inv k a'.
Proof.
  intros (d & n & -> & Hd) HO.
  destruct (trace_keeps_owned k a d n Hd HO) as (Hn & Hi & Hb).
  destruct HO as (Ho & _).
  unfold Owned_inv, owns_all, created, released.
  cbn [trace nextNode closures]. repeat split.
  - rewrite flat_map_app. cbn [flat_map owned]. rewrite app_nil_r.
    rewrite Nat.add_comm, seq_app, map_app. cbn [Nat.add].
    unfold owns_all, created in Ho. rewrite Ho. reflexivity.
  - exact Hn.
  - rewrite released_app. cbn [filter done flat_map].
    rewrite app_nil_r. exact Hi.
  - exact Hb.
Qed.

Lemma emit_keeps_owned (k : nat) (c : Call) (a : Audio) :
  disconnects [c] = [] -> Owned_inv k a -> Owned_inv k (exec (emit c) a).
Proof.
  intros Hc HO.
  destruct (trace_keeps_owned k a [c] O Hc HO) as (Hn & Hi & Hb).
  destruct HO as (Ho & _).
  unfold Owned_inv, owns_all, created, released, exec, emit.
  cbn [snd trace nextNode closures]. repeat split; assumption.
Qed.

Lemma flat_map_owned_set_nth (l : list Closure) (c : nat) (cl : Closure) :
  nth_error l c = Some cl ->
  flat_map owned (set_nth l c (mkClosure true (owned cl))) = flat_map owned l.
Proof.
  revert c. induction l as [|h t IH]; intros [|c] H; simpl in *; try discriminate.
  - injection H as ->. reflexivity.
  - rewrite (IH c H). reflexivity.
Qed.

(** Once a closure has run, its nodes are among the released ones, and
    those released before still are. *)
Lemma released_set_nth (l : list Closure) (c : nat) (cl : Closure) :
  nth_error l c = Some cl ->
  incl (flat_map owned (filter done l) ++ owned cl)
       (flat_map owned (filter done (set_nth l c (mkClosure true (owned cl))))).
Proof.
  revert c. induction l as [|h t IH]; intros [|c] H; simpl in *; try discriminate.
  - injection H as ->. intros n Hn. apply in_app_or in Hn. apply in_or_app.
    destruct Hn as [Hn|Hn]; [|left; exact Hn].
    destruct (done cl); [|right; exact Hn].
    simpl in Hn. apply in_app_or in Hn. destruct Hn; [left|right]; assumption.
  - specialize (IH c H). intros n Hn. apply in_app_or in Hn.
    destruct (done h); simpl.
    + apply in_or_app. destruct Hn as [Hn|Hn].
      * simpl in Hn. apply in_app_or in Hn. destruct Hn as [Hn|Hn]; [left; exact Hn|].
        right. apply IH. apply in_or_app. left. exact Hn.
      * right. apply IH. apply in_or_app. right. exact Hn.
    + apply IH. apply in_or_app. exact Hn.
Qed.

(** The nodes of a closure that has not run are not among the released
    ones, when no node belongs to two closures. *)
Lemma live_not_released (l : list Closure) (c : nat) (cl : Closure) :
  NoDup (flat_map owned l) -> nth_error l c = Some cl -> done cl = false ->
  NoDup (owned cl) /\
  forall n, In n (owned cl) -> ~ In n (flat_map owned (filter done l)).
Proof.
  revert c. induction l as [|h t IH]; intros [|c] Hnd H Hd; simpl in *; try discriminate.
  - injection H as ->. rewrite Hd.
    split; [apply (NoDup_app_remove_r _ _ Hnd)|].
    intros n Hn Hin.
    assert (Hin' : In n (flat_map owned t)).
    { clear - Hin. induction t as [|x t IH]; simpl in *; [exact Hin|].
      apply in_or_app. destruct (done x); simpl in Hin.
      - apply in_app_or in Hin. destruct Hin; [left; assumption|right; auto].
      - right. auto. }
    revert Hn Hin'. clear - Hnd. induction (owned cl) as [|x o IHo]; simpl in *.
    + intros [].
    + inversion Hnd as [|? ? Hx Hr]; subst. intros [->|Hn] Hin.
      * apply Hx. apply in_or_app. right. exact Hin.
      * apply (IHo Hr Hn Hin).
  - destruct (IH c (NoDup_app_remove_l _ _ Hnd) H Hd) as [H1 H2].
    split; [exact H1|]. intros n Hn Hin.
    destruct (done h); simpl in Hin; [|exact (H2 n Hn Hin)].
    apply in_app_or in Hin. destruct Hin as [Hin|Hin]; [|exact (H2 n Hn Hin)].
    assert (Hin' : In n (flat_map owned t)).
    { clear - H Hn. revert c H. induction t as [|x t IHt]; intros [|c] H;
        simpl in *; try discriminate.
      - injection H as ->. apply in_or_app. left. exact Hn.
      - apply in_or_app. right. apply (IHt c H). }
    clear - Hnd Hin Hin'. induction (owned h) as [|x o IHo]; simpl in *.
    + destruct Hin.
    + inversion Hnd as [|? ? Hx Hr]; subst. destruct Hin as [->|Hin].
      * apply Hx. apply in_or_app. right. exact Hin'.
      * apply (IHo Hr Hin).
Qed.

Lemma created_NoDup (a : Audio) : NoDup (created a).
Proof.
  unfold created.
  assert (H : forall l : list nat, NoDup l -> NoDup (map Voice l)).
  { induction 1 as [|x l Hx _ IH]; simpl; constructor; [|exact IH].
    intros Hin. apply in_map_iff in Hin. destruct Hin as (y & Hy & Hin).
    injection Hy as ->. exact (Hx Hin). }
  apply H, seq_NoDup.
Qed.

(** The nodes of a closure are voice nodes. *)
Lemma owned_are_voices (a : Audio) (c : nat) (cl : Closure) :
  owns_all a -> nth_error (closures a) c = Some cl ->
  filter is_voice (owned cl) = owned cl /\
  filter (fun n => negb (is_voice n)) (owned cl) = [].
Proof.
  intros Ho Hc.
  assert (Hv : forall n, In n (owned cl) -> is_voice n = true).
  { intros n Hn.
    assert (Hin : In n (created a)).
    { unfold owns_all in Ho. rewrite <- Ho. apply in_flat_map.
      exists cl. split; [apply (nth_error_In _ _ Hc)|exact Hn]. }
    unfold created in Hin. apply in_map_iff in Hin.
    destruct Hin as (i & <- & _). reflexivity. }
  induction (owned cl) as [|x l IH]; [split; reflexivity|].
  simpl. rewrite (Hv x (or_introl eq_refl)). simpl.
  destruct IH as [IH1 IH2]; [intros n Hn; apply Hv; right; exact Hn|].
  rewrite IH1, IH2. split; reflexivity.
Qed.

Lemma cleanup_keeps_owned (k : nat) (c : nat) (a : Audio) :
  Owned_inv k a -> Owned_inv k (exec (call_cleanup c) a).
Proof.
  intros (Ho & Hn & Hi & Hb).
  destruct (nth_error (closures a) c) as [cl|] eqn:Hc.
  - destruct (done cl) eqn:Hd.
    + unfold exec. rewrite call_cleanup_done by (rewrite Hc; exact Hd).
      repeat split; assumption.
    + unfold exec. rewrite (call_cleanup_live c a cl Hc Hd).
      unfold Owned_inv, owns_all, created, released. cbn [snd trace nextNode closures].
      assert (Hnd : NoDup (flat_map owned (closures a))).
      { unfold owns_all in Ho. rewrite Ho. apply created_NoDup. }
      destruct (live_not_released _ _ _ Hnd Hc Hd) as [Hcl Hfresh].
      pose proof (released_set_nth _ _ _ Hc) as Hinc.
      destruct (owned_are_voices a c cl Ho Hc) as [Ev Eb].
      rewrite voice_disconnects_app, bus_disconnects_app.
      unfold voice_disconnects at 2 4, bus_disconnects at 2.
      rewrite disconnects_map, Ev, Eb, app_nil_r.
      repeat split.
      * rewrite (flat_map_owned_set_nth _ _ _ Hc). exact Ho.
      * apply NoDup_app; [exact Hn|exact Hcl|].
        intros n Hin Hin'. apply (Hfresh n Hin'). apply Hi. exact Hin.
      * intros n Hin. apply Hinc.
        apply in_app_or in Hin. apply in_or_app.
        destruct Hin as [Hin|Hin]; [left; apply Hi; exact Hin|right; exact Hin].
      * exact Hb.
  - unfold exec. rewrite call_cleanup_done by (rewrite Hc; exact I).
    repeat split; assumption.
Qed.

Lemma kept_owned (k : nat) : kept (Owned_inv k).
Proof.
  split_kept; intros.
  - apply (builds_keeps_owned k a); [apply kick_builds|assumption].
  - apply (builds_keeps_owned k a); [apply snare_builds|assumption].
  - apply (builds_keeps_owned k a); [apply hihat_builds|assumption].
  - apply (builds_keeps_owned k a); [apply bass_builds|assumption].
  - apply (builds_keeps_owned k a); [apply lead_builds|assumption].
  - apply (builds_keeps_owned k a); [apply synth_builds|assumption].
  - exact H.
  - apply cleanup_keeps_owned. assumption.
  - apply emit_keeps_owned; [reflexivity|assumption].
  - apply emit_keeps_owned; [reflexivity|assumption].
  - apply emit_keeps_owned; [reflexivity|assumption].
  - apply emit_keeps_owned; [reflexivity|assumption].
Qed.

Lemma Owned_empty (rnd : nat -> Q) : Owned_inv 0 (mkAudio [] 0 [] rnd 0).
Proof.
  unfold Owned_inv, owns_all, created, released. simpl.
  repeat split; [constructor|intros n []].
Qed.

Lemma Owned_reachable (w : World) : reachable w -> Owned_inv 0 (audio w).
Proof.
  intros Hr. apply (kept_reachable (Owned_inv 0) w (kept_owned 0)); [|exact Hr].
  apply Owned_empty.
Qed.

(** X9: in every world the engine can be in, every voice node created
    belongs to exactly one cleanup closure: the nodes the closures own,
    taken together, are the nodes created, each one once. *)
Theorem every_node_is_owned (w : World) :
  reachable w ->
  flat_map owned (closures (audio w)) = created (audio w) /\
  NoDup (flat_map owned (closures (audio w))).
Proof.
  intros Hr. destruct (Owned_reachable w Hr) as (Ho & _).
  unfold owns_all in Ho. split; [exact Ho|]. rewrite Ho. apply created_NoDup.
Qed.

Lemma every_node_is_owned_witness :
  let w := after (constructor (fun _ => 0.9) 0)
                 [CallStart; WorkerReceives; ClockAdvances 0.5; IntervalFires;
                  PulseDelivered; Ended (Voice 0)] in
  flat_map owned (closures (audio w)) = created (audio w) /\
  NoDup (flat_map owned (closures (audio w))).
Proof.
  intros w. apply (every_node_is_owned w).
  exists (fun _ => 0.9), 0,
    [CallStart; WorkerReceives; ClockAdvances 0.5; IntervalFires; PulseDelivered;
     Ended (Voice 0)].
  vm_compute. reflexivity.
Defined.

(** The released nodes are nodes that were created. *)
Lemma released_created (a : Audio) : owns_all a -> incl (released a) (created a).
Proof.
  intros Ho. unfold owns_all in Ho. rewrite <- Ho. unfold released.
  intros n Hin. clear Ho.
  induction (closures a) as [|x l IH]; simpl in *; [exact Hin|].
  apply in_or_app. destruct (done x); simpl in Hin.
  - apply in_app_or in Hin. destruct Hin; [left; assumption|right; auto].
  - right. auto.
Qed.

Lemma Tempo_positive (b : BGM) : Tempo_inv b -> 0 < noteLength b.
Proof.
  intros [Hn [[Hb _]|[[Hb _]|[Hb _]]]]; rewrite Hn, Hb; reflexivity.
Qed.

Lemma concat_repeat_succ {A : Type} (l : list A) (k : nat) :
  List.concat (repeat l (S k)) = List.concat (repeat l k) ++ l.
Proof.
  induction k as [|k IH]; simpl in *; [rewrite app_nil_r; reflexivity|].
  rewrite IH at 1. rewrite app_assoc. reflexivity.
Qed.

(** The callback of destroy() disconnects the five mix buses once more
    and no voice node. *)
Lemma destroy_keeps_owned (k : nat) (w : World) :
  Owned_inv k (audio w) -> Owned_inv (S k) (audio (destroy_callback w)).
Proof.
  intros (Ho & Hn & Hi & Hb). unfold destroy_callback. cbn [audio].
  unfold exec, bind, emit. cbn [snd trace nextNode closures].
  rewrite <- !app_assoc. cbn [app].
  unfold Owned_inv, owns_all, created, released. cbn [trace nextNode closures].
  set (d := [Disconnect Compressor; Disconnect Master; Disconnect Reverb;
             Disconnect ReverbGain; Disconnect SidechainBus]).
  assert (Ev : voice_disconnects d = []) by reflexivity.
  assert (Eb : bus_disconnects d = mixBuses) by reflexivity.
  rewrite voice_disconnects_app, bus_disconnects_app, concat_repeat_succ, Hb, Ev, Eb.
  rewrite app_nil_r. repeat split; assumption.
Qed.

Lemma Host_step (h h' : Host) (e : HostEvent) :
  Host_inv h -> host_step h e = Some h' -> Host_inv h'.
Proof.
  intros [HT HO] H.
  assert (Hs : forall ev w', step (world h) ev = Some w' ->
                 Tempo_inv (this w') /\ Owned_inv (destroyed h) (audio w')).
  { intros ev w' E. split; [apply (Tempo_step _ _ _ HT E)|].
    apply (kept_step (Owned_inv (destroyed h)) (world h) w' ev (kept_owned _)
             (Tempo_positive _ HT) E HO). }
  destruct e as [ev| |]; simpl in H.
  - assert (H' : match step (world h) ev with
                 | Some w => Some (mkHost w (pendingDestroys h) (destroyed h))
                 | None => None
                 end = Some h').
    { destruct ev; try exact H. destruct (destroyed h); [exact H|discriminate]. }
    destruct (step (world h) ev) as [w'|] eqn:E; [|discriminate].
    injection H' as <-. exact (Hs ev w' E).
  - injection H as <-. exact (Hs CallStop (stop (world h)) eq_refl).
  - destruct (pendingDestroys h); [discriminate|]. injection H as <-.
    split; [exact HT|]. apply destroy_keeps_owned. exact HO.
Qed.

Lemma Host_reachable (h : Host) : host_reachable h -> Host_inv h.
Proof.
  intros (rnd & t0 & es & H).
  assert (H0 : Host_inv (mkHost (constructor rnd t0) 0 0)).
  { split; [|apply Owned_empty].
    unfold Tempo_inv. simpl. split; [reflexivity|]. left. split; reflexivity. }
  revert H H0. generalize (mkHost (constructor rnd t0) 0 0). clear rnd t0.
  induction es as [|e es IH]; intros h0 H H0; simpl in H.
  - injection H as <-. exact H0.
  - destruct (host_step h0 e) as [h1|] eqn:E; [|discriminate].
    apply (IH h1 H). apply (Host_step h0 h1 e H0 E).
Qed.

(** X10: in any run of the engine, destroy() included, whatever sources
    end and however often their ended events fire, no voice node is
    disconnected twice, and the voice nodes disconnected are nodes of
    cleanup closures that have run.  The five mix buses are disconnected
    by the deferred callback of destroy() and by nothing else: once each,
    in the order of the source, for every callback that has run. *)
Theorem no_node_is_disconnected_twice (h : Host) :
  host_reachable h ->
  NoDup (voice_disconnects (trace (audio (world h)))) /\
  incl (voice_disconnects (trace (audio (world h)))) (released (audio (world h))) /\
  incl (released (audio (world h))) (created (audio (world h))) /\
  bus_disconnects (trace (audio (world h))) = List.concat (repeat mixBuses (destroyed h)).
Proof.
  intros Hr. destruct (Host_reachable h Hr) as (_ & Ho & Hn & Hi & Hb).
  split; [exact Hn|]. split; [exact Hi|]. split; [|exact Hb].
  apply released_created. exact Ho.
Qed.

Lemma no_node_is_disconnected_twice_witness :
  let es := [Engine CallStart; Engine WorkerReceives; Engine (ClockAdvances 0.5);
             Engine IntervalFires; Engine PulseDelivered; Engine (Ended (Voice 0));
             CallDestroy; Engine (Ended (Voice 2)); Engine (Ended (Voice 0));
             CallDestroy; DestroyFires; Engine (Ended (Voice 2)); DestroyFires] in
  let h := match host_run (mkHost (constructor (fun _ => 0.9) 0) 0 0) es with
           | Some h => h
           | None => mkHost (constructor (fun _ => 0.9) 0) 0 0
           end in
  (voice_disconnects (trace (audio (world h))) = [Voice 0; Voice 1; Voice 2; Voice 3] /\
   destroyed h = 2%nat) /\
  NoDup (voice_disconnects (trace (audio (world h)))) /\
  incl (voice_disconnects (trace (audio (world h)))) (released (audio (world h))) /\
  incl (released (audio (world h))) (created (audio (world h))) /\
  bus_disconnects (trace (audio (world h))) = List.concat (repeat mixBuses (destroyed h)).
Proof.
  intros es h. split; [vm_compute; split; reflexivity|].
  apply (no_node_is_disconnected_twice h).
  exists (fun _ => 0.9), 0, es. vm_compute. reflexivity.
Defined.

(** ** The beats of the patterns *)

Ltac builder_beats :=
  intros; run_builder; rewrite !all_beats_snoc; cbn; rewrite ?app_nil_r; reflexivity.

Lemma kick_all_beats (t : Q) (a : Audio) :
  all_beats (trace (exec (_playKick t) a)) = all_beats (trace a) ++ [(t, "kick")].
Proof. builder_beats. Qed.

Lemma snare_all_beats (t : Q) (a : Audio) :
  all_beats (trace (exec (_playSnare t) a)) = all_beats (trace a) ++ [(t, "snare")].
Proof. builder_beats. Qed.

Lemma hihat_all_beats (t : Q) (o : bool) (a : Audio) :
  all_beats (trace (exec (_playHihat t o) a)) = all_beats (trace a).
Proof. builder_beats. Qed.

Lemma bass_all_beats (f : num) (t d c : Q) (a : Audio) :
  all_beats (trace (exec (_playSuperSawBass f t d c) a)) =
  all_beats (trace a) ++ [(t, "bass")].
Proof. builder_beats. Qed.

Lemma lead_all_beats (f : num) (t d v : Q) (a : Audio) :
  all_beats (trace (exec (_playFMLead f t d v) a)) = all_beats (trace a) ++ [(t, "lead")].
Proof. builder_beats. Qed.

Lemma synth_all_beats (f : num) (t d : Q) (ty : string) (a : Audio) :
  all_beats (trace (exec (_playSynth f t d ty) a)) = all_beats (trace a).
Proof. builder_beats. Qed.

(** X11: the ambient pattern never notifies the observer: whatever the
    tick, the bar and the random numbers drawn, it delivers no beat. *)
Theorem ambient_has_no_beat (this : BGM) (time : Q) (t b : Z) (a : Audio) :
  all_beats (trace (exec (_playAmbientPattern this time t b) a)) = all_beats (trace a).
Proof.
  unfold _playAmbientPattern. rewrite !exec_seq.
  set (a1 := exec (when _ _) a).
  assert (E1 : all_beats (trace a1) = all_beats (trace a)).
  { unfold a1. rewrite exec_when. destruct (_ && _); [|reflexivity].
    rewrite exec_seq, !synth_all_beats. reflexivity. }
  set (a2 := exec (when _ _) a1).
  assert (E2 : all_beats (trace a2) = all_beats (trace a)).
  { unfold a2. rewrite exec_when. destruct (Z.rem t 4 =? 0)%Z; [|exact E1].
    rewrite synth_all_beats. exact E1. }
  rewrite exec_bind.
  destruct (Qlt_le_dec 0.85 (fst (random a2))); [|exact E2].
  rewrite exec_bind, synth_all_beats. exact E2.
Qed.

Lemma drums_all_beats (time : Q) (t b : Z) (a : Audio) :
  all_beats (trace (exec (_playDrums time t b) a)) =
  all_beats (trace a) ++
  beat_if (negb (b <? 8)%Z && negb (in_section BREAKDOWN b) && (Z.rem t 4 =? 0)%Z)
          time "kick" ++
  beat_if (negb (b <? 8)%Z &&
           (if in_section BUILD b then (Z.rem t 2 =? 0)%Z
            else negb (in_section BREAKDOWN b) && (Z.rem t 8 =? 4)%Z))
          time "snare".
Proof.
  unfold _playDrums, beat_if. change (range_start (SECTIONS VERSE)) with 8%Z.
  destruct (b <? 8)%Z; cbn [negb andb].
  - unfold exec, ret. simpl. rewrite !app_nil_r. reflexivity.
  - rewrite !exec_seq, !exec_when.
    set (a1 := if negb (in_section BREAKDOWN b) && (Z.rem t 4 =? 0)%Z
               then exec (_playKick time) a else a).
    assert (E1 : all_beats (trace a1) =
                 all_beats (trace a) ++
                 (if negb (in_section BREAKDOWN b) && (Z.rem t 4 =? 0)%Z
                  then [(time, "kick")] else [])).
    { unfold a1. destruct (_ && _); [apply kick_all_beats|].
      rewrite app_nil_r. reflexivity. }
    match goal with |- context [exec ?m a1] => set (a2 := exec m a1) end.
    assert (E2 : all_beats (trace a2) =
                 all_beats (trace a1) ++
                 (if (if in_section BUILD b then (Z.rem t 2 =? 0)%Z
                      else negb (in_section BREAKDOWN b) && (Z.rem t 8 =? 4)%Z)
                  then [(time, "snare")] else [])).
    { unfold a2. destruct (in_section BUILD b); [|destruct (negb (in_section BREAKDOWN b))];
        cbn [andb]; rewrite ?exec_when.
      - destruct (Z.rem t 2 =? 0)%Z; [apply snare_all_beats|].
        rewrite app_nil_r. reflexivity.
      - destruct (Z.rem t 8 =? 4)%Z; [apply snare_all_beats|].
        rewrite app_nil_r. reflexivity.
      - rewrite app_nil_r. reflexivity. }
    assert (E3 : forall (c o : bool) (x : Audio),
               all_beats (trace (if c then exec (_playHihat time o) x else x)) =
               all_beats (trace x)).
    { intros c o x. destruct c; [apply hihat_all_beats|reflexivity]. }
    rewrite E3, E2, E1, <- app_assoc. reflexivity.
Qed.

Lemma bass_part_all_beats (this : BGM) (time : Q) (t b : Z) (a : Audio) :
  all_beats (trace (exec (_playBass this time t b) a)) =
  all_beats (trace a) ++ beat_if (negb (Z.rem t 4 =? 0)%Z) time "bass".
Proof.
  unfold _playBass, beat_if. rewrite exec_when.
  destruct (negb (Z.rem t 4 =? 0)%Z); [apply bass_all_beats|].
  rewrite app_nil_r. reflexivity.
Qed.

Lemma lead_part_all_beats (this : BGM) (time : Q) (t b : Z) (a : Audio) :
  all_beats (trace (exec (_playLead this time t b) a)) =
  all_beats (trace a) ++
  (if in_section CHORUS b || from_start OUTRO b
   then beat_if (match js_get melody t with
                 | Some d => negb (d =? -1)%Z
                 | None => true
                 end) time "lead"
   else beat_if (in_section BREAKDOWN b && (Z.rem t 4 =? 0)%Z)
                (time + rng a (S (randPos a)) * 0.05) "lead").
Proof.
  unfold _playLead, beat_if.
  destruct (in_section CHORUS b || from_start OUTRO b).
  - destruct (js_get melody t) as [d|]; [destruct (d =? -1)%Z|]; cbn [negb].
    + unfold exec, ret. simpl. rewrite app_nil_r. reflexivity.
    + apply lead_all_beats.
    + apply lead_all_beats.
  - destruct (in_section BREAKDOWN b && (Z.rem t 4 =? 0)%Z).
    + rewrite exec_bind, exec_bind, lead_all_beats. reflexivity.
    + unfold exec, ret. simpl. rewrite app_nil_r. reflexivity.
Qed.

Lemma builds_random (a a' : Audio) : builds a a' -> same_random a a'.
Proof. intros (d & k & E & _). subst a'. split; reflexivity. Qed.

Lemma same_random_when (c : bool) (m : M unit) (a : Audio) :
  (forall x, same_random x (exec m x)) -> same_random a (exec (when c m) a).
Proof.
  intros H. rewrite exec_when. destruct c; [apply H|split; reflexivity].
Qed.

Lemma same_random_trans (a b c : Audio) :
  same_random a b -> same_random b c -> same_random a c.
Proof. intros [H1 H2] [H3 H4]. split; congruence. Qed.

Lemma drums_random (time : Q) (t b : Z) (a : Audio) :
  same_random a (exec (_playDrums time t b) a).
Proof.
  unfold _playDrums. destruct (b <? _)%Z; [split; reflexivity|].
  rewrite !exec_seq.
  set (a1 := exec (when _ (_playKick time)) a).
  match goal with |- context [exec ?m a1] => set (a2 := exec m a1) end.
  assert (H1 : same_random a a1).
  { apply same_random_when. intros x. apply builds_random, kick_builds. }
  assert (H2 : same_random a1 a2).
  { unfold a2. clearbody a1.
    destruct (in_section BUILD b); [|destruct (negb (in_section BREAKDOWN b))].
    - apply same_random_when. intros x. apply builds_random, snare_builds.
    - apply same_random_when. intros x. apply builds_random, snare_builds.
    - split; reflexivity. }
  clearbody a2. clearbody a1.
  apply same_random_trans with a2; [apply same_random_trans with a1; assumption|].
  apply same_random_when. intros x. apply builds_random, hihat_builds.
Qed.

Lemma bass_part_random (this : BGM) (time : Q) (t b : Z) (a : Audio) :
  same_random a (exec (_playBass this time t b) a).
Proof.
  unfold _playBass. apply same_random_when.
  intros x. apply builds_random, bass_builds.
Qed.

(** The beats of one step of the main theme, part by part. *)
Lemma main_theme_all_beats (this : BGM) (time : Q) (t b : Z) (a : Audio) :
  all_beats (trace (exec (_playMainThemePattern this time t b) a)) =
  all_beats (trace a) ++
  (beat_if (negb (b <? 8)%Z && negb (in_section BREAKDOWN b) && (Z.rem t 4 =? 0)%Z)
           time "kick" ++
   beat_if (negb (b <? 8)%Z &&
            (if in_section BUILD b then (Z.rem t 2 =? 0)%Z
             else negb (in_section BREAKDOWN b) && (Z.rem t 8 =? 4)%Z))
           time "snare") ++
  beat_if (negb (Z.rem t 4 =? 0)%Z) time "bass" ++
  (if in_section CHORUS b || from_start OUTRO b
   then beat_if (melody_sounds t) time "lead"
   else beat_if (in_section BREAKDOWN b && (Z.rem t 4 =? 0)%Z)
                (time + rng a (S (randPos a)) * 0.05) "lead").
Proof.
  unfold _playMainThemePattern. rewrite !exec_seq.
  rewrite lead_part_all_beats, bass_part_all_beats, drums_all_beats.
  destruct (bass_part_random this time t b (exec (_playDrums time t b) a)) as [R1 P1].
  destruct (drums_random time t b a) as [R2 P2].
  rewrite R1, P1, R2, P2. unfold melody_sounds.
  rewrite <- !app_assoc. reflexivity.
Qed.

(** X12: the arrangement of the main theme.  For a bar of section s and
    a tick t in 0..15, one step delivers exactly these beats, in this
    order: in INTRO the bass alone (off the quarter); in VERSE kick on
    the quarter, snare at ticks 4 and 12, bass; in CHORUS and OUTRO the
    same and the melody's lead; in BREAKDOWN no drums, the bass off the
    quarter and a lead on the quarter, delayed by a random share of 50 ms;
    in BUILD kick, a snare on every even tick, and bass. *)
Theorem main_theme_arrangement (this : BGM) (time : Q) (t b : Z) (s : Section_)
    (a : Audio) :
  in_section s b = true -> (0 <= t < 16)%Z ->
  let kick := beat_if (t mod 4 =? 0)%Z time "kick" in
  let bass := beat_if (negb (t mod 4 =? 0)%Z) time "bass" in
  all_beats (trace (exec (_playMainThemePattern this time t b) a)) =
  all_beats (trace a) ++
  match s with
  | INTRO => bass
  | VERSE => kick ++ beat_if (t mod 8 =? 4)%Z time "snare" ++ bass
  | CHORUS | OUTRO =>
      kick ++ beat_if (t mod 8 =? 4)%Z time "snare" ++ bass ++
      beat_if (melody_sounds t) time "lead"
  | BREAKDOWN =>
      bass ++ beat_if (t mod 4 =? 0)%Z (time + rng a (S (randPos a)) * 0.05) "lead"
  | BUILD => kick ++ beat_if (t mod 2 =? 0)%Z time "snare" ++ bass
  end.
Proof.
  intros Hs Ht kick bass. subst kick bass.
  rewrite main_theme_all_beats. f_equal.
  apply in_section_bounds in Hs.
  rewrite !Z.rem_mod_nonneg by lia.
  unfold in_section, from_start, before_end.
  destruct s; cbn [SECTIONS range_start range_end] in Hs |- *;
    repeat match goal with
           | |- context [(?x <=? ?y)%Z] => destruct (Z.leb_spec x y); try lia
           | |- context [(?x <? ?y)%Z] => destruct (Z.ltb_spec x y); try lia
           end;
    cbn [andb orb negb beat_if app];
    rewrite <- ?app_assoc, ?app_nil_r; try reflexivity.
Qed.

Lemma main_theme_arrangement_witness :
  let this := mkBGM 135 (60 / 135 / 4) true 0 4 34 "mainTheme" in
  let a := mkAudio [] 0 [] (fun _ => 0.5) 0 in
  all_beats (trace (exec (_playMainThemePattern this 1.5 4 34) a)) =
  all_beats (trace a) ++
  beat_if (negb (4 mod 4 =? 0)%Z) 1.5 "bass" ++
  beat_if (4 mod 4 =? 0)%Z (1.5 + rng a (S (randPos a)) * 0.05) "lead".
Proof.
  intros this a.
  apply (main_theme_arrangement this 1.5 4 34 BREAKDOWN a); [reflexivity|lia].
Defined.

(** X13: the bass line answers the kick.  For every tick and bar, also
    outside their ranges, one step of the main theme never delivers a
    kick and a bass beat together: the kick falls on ticks that are
    multiples of 4 and the bass on the others. *)
Theorem kick_and_bass_never_together (this : BGM) (time : Q) (t b : Z) (a : Audio) :
  exists l,
    all_beats (trace (exec (_playMainThemePattern this time t b) a)) =
    all_beats (trace a) ++ l /\
    forall x y, In (x, "kick") l -> In (y, "bass") l -> False.
Proof.
  eexists. split; [apply main_theme_all_beats|].
  intros x y Hk Hb.
  assert (K : (Z.rem t 4 =? 0)%Z = true).
  { destruct (Z.rem t 4 =? 0)%Z; [reflexivity|].
    rewrite !andb_false_r in Hk. unfold beat_if in Hk.
    repeat (apply in_app_or in Hk; destruct Hk as [Hk|Hk]);
      repeat match type of Hk with
             | In _ (if ?c then _ else _) => destruct c
             end;
      simpl in Hk; repeat (destruct Hk as [Hk|Hk]); try discriminate; contradiction. }
  rewrite K in Hb. unfold beat_if in Hb. cbn [negb app] in Hb.
  repeat (apply in_app_or in Hb; destruct Hb as [Hb|Hb]);
    repeat match type of Hb with
           | In _ (if ?c then _ else _) => destruct c
           end;
    simpl in Hb; repeat (destruct Hb as [Hb|Hb]); try discriminate; contradiction.
Qed.

(** ** Scheduling in time order *)

Lemma Tempo_run (es : list Event) (w w' : World) :
  Tempo_inv (this w) -> run w es = Some w' -> Tempo_inv (this w').
Proof.
  revert w. induction es as [|e es IH]; intros w HT H; simpl in H.
  - injection H as <-. exact HT.
  - destruct (step w e) as [w1|] eqn:E; [|discriminate].
    apply (IH w1); [apply (Tempo_step w w1 e HT E)|exact H].
Qed.

Lemma Tempo_reachable (w : World) : reachable w -> Tempo_inv (this w).
Proof.
  intros (rnd & t0 & es & H). apply (Tempo_run es _ _) in H; [exact H|].
  unfold Tempo_inv. simpl. split; [reflexivity|]. left. split; reflexivity.
Qed.

(** On the main theme a sixteenth lasts longer than the lead's jitter. *)
Lemma Tempo_jitter (b : BGM) :
  Tempo_inv b -> currentTrack b = "mainTheme" -> 0.05 <= noteLength b.
Proof.
  intros [Hn [[_ Ht]|[[Hb _]|[_ Ht]]]] Hm.
  - rewrite Hm in Ht. discriminate.
  - rewrite Hn, Hb. vm_compute. discriminate.
  - contradiction.
Qed.

Lemma ascending_weaken (lo lo' : Q) (l : list Q) :
  lo <= lo' -> ascending lo' l -> ascending lo l.
Proof.
  intros H. destruct l as [|t rest]; [auto|].
  intros [H1 H2]. split; [apply (Qle_trans _ _ _ H H1)|exact H2].
Qed.

Lemma ascending_app (lo mid hi : Q) (l1 l2 : list Q) :
  ascending lo (l1 ++ [mid]) -> ascending mid (l2 ++ [hi]) ->
  ascending lo ((l1 ++ l2) ++ [hi]).
Proof.
  revert lo. induction l1 as [|t l1 IH]; intros lo H1 H2; simpl in *.
  - apply (ascending_weaken lo mid); [apply H1|exact H2].
  - destruct H1 as [H1 H1']. split; [exact H1|]. apply IH; assumption.
Qed.

Lemma ascending_bounds (lo hi : Q) (l : list Q) :
  ascending lo (l ++ [hi]) -> lo <= hi.
Proof.
  revert lo. induction l as [|t l IH]; intros lo H; simpl in H.
  - apply H.
  - destruct H as [H1 H2]. apply (Qle_trans _ _ _ H1). apply IH. exact H2.
Qed.

Lemma ascending_widen (lo hi hi' : Q) (l : list Q) :
  hi <= hi' -> ascending lo (l ++ [hi]) -> ascending lo (l ++ [hi']).
Proof.
  intros Hh. revert lo. induction l as [|t l IH]; intros lo H; simpl in *.
  - split; [apply (Qle_trans _ _ _ (proj1 H) Hh)|exact I].
  - destruct H as [H1 H2]. split; [exact H1|]. apply IH. exact H2.
Qed.

Lemma starts_within_same (lo hi : Q) (a a' : Audio) :
  start_times (trace a') = start_times (trace a) -> lo <= hi ->
  starts_within lo hi a a'.
Proof.
  intros E H. exists []. rewrite app_nil_r. split; [exact E|]. simpl. auto.
Qed.

Lemma starts_within_trans (lo mid hi : Q) (a b c : Audio) :
  starts_within lo mid a b -> starts_within mid hi b c -> starts_within lo hi a c.
Proof.
  intros (l1 & E1 & A1) (l2 & E2 & A2). exists (l1 ++ l2). split.
  - rewrite E2, E1, app_assoc. reflexivity.
  - apply (ascending_app lo mid hi); assumption.
Qed.

Lemma starts_within_widen (lo hi hi' : Q) (a a' : Audio) :
  hi <= hi' -> starts_within lo hi a a' -> starts_within lo hi' a a'.
Proof.
  intros H (l & E & A). exists l. split; [exact E|].
  apply (ascending_widen lo hi hi'); assumption.
Qed.

Lemma starts_within_when (lo hi : Q) (c : bool) (m : M unit) (a : Audio) :
  lo <= hi -> starts_within lo hi a (exec m a) ->
  starts_within lo hi a (exec (when c m) a).
Proof.
  intros H Hm. rewrite exec_when. destruct c; [exact Hm|].
  apply starts_within_same; [reflexivity|exact H].
Qed.

Lemma start_times_snoc (tr : list Call) (c : Call) :
  start_times (tr ++ [c]) =
  start_times tr ++ match c with Start _ t => [t] | _ => [] end.
Proof. rewrite start_times_app. unfold start_times at 2. simpl. rewrite app_nil_r. reflexivity. Qed.

(** Every source of a voice starts at the time the builder was given. *)
Ltac builder_starts :=
  intros; unfold starts_within; run_builder;
  rewrite !start_times_snoc, ?app_nil_r, <- ?app_assoc;
  eexists; split; [reflexivity|];
  cbn; repeat split; try assumption; apply Qle_refl.

Lemma kick_starts (lo t : Q) (a : Audio) :
  lo <= t -> starts_within lo t a (exec (_playKick t) a).
Proof. builder_starts. Qed.

Lemma snare_starts (lo t : Q) (a : Audio) :
  lo <= t -> starts_within lo t a (exec (_playSnare t) a).
Proof. builder_starts. Qed.

Lemma hihat_starts (lo t : Q) (o : bool) (a : Audio) :
  lo <= t -> starts_within lo t a (exec (_playHihat t o) a).
Proof. builder_starts. Qed.

Lemma bass_starts (lo t d c : Q) (f : num) (a : Audio) :
  lo <= t -> starts_within lo t a (exec (_playSuperSawBass f t d c) a).
Proof. builder_starts. Qed.

Lemma lead_starts (lo t d v : Q) (f : num) (a : Audio) :
  lo <= t -> starts_within lo t a (exec (_playFMLead f t d v) a).
Proof. builder_starts. Qed.

Lemma synth_starts (lo t d : Q) (f : num) (ty : string) (a : Audio) :
  lo <= t -> starts_within lo t a (exec (_playSynth f t d ty) a).
Proof. builder_starts. Qed.

Lemma drums_starts (time : Q) (t b : Z) (a : Audio) :
  starts_within time time a (exec (_playDrums time t b) a).
Proof.
  pose proof (Qle_refl time) as R.
  unfold _playDrums.
  destruct (b <? _)%Z; [apply starts_within_same; [reflexivity|exact R]|].
  rewrite !exec_seq.
  set (a1 := exec (when _ (_playKick time)) a).
  match goal with |- context [exec ?m a1] => set (a2 := exec m a1) end.
  assert (H1 : starts_within time time a a1).
  { apply starts_within_when; [exact R|]. apply kick_starts. exact R. }
  assert (H2 : starts_within time time a1 a2).
  { unfold a2. clearbody a1.
    destruct (in_section BUILD b); [|destruct (negb (in_section BREAKDOWN b))].
    - apply starts_within_when; [exact R|]. apply snare_starts. exact R.
    - apply starts_within_when; [exact R|]. apply snare_starts. exact R.
    - apply starts_within_same; [reflexivity|exact R]. }
  clearbody a2. clearbody a1.
  apply (starts_within_trans time time time a a2);
    [apply (starts_within_trans time time time a a1); assumption|].
  apply starts_within_when; [exact R|]. apply hihat_starts. exact R.
Qed.

Lemma bass_part_starts (this : BGM) (time : Q) (t b : Z) (a : Audio) :
  starts_within time time a (exec (_playBass this time t b) a).
Proof.
  unfold _playBass. apply starts_within_when; [apply Qle_refl|].
  apply bass_starts. apply Qle_refl.
Qed.

(** The lead starts at the scheduled time, or in BREAKDOWN up to 50 ms
    later. *)
Lemma lead_part_starts (this : BGM) (time : Q) (t b : Z) (a : Audio) :
  random_in_range a ->
  starts_within time (time + 0.05) a (exec (_playLead this time t b) a).
Proof.
  intros Hr.
  assert (W : time <= time + 0.05) by lra.
  unfold _playLead.
  destruct (in_section CHORUS b || from_start OUTRO b).
  - apply (starts_within_widen time time); [exact W|].
    destruct (js_get melody t) as [d|]; [destruct (d =? -1)%Z|].
    + apply starts_within_same; [reflexivity|apply Qle_refl].
    + apply lead_starts. apply Qle_refl.
    + apply lead_starts. apply Qle_refl.
  - destruct (in_section BREAKDOWN b && (Z.rem t 4 =? 0)%Z);
      [|apply starts_within_same; [reflexivity|exact W]].
    rewrite exec_bind, exec_bind.
    set (a2 := snd (random (snd (random a)))).
    change (fst (random (snd (random a)))) with (rng a (S (randPos a))).
    destruct (Hr (S (randPos a))) as [R0 R1].
    set (r := rng a (S (randPos a))) in *.
    apply (starts_within_widen time (time + r * 0.05)); [lra|].
    apply (starts_within_trans time time (time + r * 0.05) a a2).
    + apply starts_within_same; [reflexivity|apply Qle_refl].
    + apply lead_starts. lra.
Qed.

Lemma main_theme_starts (this : BGM) (time : Q) (t b : Z) (a : Audio) :
  random_in_range a ->
  starts_within time (time + 0.05) a (exec (_playMainThemePattern this time t b) a).
Proof.
  intros Hr. unfold _playMainThemePattern. rewrite !exec_seq.
  set (a1 := exec (_playDrums time t b) a).
  set (a2 := exec (_playBass this time t b) a1).
  assert (H1 : starts_within time time a a1) by apply drums_starts.
  assert (H2 : starts_within time time a1 a2) by apply bass_part_starts.
  assert (Hr2 : random_in_range a2).
  { destruct (drums_random time t b a) as [R1 _].
    destruct (bass_part_random this time t b a1) as [R2 _].
    fold a1 in R1. fold a2 in R2.
    intros n. rewrite R2, R1. apply Hr. }
  clearbody a2. clearbody a1.
  apply (starts_within_trans time time (time + 0.05) a a2);
    [apply (starts_within_trans time time time a a1); assumption|].
  apply lead_part_starts. exact Hr2.
Qed.

Lemma ambient_starts (this : BGM) (time : Q) (t b : Z) (a : Audio) :
  starts_within time time a (exec (_playAmbientPattern this time t b) a).
Proof.
  pose proof (Qle_refl time) as R.
  unfold _playAmbientPattern. rewrite !exec_seq.
  set (a1 := exec (when _ _) a).
  assert (H1 : starts_within time time a a1).
  { apply starts_within_when; [exact R|]. rewrite exec_seq.
    eapply starts_within_trans; apply synth_starts; exact R. }
  set (a2 := exec (when _ _) a1).
  assert (H2 : starts_within time time a1 a2).
  { apply starts_within_when; [exact R|]. apply synth_starts. exact R. }
  clearbody a2. clearbody a1.
  apply (starts_within_trans time time time a a2);
    [apply (starts_within_trans time time time a a1); assumption|].
  rewrite exec_bind.
  destruct (Qlt_le_dec 0.85 (fst (random a2))).
  - rewrite exec_bind.
    apply (starts_within_trans time time time a2 (snd (random (snd (random a2))))).
    + apply starts_within_same; [reflexivity|exact R].
    + apply synth_starts. exact R.
  - apply starts_within_same; [reflexivity|exact R].
Qed.

(** The voice builders, cleanup calls and the transport do not touch the
    random source's values. *)
Lemma kept_rng (r : nat -> Q) : kept (fun a => rng a = r).
Proof.
  split_kept; intros; try assumption;
    try (match goal with
         | |- rng (exec (_playKick ?t) ?a) = _ =>
             rewrite (proj1 (builds_random _ _ (kick_builds t a)))
         | |- rng (exec (_playSnare ?t) ?a) = _ =>
             rewrite (proj1 (builds_random _ _ (snare_builds t a)))
         | |- rng (exec (_playHihat ?t ?o) ?a) = _ =>
             rewrite (proj1 (builds_random _ _ (hihat_builds t o a)))
         | |- rng (exec (_playSuperSawBass ?f ?t ?d ?c) ?a) = _ =>
             rewrite (proj1 (builds_random _ _ (bass_builds f t d c a)))
         | |- rng (exec (_playFMLead ?f ?t ?d ?v) ?a) = _ =>
             rewrite (proj1 (builds_random _ _ (lead_builds f t d v a)))
         | |- rng (exec (_playSynth ?f ?t ?d ?ty) ?a) = _ =>
             rewrite (proj1 (builds_random _ _ (synth_builds f t d ty a)))
         end; assumption).
  destruct (nth_error (closures a) c) as [cl|] eqn:Hc.
    + destruct (done cl) eqn:Hd.
      * unfold exec. rewrite call_cleanup_done by (rewrite Hc; exact Hd). assumption.
      * unfold exec. rewrite (call_cleanup_live c a cl Hc Hd). assumption.
    + unfold exec. rewrite call_cleanup_done by (rewrite Hc; exact I). assumption.
Qed.

Lemma body_starts (ba : BGM * Audio) :
  0 <= noteLength (fst ba) ->
  (currentTrack (fst ba) = "mainTheme" -> 0.05 <= noteLength (fst ba)) ->
  random_in_range (snd ba) ->
  starts_within (nextNoteTime (fst ba)) (nextNoteTime (fst (schedule_body ba)))
                (snd ba) (snd (schedule_body ba)).
Proof.
  intros Hn Hj Hr. rewrite body_nextNoteTime.
  destruct ba as [b a]. cbn [fst snd] in *. unfold schedule_body.
  assert (H : starts_within (nextNoteTime b) (nextNoteTime b + noteLength b) a
                (if String.eqb (currentTrack b) "mainTheme"
                 then exec (_playMainThemePattern b (nextNoteTime b) (tick b) (measure b)) a
                 else exec (_playAmbientPattern b (nextNoteTime b) (tick b) (measure b)) a)).
  { destruct (String.eqb_spec (currentTrack b) "mainTheme") as [E|E].
    - apply (starts_within_widen _ (nextNoteTime b + 0.05)).
      + specialize (Hj E). lra.
      + apply main_theme_starts. exact Hr.
    - apply (starts_within_widen _ (nextNoteTime b)); [lra|]. apply ambient_starts. }
  destruct (tick b + 1 >=? 16)%Z; exact H.
Qed.

Lemma schedule_starts (w w' : World) :
  0 < noteLength (this w) -> Tempo_inv (this w) -> random_in_range (audio w) ->
  _schedule w = Some w' ->
  starts_within (nextNoteTime (this w)) (nextNoteTime (this w')) (audio w) (audio w').
Proof.
  intros Hn HT Hr H. unfold _schedule in H.
  destruct (schedule_loop _ _ _) as [[b a]|] eqn:E; [|discriminate].
  injection H as <-. cbn [this audio].
  refine (proj2 (proj2 (proj2 (schedule_loop_keeps
            (fun ba => noteLength (fst ba) = noteLength (this w) /\
                       currentTrack (fst ba) = currentTrack (this w) /\
                       rng (snd ba) = rng (audio w) /\
                       starts_within (nextNoteTime (this w)) (nextNoteTime (fst ba))
                                     (audio w) (snd ba))
            _ _ _ _ (b, a) E _)))).
  - intros ba (H1 & H2 & H3 & H4).
    destruct (body_frame ba) as (_ & F1 & _ & F2).
    split; [rewrite F1; exact H1|]. split; [rewrite F2; exact H2|]. split.
    + apply (kept_body (fun x => rng x = rng (audio w)) ba (kept_rng _));
        [rewrite H1; exact Hn|exact H3].
    + apply (starts_within_trans _ (nextNoteTime (fst ba)) _ _ (snd ba)); [exact H4|].
      apply body_starts.
      * rewrite H1. apply Qlt_le_weak. exact Hn.
      * intros Hm. rewrite H1. apply Tempo_jitter; [exact HT|]. rewrite <- H2. exact Hm.
      * intros n. rewrite H3. apply Hr.
  - cbn [fst snd]. repeat split.
    apply starts_within_same; [reflexivity|apply Qle_refl].
Qed.

Lemma start_times_emit (c : Call) (a : Audio) :
  start_times (trace (exec (emit c) a)) =
  start_times (trace a) ++ match c with Start _ t => [t] | _ => [] end.
Proof. apply start_times_snoc. Qed.

(** An event that does not reseed starts its sources in time order, from
    nextNoteTime as it was to nextNoteTime as it is. *)
Lemma order_step (w w' : World) (e : Event) :
  0 < noteLength (this w) -> Tempo_inv (this w) -> random_in_range (audio w) ->
  reseeds w e = false -> step w e = Some w' ->
  starts_within (nextNoteTime (this w)) (nextNoteTime (this w')) (audio w) (audio w').
Proof.
  intros Hn HT Hr He H. destruct e; simpl in H, He; try discriminate.
  - injection H as <-. unfold start. apply negb_false_iff in He. rewrite He.
    apply starts_within_same; [reflexivity|apply Qle_refl].
  - injection H as <-. unfold stop.
    destruct (isPlaying (this w)); cbn [negb this audio nextNoteTime];
      apply starts_within_same; try apply Qle_refl; [|reflexivity].
    rewrite !exec_seq, !start_times_emit. cbn. rewrite !app_nil_r. reflexivity.
  - injection H as <-. unfold switchTrack.
    destruct (String.eqb (currentTrack (this w)) trackName); cbn [this audio];
      apply starts_within_same; try apply Qle_refl; [reflexivity|].
    rewrite !exec_seq, !start_times_emit. cbn. rewrite !app_nil_r. reflexivity.
  - destruct (toWorker (env w)); [discriminate|]. injection H as <-.
    apply starts_within_same; [reflexivity|apply Qle_refl].
  - destruct (intervals (worker (env w))); [discriminate|]. injection H as <-.
    apply starts_within_same; [reflexivity|apply Qle_refl].
  - destruct (pulses (env w)); [discriminate|].
    exact (schedule_starts (mkWorld (this w) (audio w) _) w' Hn HT Hr H).
  - destruct (Qle_bool 0 d); [|discriminate]. injection H as <-.
    apply starts_within_same; [reflexivity|apply Qle_refl].
  - injection H as <-. cbn [this audio].
    apply starts_within_same; [apply fire_ended_quiet|apply Qle_refl].
Qed.

Lemma order_run (es : list Event) (w w' : World) :
  Inv w -> Tempo_inv (this w) -> random_in_range (audio w) ->
  reseed_free w es = true -> run w es = Some w' ->
  starts_within (nextNoteTime (this w)) (nextNoteTime (this w')) (audio w) (audio w').
Proof.
  revert w. induction es as [|e es IH]; intros w HI HT Hr Hs H; simpl in H.
  - injection H as <-. apply starts_within_same; [reflexivity|apply Qle_refl].
  - destruct (step w e) as [w1|] eqn:E; [|discriminate].
    simpl in Hs. rewrite E in Hs. apply andb_prop in Hs. destruct Hs as [He Hs].
    apply negb_true_iff in He.
    apply (starts_within_trans _ (nextNoteTime (this w1)) _ _ (audio w1)).
    + apply (order_step w w1 e (proj1 HI) HT Hr He E).
    + apply IH; [apply (Inv_step w w1 e HI E)|apply (Tempo_step w w1 e HT E)| |exact Hs|exact H].
      pose proof (kept_step (fun a => rng a = rng (audio w)) w w1 e (kept_rng _)
                    (proj1 HI) E eq_refl) as Er.
      intros n. rewrite Er. apply Hr.
Qed.

(** C1 (as the code has it): nextNoteTime is reseeded from the render
    clock by start() from Stopped (to ctx.currentTime + 0.1) and by the
    deferred callback of switchTrack() (to ctx.currentTime + 0.05),
    whatever it was before; start() while playing leaves it as it is.
    Over any stretch of a run without these two events, from any world
    the engine can be in, with Math.random() in [0, 1): nextNoteTime does
    not decrease, and the sources of the voices scheduled in the stretch
    start in time order, none before nextNoteTime as it was at the
    beginning of the stretch and none after nextNoteTime as it is at its
    end.  So from one reseed to the next no voice is scheduled at an
    earlier time than a voice already scheduled. *)
Theorem C1_scheduling_in_time_order (w : World) :
  reachable w -> random_in_range (audio w) ->
  (forall es w',
     reseed_free w es = true -> run w es = Some w' ->
     nextNoteTime (this w) <= nextNoteTime (this w') /\
     exists new,
       start_times (trace (audio w')) = start_times (trace (audio w)) ++ new /\
       ascending (nextNoteTime (this w)) (new ++ [nextNoteTime (this w')])) /\
  (forall w', step w CallStart = Some w' ->
     nextNoteTime (this w') =
     if isPlaying (this w) then nextNoteTime (this w) else currentTime (env w) + 0.1) /\
  (forall w', step w TimeoutFires = Some w' ->
     nextNoteTime (this w') = currentTime (env w) + 0.05).
Proof.
  intros Hr Hrnd. split; [|split].
  - intros es w' Hs H.
    destruct (order_run es w w' (reachable_Inv w Hr) (Tempo_reachable w Hr) Hrnd Hs H)
      as (new & E & A).
    split; [apply (ascending_bounds _ _ new A)|].
    exists new. split; assumption.
  - intros w' H. simpl in H. injection H as <-. unfold start.
    destruct (isPlaying (this w)); reflexivity.
  - intros w' H. simpl in H.
    destruct (timeouts (env w)); [discriminate|]. injection H as <-. reflexivity.
Qed.

Lemma C1_scheduling_in_time_order_witness :
  let w := after (constructor (fun _ => 0.9) 0)
                 [CallSwitchTrack "mainTheme"; ClockAdvances 0.15; TimeoutFires;
                  CallStart; WorkerReceives] in
  let es := [ClockAdvances 0.025; IntervalFires; PulseDelivered; CallStart;
             ClockAdvances 0.5; IntervalFires; PulseDelivered; CallStop;
             Ended (Voice 0)] in
  let w' := after w es in
  nextNoteTime (this w) <= nextNoteTime (this w') /\
  exists new,
    start_times (trace (audio w')) = start_times (trace (audio w)) ++ new /\
    ascending (nextNoteTime (this w)) (new ++ [nextNoteTime (this w')]).
Proof.
  intros w es w'.
  assert (Hr : reachable w).
  { exists (fun _ => 0.9), 0,
      [CallSwitchTrack "mainTheme"; ClockAdvances 0.15; TimeoutFires;
       CallStart; WorkerReceives].
    vm_compute. reflexivity. }
  assert (Hrnd : random_in_range (audio w)).
  { intros n. vm_compute. split; [discriminate|reflexivity]. }
  apply (proj1 (C1_scheduling_in_time_order w Hr Hrnd) es w').
  - vm_compute. reflexivity.
  - vm_compute. reflexivity.
Defined.
